(** * LyricPrint: the word-level lyric aligner of [main.py]

    A shallow embedding of [LyricsSyncPlayer.normalize_text],
    [parse_lrc_file], [create_word_timing_map] and
    [create_word_level_lyrics], together with the parts of the Python
    runtime they call, and the properties of the alignment core.

    Conventions of the embedding.
    - A Python [str] is a Rocq [string]; a character is a code point in
      U+0000..U+00FF (Rocq's 8-bit [ascii]), classified the way CPython
      classifies these code points.
    - A Python [float] is a binary64 number, Rocq's primitive [float].
    - A Python [int] is a [Z].
    - Code that may raise returns a [result]; [try]/[except] is a match on
      it.
    - The builtins [int] and [float] on a [str] are parameters of the
      player; [Literal] gives them on decimal spellings and on [inf] and
      [nan], to run the player on concrete files.
    - A file is the list of the lines that iterating over it yields;
      printing is left out. *)

From Stdlib Require Import ZArith NArith List String Ascii Bool Lia.
From Stdlib Require Import Sorted Permutation.
From Stdlib Require Import Floats.
Import ListNotations.

Set Warnings "-inexact-float".

Open Scope string_scope.
Open Scope list_scope.
Open Scope Z_scope.

(* ================================================================== *)
(** * The Python runtime used by the player *)

Module Py.

(** ** Exceptions *)

Inductive exn : Type :=
| ValueError
| IndexError
| OverflowError.

Inductive result (A : Type) : Type :=
| Ok (a : A)
| Raise (e : exn).

Arguments Ok {A} a.
Arguments Raise {A} e.

Definition bind {A B} (m : result A) (k : A -> result B) : result B :=
  match m with
  | Ok a => k a
  | Raise e => Raise e
  end.

Notation "x <- m ;; k" := (bind m (fun x => k))
  (at level 61, m at next level, right associativity).

(** A [for] loop whose body may raise, threading the loop state. *)
Fixpoint foldM {S A} (body : S -> A -> result S) (l : list A) (s : S)
  : result S :=
  match l with
  | [] => Ok s
  | a :: l' => s' <- body s a ;; foldM body l' s'
  end.

(** ** Characters *)

Definition ord (c : ascii) : N := N_of_ascii c.

Definition between (lo hi : N) (c : ascii) : bool :=
  ((lo <=? ord c) && (ord c <=? hi))%N.

(** [str.isspace] on one character, which is also the class [\s] of [re]:
    TAB..CR, FS..US, SPACE, NEL and NBSP. *)
Definition isspace (c : ascii) : bool :=
  between 9 13 c || between 28 32 c || between 133 133 c
  || between 160 160 c.

(** [str.isalnum] on one character: letters, decimal digits, and the
    characters with a digit or numeric value. *)
Definition isalnum (c : ascii) : bool :=
  between 48 57 c || between 65 90 c || between 97 122 c
  || between 170 170 c || between 178 179 c || between 181 181 c
  || between 185 186 c || between 188 190 c
  || between 192 214 c || between 216 246 c || between 248 255 c.

(** The class [\w] of [re] on a [str] pattern: alphanumerics and the
    underscore. *)
Definition isword (c : ascii) : bool :=
  isalnum c || between 95 95 c.

Definition isupper (c : ascii) : bool :=
  between 65 90 c || between 192 214 c || between 216 222 c.

Definition lower_char (c : ascii) : ascii :=
  if isupper c then ascii_of_N (ord c + 32) else c.

(** ** Strings *)

Fixpoint smap (f : ascii -> ascii) (s : string) : string :=
  match s with
  | EmptyString => EmptyString
  | String c s' => String (f c) (smap f s')
  end.

Fixpoint sfilter (p : ascii -> bool) (s : string) : string :=
  match s with
  | EmptyString => EmptyString
  | String c s' => if p c then String c (sfilter p s') else sfilter p s'
  end.

Definition is_empty (s : string) : bool :=
  match s with
  | EmptyString => true
  | String _ _ => false
  end.

(** [s.lower()] *)
Definition lower (s : string) : string := smap lower_char s.

Fixpoint lstrip (s : string) : string :=
  match s with
  | EmptyString => EmptyString
  | String c s' => if isspace c then lstrip s' else s
  end.

Fixpoint rstrip (s : string) : string :=
  match s with
  | EmptyString => EmptyString
  | String c s' =>
      let r := rstrip s' in
      if isspace c && is_empty r then EmptyString else String c r
  end.

(** [s.strip()] *)
Definition strip (s : string) : string := rstrip (lstrip s).

(** [s.split()]: the maximal runs of non-whitespace characters. *)
Fixpoint split (s : string) : list string :=
  match s with
  | EmptyString => []
  | String c s' =>
      if isspace c then split s'
      else
        match s' with
        | EmptyString => [String c EmptyString]
        | String c' _ =>
            if isspace c' then String c EmptyString :: split s'
            else
              match split s' with
              | w :: ws => String c w :: ws
              | [] => [String c EmptyString]
              end
        end
  end.

(** [s.split(sep)] for a one-character separator. *)
Fixpoint split_on (sep : ascii) (s : string) : list string :=
  match s with
  | EmptyString => [EmptyString]
  | String c s' =>
      if Ascii.eqb c sep then EmptyString :: split_on sep s'
      else
        match split_on sep s' with
        | w :: ws => String c w :: ws
        | [] => [String c EmptyString]
        end
  end.

(** [s.startswith(p)] *)
Definition startswith (p s : string) : bool := prefix p s.

(** [sub in s] *)
Fixpoint contains (sub s : string) : bool :=
  prefix sub s ||
  match s with
  | EmptyString => false
  | String _ s' => contains sub s'
  end.

(** [c in s] for a character. *)
Fixpoint mem_char (c : ascii) (s : string) : bool :=
  match s with
  | EmptyString => false
  | String d s' => Ascii.eqb d c || mem_char c s'
  end.

(** [s.index(c)]: the first position of [c], or [ValueError]. *)
Fixpoint index (c : ascii) (s : string) : result nat :=
  match s with
  | EmptyString => Raise ValueError
  | String d s' =>
      if Ascii.eqb d c then Ok O
      else i <- index c s' ;; Ok (S i)
  end.

(** [s[lo:]] and [s[lo:hi]] for non-negative bounds. *)
Fixpoint slice_from (lo : nat) (s : string) : string :=
  match lo, s with
  | O, _ => s
  | S n, String _ s' => slice_from n s'
  | S _, EmptyString => EmptyString
  end.

Fixpoint take (n : nat) (s : string) : string :=
  match n, s with
  | S m, String c s' => String c (take m s')
  | _, _ => EmptyString
  end.

Definition slice (lo hi : nat) (s : string) : string :=
  take (hi - lo) (slice_from lo s).

(** [l[i]] for a non-negative index, or [IndexError]. *)
Definition getitem {A} (l : list A) (i : nat) : result A :=
  match nth_error l i with
  | Some a => Ok a
  | None => Raise IndexError
  end.

(** [re.sub(r'[^\w\s]', '', s)] *)
Definition remove_punctuation (s : string) : string :=
  sfilter (fun c => isword c || isspace c) s.

(** [re.sub(r'\s+', ' ', s)]: every maximal run of whitespace becomes one
    space.  [in_run] tells that the previous character was whitespace. *)
Fixpoint collapse_from (in_run : bool) (s : string) : string :=
  match s with
  | EmptyString => EmptyString
  | String c s' =>
      if isspace c then
        if in_run then collapse_from true s'
        else String " " (collapse_from true s')
      else String c (collapse_from false s')
  end.

Definition collapse_whitespace (s : string) : string :=
  collapse_from false s.

(** [range(lo, hi)] *)
Definition range (lo hi : Z) : list Z :=
  map (fun k => lo + Z.of_nat k) (seq 0 (Z.to_nat (hi - lo))).

(** [len(l)] *)
Definition len {A} (l : list A) : Z := Z.of_nat (List.length l).

(** [l[i]] for an integer index: a negative index counts from the end, and
    an index outside the list raises [IndexError]. *)
Definition getitemZ {A} (l : list A) (i : Z) : result A :=
  let i := if i <? 0 then i + len l else i in
  if i <? 0 then Raise IndexError else getitem l (Z.to_nat i).

(** [enumerate(l)] *)
Definition enumerate {A} (l : list A) : list (Z * A) :=
  combine (range 0 (len l)) l.

Definition is_nil {A} (l : list A) : bool :=
  match l with
  | [] => true
  | _ :: _ => false
  end.

(** ** Floats *)

(** The conversion of an [int] to a [float] that arithmetic between the
    two performs: the nearest binary64 number, ties to even, and
    [OverflowError] when that is not finite. *)
Definition float_of_int (z : Z) : result float :=
  match binary_normalize prec emax z 0 false with
  | S754_infinity _ => Raise OverflowError
  | x => Ok (SF2Prim x)
  end.

(** The same conversion for a length, which is always far below the
    overflow threshold. *)
Definition float_of_nat (n : nat) : float :=
  SF2Prim (binary_normalize prec emax (Z.of_nat n) 0 false).

(** ** Sorting

    [sorted(l, key=...)] and [l.sort(key=...)] compare keys with [<] only
    and are stable.  They begin with the run the list starts with: a list
    in which no key is less than the key before it is one run, and is
    returned as it stands, whatever its keys.  Beyond that, when [<] is a
    strict weak order on the keys (no NaN among them), the result is the
    one stable ordering, which the insertion sort below computes: an
    element goes after every element that was before it and is not
    greater.  With a NaN among keys that are not one run, the order
    [list.sort] leaves depends on how the interpreter cuts and extends its
    runs; no property below speaks of the order in that case. *)
Fixpoint one_run {A} (key : A -> float) (l : list A) : bool :=
  match l with
  | x :: (y :: _) as l' => negb (key y <? key x)%float && one_run key l'
  | _ => true
  end.

Fixpoint insert_by {A} (key : A -> float) (x : A) (l : list A) : list A :=
  match l with
  | [] => [x]
  | y :: l' =>
      if (key x <? key y)%float then x :: l
      else y :: insert_by key x l'
  end.

Definition insertion_sort {A} (key : A -> float) (l : list A) : list A :=
  fold_left (fun acc x => insert_by key x acc) l [].

Definition sorted {A} (key : A -> float) (l : list A) : list A :=
  if one_run key l then l else insertion_sort key l.

End Py.

Import Py.

(* ================================================================== *)
(** * [difflib.SequenceMatcher(None, a, b).ratio()]

    With [isjunk = None] no element is junk; with the default
    [autojunk = True] the elements of a [b] of 200 or more elements that
    occur more than [len(b) // 100 + 1] times are "popular" and are left
    out of the index [b2j]. *)

Module Difflib.

Definition count (c : ascii) (b : list ascii) : nat :=
  List.length (filter (Ascii.eqb c) b).

Definition popular (b : list ascii) (c : ascii) : bool :=
  ((200 <=? List.length b) && (List.length b / 100 + 1 <? count c b))%nat.

(** A match [(i, j, k)]: [a[i:i+k] == b[j:j+k]]. *)
Definition block := (nat * nat * nat)%type.

Section FindLongestMatch.

Variable pop : ascii -> bool.

(** One pass of the inner loop of [find_longest_match]: [newj2len] for the
    element [ai], as the list of its values at [j = 0, 1, ...] (0 where
    the dictionary has no entry); [shifted] lists [j2len.get(j-1, 0)]. *)
Fixpoint row (ai : ascii) (b : list ascii) (shifted : list nat) : list nat :=
  match b with
  | [] => []
  | bj :: b' =>
      let k := if Ascii.eqb ai bj && negb (pop bj)
               then S (hd O shifted) else O in
      k :: row ai b' (tl shifted)
  end.

(** The update of [besti, bestj, bestsize] along one row. *)
Fixpoint scan_row (i j : nat) (r : list nat) (best : block) : block :=
  match r with
  | [] => best
  | k :: r' =>
      let '(_, _, bestsize) := best in
      scan_row i (S j) r'
        (if (bestsize <? k)%nat then (S i - k, S j - k, k)%nat else best)
  end.

Fixpoint rows (a : list ascii) (i : nat) (b : list ascii)
    (j2len : list nat) (best : block) : block :=
  match a with
  | [] => best
  | ai :: a' =>
      let newj2len := row ai b (O :: j2len) in
      rows a' (S i) b newj2len (scan_row i O newj2len best)
  end.

Definition same_at (a b : list ascii) (i j : nat) : bool :=
  match nth_error a i, nth_error b j with
  | Some x, Some y => Ascii.eqb x y
  | _, _ => false
  end.

(** The two loops that extend the match by equal elements on each side. *)
Fixpoint extend_left (a b : list ascii) (fuel : nat) (best : block) : block :=
  match fuel, best with
  | S fuel', (S i, S j, k) =>
      if same_at a b i j then extend_left a b fuel' (i, j, S k) else best
  | _, _ => best
  end.

Fixpoint extend_right (a b : list ascii) (fuel : nat) (best : block) : block :=
  match fuel, best with
  | S fuel', (i, j, k) =>
      if same_at a b (i + k) (j + k)
      then extend_right a b fuel' (i, j, S k) else best
  | O, _ => best
  end.

(** [find_longest_match(alo, ahi, blo, bhi)] on [a = a0[alo:ahi]] and
    [b = b0[blo:bhi]], with positions relative to the slices. *)
Definition find_longest_match (a b : list ascii) : block :=
  let best := rows a O b [] (O, O, O) in
  let best := extend_left a b (List.length a) best in
  extend_right a b (List.length a) best.

(** The total size of the blocks [get_matching_blocks] collects: the
    longest match, then the matches to its left and to its right.  The
    first argument bounds the depth, which never exceeds [len(a)]. *)
Fixpoint matching_size (depth : nat) (a b : list ascii) : nat :=
  match depth with
  | O => O
  | S d =>
      let '(i, j, k) := find_longest_match a b in
      if (k =? 0)%nat then O
      else (k + matching_size d (firstn i a) (firstn j b)
              + matching_size d (skipn (i + k) a) (skipn (j + k) b))%nat
  end.

End FindLongestMatch.

Definition ratio (a b : string) : float :=
  let a := list_ascii_of_string a in
  let b := list_ascii_of_string b in
  let matches := matching_size (popular b) (S (List.length a)) a b in
  let length := (List.length a + List.length b)%nat in
  if (length =? 0)%nat then 1%float
  else (2 * float_of_nat matches / float_of_nat length)%float.

End Difflib.

(* ================================================================== *)
(** * [LyricsSyncPlayer] *)

(** [normalize_text] (main.py, lines 70-74). *)
Definition normalize_text (text : string) : string :=
  let normalized := remove_punctuation (lower text) in
  let normalized := strip (collapse_whitespace normalized) in
  normalized.

(** ** Data *)

(** The file behind a path: unreadable, or the lines that iterating over
    it yields. *)
Inductive lrc_file : Type :=
| Unreadable
| Lines (lines : list string).

Definition timed_line := (float * string)%type.
Definition timing_entry := (float * string * string)%type.
Definition timed_word := (float * string * bool)%type.

Definition timestamp_of (w : timed_word) : float := fst (fst w).
Definition word_of (w : timed_word) : string := snd (fst w).
Definition is_line_end_of (w : timed_word) : bool := snd w.

Definition metadata_tags : list string :=
  ["ar:"; "al:"; "ti:"; "length:"; "id:"].

(** The aligner's loop state. *)
Record state : Type := mkState {
  timing_index : Z;
  word_level_lyrics : list timed_word
}.

Section Player.

(** The builtins [int] and [float] applied to a [str]. *)
Variable int_of_str : string -> result Z.
Variable float_of_str : string -> result float.

(** ** [parse_lrc_file] (main.py, lines 76-112) *)

(** The body of the [try] (lines 93-104): what the line appends, if
    anything. *)
Definition parse_timestamp (line : string) : result (option timed_line) :=
  i <- index "]" line ;;
  let timestamp_str := slice 1 i line in
  i <- index "]" line ;;
  let lyric_text := strip (slice_from (i + 1) line) in
  if mem_char ":" timestamp_str then
    let time_parts := split_on ":" timestamp_str in
    part <- getitemZ time_parts 0 ;;
    minutes <- int_of_str part ;;
    part <- getitemZ time_parts 1 ;;
    seconds <- float_of_str part ;;
    minutes60 <- float_of_int (minutes * 60) ;;
    let total_seconds := (minutes60 + seconds)%float in
    if negb (is_empty lyric_text)
    then Ok (Some (total_seconds, lyric_text))
    else Ok None
  else Ok None.

(** The body of the loop over the lines (lines 82-106). *)
Definition parse_line (lyrics_with_time : list timed_line) (line : string)
  : result (list timed_line) :=
  let line := strip line in
  if is_empty line then Ok lyrics_with_time
  else if startswith "[" line
          && existsb (fun tag => contains tag (lower line)) metadata_tags
  then Ok lyrics_with_time
  else if startswith "[" line && mem_char "]" line then
    match parse_timestamp line with
    | Ok (Some entry) => Ok (lyrics_with_time ++ [entry])
    | Ok None => Ok lyrics_with_time
    | Raise ValueError | Raise IndexError => Ok lyrics_with_time
    | Raise e => Raise e
    end
  else Ok lyrics_with_time.

Definition parse_lrc_file (lrc_path : lrc_file) : list timed_line :=
  match lrc_path with
  | Unreadable => []
  | Lines lines =>
      match foldM parse_line lines [] with
      | Ok lyrics_with_time => sorted fst lyrics_with_time
      | Raise _ => []
      end
  end.

(** ** [create_word_timing_map] (lines 114-127) *)

Definition create_word_timing_map (timing_lrc : lrc_file)
  : list timing_entry :=
  let timing_words := parse_lrc_file timing_lrc in
  fold_left
    (fun timing_sequence '(timestamp, word) =>
       let normalized_word := normalize_text word in
       if negb (is_empty normalized_word)
       then timing_sequence ++ [(timestamp, normalized_word, word)]
       else timing_sequence)
    timing_words [].

(** ** [create_word_level_lyrics] (lines 129-187) *)

(** The comparison of line 166. *)
Definition similar (normalized_word timing_norm_word : string) : bool :=
  (0.8 <? Difflib.ratio normalized_word timing_norm_word)%float.

(** The search loop (lines 160-169): the time and the index of the first
    candidate that is similar enough, if there is one. *)
Fixpoint search (timing_sequence : list timing_entry)
    (normalized_word : string) (indices : list Z)
  : result (option (float * Z)) :=
  match indices with
  | [] => Ok None
  | search_idx :: rest =>
      if search_idx <? len timing_sequence then
        entry <- getitemZ timing_sequence search_idx ;;
        let '(timing_time, timing_norm_word, _) := entry in
        if similar normalized_word timing_norm_word
        then Ok (Some (timing_time, search_idx))
        else search timing_sequence normalized_word rest
      else search timing_sequence normalized_word rest
  end.

Definition search_start (timing_index : Z) : Z :=
  Z.max 0 (timing_index - 2).

Definition search_end (timing_sequence : list timing_entry)
    (timing_index : Z) : Z :=
  Z.min (len timing_sequence) (timing_index + 50).

(** The estimate of lines 172-178, used when the search found nothing. *)
Definition fallback_timing (line_timestamp : float) (word_index : Z)
    (word_level_lyrics : list timed_word) : result float :=
  if word_index =? 0 then Ok line_timestamp
  else
    prev_timing <-
      (if negb (is_nil word_level_lyrics)
       then entry <- getitemZ word_level_lyrics (-1) ;;
            Ok (timestamp_of entry)
       else Ok line_timestamp) ;;
    Ok (prev_timing + 0.3)%float.

(** The body of the loop over the words of a line (lines 153-182). *)
Definition align_word (timing_sequence : list timing_entry)
    (line_timestamp : float) (line_words : list string)
    (st : state) (iw : Z * string) : result state :=
  let '(word_index, word) := iw in
  let normalized_word := normalize_text word in
  found <- search timing_sequence normalized_word
             (range (search_start (timing_index st))
                    (search_end timing_sequence (timing_index st))) ;;
  let timing_index' :=
    match found with
    | Some (_, search_idx) => search_idx + 1
    | None => timing_index st
    end in
  found_timing <-
    match found with
    | Some (timing_time, _) => Ok timing_time
    | None =>
        fallback_timing line_timestamp word_index (word_level_lyrics st)
    end ;;
  let is_line_end := word_index =? len line_words - 1 in
  Ok (mkState timing_index'
        (word_level_lyrics st ++ [(found_timing, word, is_line_end)])).

(** The body of the loop over the structure lines (lines 144-182). *)
Definition align_line (timing_sequence : list timing_entry)
    (st : state) (line : timed_line) : result state :=
  let '(line_timestamp, line_text) := line in
  if is_empty (strip line_text) then Ok st
  else
    let line_words := split line_text in
    foldM (align_word timing_sequence line_timestamp line_words)
          (enumerate line_words) st.

Definition initial_state : state := mkState 0 [].

Definition create_word_level_lyrics (structure_lrc timing_lrc : lrc_file)
  : result (list timed_word) :=
  let structure_lines := parse_lrc_file structure_lrc in
  let timing_sequence := create_word_timing_map timing_lrc in
  if is_nil structure_lines || is_nil timing_sequence then Ok []
  else
    st <- foldM (align_line timing_sequence) structure_lines initial_state ;;
    Ok (sorted timestamp_of (word_level_lyrics st)).

End Player.

(* ================================================================== *)
(** * [get_song_bpm] (main.py, lines 22-50)

    The analysis of the audio by [librosa] is outside the program: its
    outcome is the tempo it finds, or nothing when it raises.  What is
    printed is left out. *)

(** [max(a, b)] and [min(a, b)] on two floats: the first argument is kept
    unless the second is greater, respectively smaller. *)
Definition py_max (a b : float) : float :=
  if (a <? b)%float then b else a.

Definition py_min (a b : float) : float :=
  if (b <? a)%float then b else a.

(** [a / b], which raises [ZeroDivisionError] when [b] is zero. *)
Definition py_div (a b : float) : option float :=
  if (b =? 0)%float then None else Some (a / b)%float.

Definition get_song_bpm (tempo : option float) : float :=
  match tempo with
  | None => 0.03
  | Some tempo =>
      match py_div 60 (tempo * 8) with
      | None => 0.03
      | Some typing_speed =>
          let typing_speed := (py_max 0.01 (py_min 0.1 typing_speed) - 0.02)%float in
          typing_speed
      end
  end.

(* ================================================================== *)
(** * Playback: [play_with_word_timing] and [play_with_lrc_file]

    The loops that show the lyrics while the music plays (main.py, lines
    212-247 and 283-302).  The clock and the mixer are the list of the
    values [current_time] takes, one for each turn of the outer loop; what
    the loops print is the list of the pieces printed.  [slow_print] writes
    the whole text, [is_playing] being true while the loop runs. *)

Module Playback.

(** The pieces printed: the note sign with a space, a space, a text
    written by [slow_print], and the end of a line. *)
Inductive printed : Type :=
| Note
| Space
| Text (text : string)
| Newline.

Record word_state : Type := mkWordState {
  word_index : Z;
  current_line_words : list string;
  stdout : list printed
}.

(** The body of the inner loop (lines 223-245). *)
Definition show_word (st : word_state) (entry : timed_word) : word_state :=
  let '(timestamp, word, is_line_end) := entry in
  let current_line_words := current_line_words st ++ [word] in
  let stdout :=
    stdout st
    ++ [if len current_line_words =? 1 then Note else Space]
    ++ [Text word] in
  if is_line_end
  then mkWordState (word_index st + 1) [] (stdout ++ [Newline])
  else mkWordState (word_index st + 1) current_line_words stdout.

(** The inner loop (lines 220-245) at one value of [current_time]; the
    first argument bounds the number of turns, which is at most the number
    of words left. *)
Fixpoint show_due_words (turns : nat) (word_level_lyrics : list timed_word)
    (current_time : float) (st : word_state) : result word_state :=
  match turns with
  | O => Ok st
  | S turns' =>
      if word_index st <? len word_level_lyrics then
        entry <- getitemZ word_level_lyrics (word_index st) ;;
        if (timestamp_of entry <=? current_time)%float then
          entry <- getitemZ word_level_lyrics (word_index st) ;;
          show_due_words turns' word_level_lyrics current_time
            (show_word st entry)
        else Ok st
      else Ok st
  end.

Definition initial_word_state : word_state := mkWordState 0 [] [].

(** The outer loop (lines 216-247) over the values of the clock. *)
Definition play_words (word_level_lyrics : list timed_word)
    (clock : list float) : result word_state :=
  foldM
    (fun st current_time =>
       show_due_words (List.length word_level_lyrics) word_level_lyrics
         current_time st)
    clock initial_word_state.

Record line_state : Type := mkLineState {
  lyric_index : Z;
  line_stdout : list printed
}.

(** The body of the inner loop of [play_with_lrc_file] (lines 293-300). *)
Definition show_line (st : line_state) (entry : timed_line) : line_state :=
  let '(_, lyric_line) := entry in
  let stdout :=
    if negb (is_empty (strip lyric_line))
    then line_stdout st ++ [Note; Text lyric_line; Newline]
    else line_stdout st in
  mkLineState (lyric_index st + 1) stdout.

(** The inner loop of [play_with_lrc_file] (lines 290-300). *)
Fixpoint show_due_lines (turns : nat) (lyrics_with_timestamps : list timed_line)
    (current_time : float) (st : line_state) : result line_state :=
  match turns with
  | O => Ok st
  | S turns' =>
      if lyric_index st <? len lyrics_with_timestamps then
        entry <- getitemZ lyrics_with_timestamps (lyric_index st) ;;
        if (fst entry <=? current_time)%float then
          entry <- getitemZ lyrics_with_timestamps (lyric_index st) ;;
          show_due_lines turns' lyrics_with_timestamps current_time
            (show_line st entry)
        else Ok st
      else Ok st
  end.

(** The outer loop of [play_with_lrc_file] (lines 286-302). *)
Definition play_lines (lyrics_with_timestamps : list timed_line)
    (clock : list float) : result line_state :=
  foldM
    (fun st current_time =>
       show_due_lines (List.length lyrics_with_timestamps)
         lyrics_with_timestamps current_time st)
    clock (mkLineState 0 []).

End Playback.

(* ================================================================== *)
(** * [read_lrc_file] of the timestamp generator (lyrics_timer_v2.py,
      lines 8-63)

    The file is the list of the lines that iterating over it yields.  The
    function has no [try]: what [float] raises leaves the function. *)

Module Timer.

(** [s.find(c)]: the first position of [c], or -1. *)
Definition find (c : ascii) (s : string) : Z :=
  match index c s with
  | Ok i => Z.of_nat i
  | Raise _ => -1
  end.

(** The bound [i] of a slice of a sequence of length [n]: a negative bound
    counts from the end, and both ends are clipped. *)
Definition slice_bound (n i : Z) : Z :=
  if i <? 0 then Z.max 0 (i + n) else Z.min i n.

(** [s[lo:hi]] for integer bounds. *)
Definition sliceZ (lo hi : Z) (s : string) : string :=
  let n := Z.of_nat (String.length s) in
  slice (Z.to_nat (slice_bound n lo)) (Z.to_nat (slice_bound n hi)) s.

(** A [dict] with integer keys, in insertion order: [d[k] = v] and
    [d[k]], which is [None] for [KeyError]. *)
Fixpoint dict_set {V} (k : Z) (v : V) (d : list (Z * V)) : list (Z * V) :=
  match d with
  | [] => [(k, v)]
  | (k', v') :: d' =>
      if k' =? k then (k, v) :: d' else (k', v') :: dict_set k v d'
  end.

Fixpoint dict_get {V} (k : Z) (d : list (Z * V)) : option V :=
  match d with
  | [] => None
  | (k', v') :: d' => if k' =? k then Some v' else dict_get k d'
  end.

(** A loop that collects what its body returns. *)
Fixpoint mapM {A B} (f : A -> result B) (l : list A) : result (list B) :=
  match l with
  | [] => Ok []
  | a :: l' => b <- f a ;; bs <- mapM f l' ;; Ok (b :: bs)
  end.

Definition metadata_prefixes : list string :=
  ["[ti:"; "[ar:"; "[al:"; "[id:"; "[length:"].

(** The place of a word: section, line of the section, and position and
    length in the line. *)
Definition place := (Z * Z * (Z * Z))%type.

Record state : Type := mkState {
  words : list string;
  sections : list (list string);
  word_to_section : list (Z * place);
  current_section : list string;
  last_timestamp : float
}.

Definition initial_state : state := mkState [] [] [] [] 0.

(** The first loop over the words of a line (lines 46-48). *)
Fixpoint word_positions (current_pos : Z) (line_words : list string)
  : list (Z * Z) :=
  match line_words with
  | [] => []
  | word :: rest =>
      (current_pos, Z.of_nat (String.length word))
      :: word_positions (current_pos + Z.of_nat (String.length word) + 1) rest
  end.

Section ReadLrcFile.

(** The builtin [float] applied to a [str]. *)
Variable float_of_str : string -> result float.

(** [mins, secs = map(float, parts)]: the parts are converted one after
    the other as the unpacking asks for them, and there must be two. *)
Definition two_floats (parts : list string) : result (float * float) :=
  match parts with
  | [] => Raise ValueError
  | [part0] => _ <- float_of_str part0 ;; Raise ValueError
  | [part0; part1] =>
      mins <- float_of_str part0 ;;
      secs <- float_of_str part1 ;;
      Ok (mins, secs)
  | part0 :: part1 :: part2 :: _ =>
      _ <- float_of_str part0 ;;
      _ <- float_of_str part1 ;;
      _ <- float_of_str part2 ;;
      Raise ValueError
  end.

(** Lines 24-36: the timestamp of the line and the start of a new
    section. *)
Definition start_section (st : state) (line : string) : result state :=
  let timestamp_str := sliceZ (find "[" line + 1) (find "]" line) line in
  if mem_char ":" timestamp_str then
    mins_secs <- two_floats (split_on ":" timestamp_str) ;;
    let '(mins, secs) := mins_secs in
    let current_timestamp := (mins * 60 + secs)%float in
    let st :=
      if negb (is_nil (current_section st))
         && ((4 <? current_timestamp - last_timestamp st)%float
             || (10 <=? len (current_section st)))
      then
        if negb (is_nil (current_section st))
        then mkState (words st) (sections st ++ [current_section st])
               (word_to_section st) [] (last_timestamp st)
        else st
      else st in
    Ok (mkState (words st) (sections st) (word_to_section st)
          (current_section st) current_timestamp)
  else Ok st.

(** Line 39: the line without its bracketed parts. *)
Definition clean (line : string) : result string :=
  parts <- mapM (fun part => getitemZ (split_on "]" part) (-1))
             (split_on "[" line) ;;
  Ok (strip (String.concat "" parts)).

(** The body of the second loop over the words (lines 50-56). *)
Definition add_word (word_positions : list (Z * Z)) (st : state)
    (iw : Z * string) : result state :=
  let '(i, word) := iw in
  position <- getitemZ word_positions i ;;
  Ok (mkState (words st ++ [word]) (sections st)
        (dict_set (len (words st))
           (len (sections st), len (current_section st), position)
           (word_to_section st))
        (current_section st) (last_timestamp st)).

(** The body of the loop over the lines (lines 18-57). *)
Definition read_line (st : state) (line : string) : result state :=
  if existsb (fun tag => startswith tag line) metadata_prefixes then Ok st
  else if negb (is_empty (strip line)) && mem_char "[" line then
    st <- start_section st line ;;
    clean_line <- clean line ;;
    if negb (is_empty clean_line) then
      let line_words := split clean_line in
      let word_positions := word_positions 0 line_words in
      st <- foldM (add_word word_positions) (enumerate line_words) st ;;
      Ok (mkState (words st) (sections st) (word_to_section st)
            (current_section st ++ [clean_line]) (last_timestamp st))
    else Ok st
  else Ok st.

Definition read_lrc_file (lines : list string)
  : result (list string * list (list string) * list (Z * place)) :=
  st <- foldM read_line lines initial_state ;;
  let sections :=
    if negb (is_nil (current_section st))
    then sections st ++ [current_section st]
    else sections st in
  Ok (words st, sections, word_to_section st).

End ReadLrcFile.

(** ** [display_lyrics]

    The function is nested in [main] and reads [words], [sections] and
    [word_to_section] of the enclosing call; here they are arguments.  A
    [KeyError] or [IndexError] is [None]. *)

(** What [display_lyrics] prints, one item for each [print]. *)
Inductive shown : Type :=
| Loaded
| Progress (done total : Z)
| Rule
| Section_lines (lines : list string)
| Next_section
| Next_word (word : string).

Definition lookup {V} (k : Z) (d : list (Z * V)) : option V := dict_get k d.

Definition item {A} (l : list A) (i : Z) : option A :=
  match getitemZ l i with
  | Ok a => Some a
  | Raise _ => None
  end.

(** [l[i] = x] *)
Definition setitem {A} (l : list A) (i : Z) (x : A) : option (list A) :=
  let i := if i <? 0 then i + len l else i in
  if (i <? 0) || (len l <=? i) then None
  else Some (firstn (Z.to_nat i) l ++ x :: skipn (Z.to_nat i + 1) l).

Definition obind {A B} (m : option A) (k : A -> option B) : option B :=
  match m with
  | Some a => k a
  | None => None
  end.

Fixpoint ofold {St A} (body : St -> A -> option St) (l : list A) (s : St)
  : option St :=
  match l with
  | [] => Some s
  | a :: l' => obind (body s a) (ofold body l')
  end.

(** [c * n] for a one-character string [c]. *)
Definition times (c : ascii) (n : Z) : string :=
  string_of_list_ascii (repeat c (Z.to_nat n)).

(** [line[:pos] + dots + line[pos + length:]] *)
Definition dotted (line : string) (pos length : Z) : string :=
  (sliceZ 0 pos line ++ times "." length
   ++ sliceZ (pos + length) (Z.of_nat (String.length line)) line)%string.

(** The body of the loop over the processed words (lines 110-115). *)
Definition dot_word (word_to_section : list (Z * place))
    (current_section_idx : Z) (current_section : list string) (i : Z)
  : option (list string) :=
  obind (lookup i word_to_section) (fun entry =>
  let '(section_idx, line_idx, (pos, length)) := entry in
  if section_idx =? current_section_idx then
    obind (item current_section line_idx) (fun line =>
    setitem current_section line_idx (dotted line pos length))
  else Some current_section).

Definition display_lyrics (words : list string)
    (sections : list (list string)) (word_to_section : list (Z * place))
    (current_word_index : Z) : option (list shown) :=
  let header := [Loaded; Progress (current_word_index + 1) (len words); Rule] in
  obind
    (if current_word_index =? -1 then
       obind (item sections 0) (fun first => Some [Section_lines first])
     else
       obind (lookup current_word_index word_to_section) (fun entry =>
       let current_section_idx := fst (fst entry) in
       obind (item sections current_section_idx) (fun current_section =>
       obind (ofold (dot_word word_to_section current_section_idx)
                (range 0 (current_word_index + 1)) current_section)
         (fun current_section =>
       let next_word_idx := current_word_index + 1 in
       obind
         (if next_word_idx <? len words then
            obind (lookup next_word_idx word_to_section) (fun next =>
            let next_section_idx := fst (fst next) in
            if current_section_idx <? next_section_idx then
              obind (item sections next_section_idx) (fun next_section =>
              Some [Next_section; Rule; Section_lines next_section])
            else Some [])
          else Some [])
         (fun preview => Some (Section_lines current_section :: preview))))))
    (fun body =>
  obind
    (if (0 <=? current_word_index) && (current_word_index <? len words - 1)
     then obind (item words (current_word_index + 1))
            (fun word => Some [Next_word word])
     else Some [])
    (fun footer => Some (header ++ body ++ [Rule] ++ footer))).

End Timer.

(* ================================================================== *)
(** * Decimal literals

    [int] and [float] on the plain decimal spellings: an optional sign and
    digits, for [float] with an optional fraction or, in place of the
    digits, [inf], [infinity] or [nan] in any letter case.  On these
    spellings the two functions below return what the builtins return; the
    other spellings the builtins accept (surrounding whitespace,
    underscores, an exponent) are not covered and raise here.  They
    instantiate the player on concrete files. *)

Module Literal.

Definition digit (c : ascii) : option Z :=
  if between 48 57 c then Some (Z.of_N (ord c) - 48) else None.

Fixpoint digits (acc : Z) (s : string) : option Z :=
  match s with
  | EmptyString => Some acc
  | String c s' =>
      match digit c with
      | Some d => digits (10 * acc + d) s'
      | None => None
      end
  end.

Definition sign_of (s : string) : bool * string :=
  match s with
  | String c body =>
      if Ascii.eqb c "-" then (true, body)
      else if Ascii.eqb c "+" then (false, body)
      else (false, s)
  | EmptyString => (false, s)
  end.

Definition int_literal (s : string) : result Z :=
  let '(negative, body) := sign_of s in
  if is_empty body then Raise ValueError
  else
    match digits 0 body with
    | Some n => Ok (if negative then - n else n)
    | None => Raise ValueError
    end.

(** The binary64 number nearest to [num / den] (ties to even), for
    [0 <= num] and [0 < den]: the quotient is taken with 64 or more bits
    and a sticky bit, then rounded once. *)
Definition nearest_float (negative : bool) (num den : Z) : float :=
  let shift := Z.max 0 (Z.log2 den + 64 - Z.log2 num) in
  let scaled := num * 2 ^ shift in
  let sticky := if scaled mod den =? 0 then 0 else 1 in
  let m := 2 * (scaled / den) + sticky in
  SF2Prim (binary_normalize prec emax (if negative then - m else m)
             (- (shift + 1)) negative).

(** [inf], [infinity] and [nan], in any letter case. *)
Definition special (body : string) : option float :=
  let body := lower body in
  if String.eqb body "nan" then Some nan
  else if String.eqb body "inf" || String.eqb body "infinity"
       then Some infinity
       else None.

Definition float_literal (s : string) : result float :=
  let '(negative, body) := sign_of s in
  match special body with
  | Some x => Ok (if negative then (- x)%float else x)
  | None =>
      match split_on "." body with
      | [whole] =>
          if is_empty whole then Raise ValueError
          else
            match digits 0 whole with
            | Some n => Ok (nearest_float negative n 1)
            | None => Raise ValueError
            end
      | [whole; frac] =>
          if is_empty whole && is_empty frac then Raise ValueError
          else
            match digits 0 whole, digits 0 frac with
            | Some n, Some f =>
                let scale := 10 ^ Z.of_nat (String.length frac) in
                Ok (nearest_float negative (n * scale + f) scale)
            | _, _ => Raise ValueError
            end
      | _ => Raise ValueError
      end
  end.

End Literal.

(** A line whose minutes, 1 followed by 309 zeros, multiplied by 60 are
    beyond the largest float. *)
Definition overflowing_line : string :=
  "[1" ++ string_of_list_ascii (repeat "0"%char 309) ++ ":00.00]second".

(** The player on decimal timestamps. *)
Definition parse_lrc : lrc_file -> list timed_line :=
  parse_lrc_file Literal.int_literal Literal.float_literal.

Definition word_level_lyrics_of
  : lrc_file -> lrc_file -> result (list timed_word) :=
  create_word_level_lyrics Literal.int_literal Literal.float_literal.

(* ================================================================== *)
(** * Vocabulary of the properties *)

(** [sall p s]: every character of [s] satisfies [p]. *)
Fixpoint sall (p : ascii -> bool) (s : string) : bool :=
  match s with
  | EmptyString => true
  | String c s' => p c && sall p s'
  end.

(** [collapsed in_run s]: the whitespace of [s] is single spaces, and [s]
    does not start with one when [in_run] holds. *)
Fixpoint collapsed (in_run : bool) (s : string) : bool :=
  match s with
  | EmptyString => true
  | String c s' =>
      if isspace c then Ascii.eqb c " " && negb in_run && collapsed true s'
      else collapsed false s'
  end.

(** The normal forms: lower-case word characters and single spaces. *)
Definition normal_char (c : ascii) : bool :=
  Ascii.eqb (lower_char c) c && (isword c || isspace c).

(** The comparison of two floats, [None] when one of them is NaN. *)
Definition fcompare (x y : float) : option comparison :=
  SFcompare (Prim2SF x) (Prim2SF y).

(** Keys in non-decreasing order, and keys that are numbers. *)
Definition key_le {A} (key : A -> float) (a b : A) : Prop :=
  (key a <=? key b)%float = true.

Definition key_number {A} (key : A -> float) (a : A) : Prop :=
  is_nan (key a) = false.

(** The entries of [l] whose key equals [t], in the order of [l]. *)
Definition with_key {A} (key : A -> float) (t : float) (l : list A) : list A :=
  filter (fun a => (key a =? t)%float) l.

(** ** The search window *)

(** The timing entry at index [i], if there is one. *)
Definition candidate (timing_sequence : list timing_entry) (i : Z)
  : option timing_entry :=
  if i <? 0 then None else nth_error timing_sequence (Z.to_nat i).

(** The candidate at index [i] clears the threshold for [normalized_word]. *)
Definition similar_at (timing_sequence : list timing_entry)
    (normalized_word : string) (i : Z) : bool :=
  match candidate timing_sequence i with
  | Some (_, timing_norm_word, _) => similar normalized_word timing_norm_word
  | None => false
  end.

(** [i] is the first index of [lo, hi) whose candidate clears the
    threshold. *)
Definition first_similar (timing_sequence : list timing_entry)
    (normalized_word : string) (lo hi i : Z) : Prop :=
  lo <= i < hi /\
  similar_at timing_sequence normalized_word i = true /\
  forall j, lo <= j < i -> similar_at timing_sequence normalized_word j = false.

(** No index of [lo, hi) has a candidate that clears the threshold. *)
Definition none_similar (timing_sequence : list timing_entry)
    (normalized_word : string) (lo hi : Z) : Prop :=
  forall j, lo <= j < hi -> similar_at timing_sequence normalized_word j = false.

(** ** The run of the aligner, word by word *)

(** One iteration of the inner loop: the line's timestamp and words, and
    the enumerated word. *)
Definition job := (float * list string * (Z * string))%type.

Definition job_line_timestamp (j : job) : float := fst (fst j).
Definition job_line_words (j : job) : list string := snd (fst j).
Definition job_word_index (j : job) : Z := fst (snd j).
Definition job_word (j : job) : string := snd (snd j).

(** The iterations a structure line gives rise to, in order. *)
Definition line_jobs (line : timed_line) : list job :=
  let '(line_timestamp, line_text) := line in
  if is_empty (strip line_text) then []
  else
    let line_words := split line_text in
    map (fun iw => (line_timestamp, line_words, iw)) (enumerate line_words).

Definition jobs (structure_lines : list timed_line) : list job :=
  flat_map line_jobs structure_lines.

Definition step (timing_sequence : list timing_entry) (st : state) (j : job)
  : result state :=
  align_word timing_sequence (job_line_timestamp j) (job_line_words j) st
    (snd j).

(** The states of a loop: before the first iteration and after each. *)
Fixpoint scanM {S A} (body : S -> A -> result S) (l : list A) (s : S)
  : result (list S) :=
  match l with
  | [] => Ok [s]
  | a :: l' =>
      s' <- body s a ;;
      states <- scanM body l' s' ;;
      Ok (s :: states)
  end.

(** The values [timing_index] takes: 0 at the start, then its value after
    each structure word. *)
Definition cursor_trace (timing_sequence : list timing_entry)
    (structure_lines : list timed_line) : result (list Z) :=
  states <- scanM (step timing_sequence) (jobs structure_lines)
              initial_state ;;
  Ok (map timing_index states).

(** Successive values of a trace. *)
Definition successive (trace : list Z) (c c' : Z) : Prop :=
  exists k, nth_error trace k = Some c /\ nth_error trace (S k) = Some c'.

(** [word_level_lyrics] as it is before the sort of line 185. *)
Definition unsorted_word_level_lyrics
    (int_of_str : string -> result Z) (float_of_str : string -> result float)
    (structure_lrc timing_lrc : lrc_file) : result (list timed_word) :=
  let structure_lines := parse_lrc_file int_of_str float_of_str structure_lrc in
  let timing_sequence :=
    create_word_timing_map int_of_str float_of_str timing_lrc in
  if is_nil structure_lines || is_nil timing_sequence then Ok []
  else
    st <- foldM (align_line timing_sequence) structure_lines initial_state ;;
    Ok (word_level_lyrics st).

(** The words of a line with the flag of its last word. *)
Fixpoint mark_last (line_words : list string) : list (string * bool) :=
  match line_words with
  | [] => []
  | [w] => [(w, true)]
  | w :: ws => (w, false) :: mark_last ws
  end.

(** The word and the flag an iteration records. *)
Definition job_mark (j : job) : string * bool :=
  (job_word j, job_word_index j =? len (job_line_words j) - 1).

Definition entry_mark (e : timed_word) : string * bool :=
  (word_of e, is_line_end_of e).

(** ** The parser *)

(** [lyrics_with_time] as it is before the sort of line 112, empty when
    the file cannot be read or the parse is abandoned. *)
Definition unsorted_lyrics_with_time
    (int_of_str : string -> result Z) (float_of_str : string -> result float)
    (lrc_path : lrc_file) : list timed_line :=
  match lrc_path with
  | Unreadable => []
  | Lines lines =>
      match foldM (parse_line int_of_str float_of_str) lines [] with
      | Ok lyrics_with_time => lyrics_with_time
      | Raise _ => []
      end
  end.

(** What one line appends. *)
Definition line_entries
    (int_of_str : string -> result Z) (float_of_str : string -> result float)
    (line : string) : list timed_line :=
  match parse_line int_of_str float_of_str [] line with
  | Ok entries => entries
  | Raise _ => []
  end.

(** [entry] is read from [line]: its time is [minutes * 60 + seconds] for
    the two parts of the bracket, its text is the stripped rest, which is
    not empty. *)
Definition read_from
    (int_of_str : string -> result Z) (float_of_str : string -> result float)
    (line : string) (entry : timed_line) : Prop :=
  exists i part0 part1 parts minutes seconds minutes60,
    index "]" (strip line) = Ok i /\
    split_on ":" (slice 1 i (strip line)) = part0 :: part1 :: parts /\
    int_of_str part0 = Ok minutes /\
    float_of_str part1 = Ok seconds /\
    float_of_int (minutes * 60) = Ok minutes60 /\
    fst entry = (minutes60 + seconds)%float /\
    snd entry = strip (slice_from (i + 1) (strip line)) /\
    is_empty (snd entry) = false.

Definition lines_of (lrc_path : lrc_file) : list string :=
  match lrc_path with
  | Unreadable => []
  | Lines lines => lines
  end.

(** The cursor's trace on two files. *)
Definition cursor_trace_of
    (int_of_str : string -> result Z) (float_of_str : string -> result float)
    (structure_lrc timing_lrc : lrc_file) : result (list Z) :=
  cursor_trace
    (create_word_timing_map int_of_str float_of_str timing_lrc)
    (parse_lrc_file int_of_str float_of_str structure_lrc).

(** A match that lies within the first [n] elements of [a]. *)
Definition block_within (n : nat) (m : Difflib.block) : Prop :=
  let '(i, _, k) := m in (i + k <= n)%nat.

(** ** Further vocabulary *)

(** What a line of the timing file gives the timing sequence. *)
Definition timing_entries (line : timed_line) : list timing_entry :=
  let '(timestamp, word) := line in
  if negb (is_empty (normalize_text word))
  then [(timestamp, normalize_text word, word)]
  else [].

Definition timing_time (e : timing_entry) : float := fst (fst e).
Definition timing_norm_word (e : timing_entry) : string := snd (fst e).
Definition timing_orig_word (e : timing_entry) : string := snd e.

(** A line raises an exception that [parse_lrc_file] does not catch in
    its loop. *)
Definition line_aborts
    (int_of_str : string -> result Z) (float_of_str : string -> result float)
    (line : string) : Prop :=
  exists e, parse_line int_of_str float_of_str [] line = Raise e.

(** ** Playback *)

(** The word at index [k] is due at [current_time]. *)
Definition due (word_level_lyrics : list timed_word) (current_time : float)
    (k : Z) : bool :=
  if k <? 0 then false
  else
    match nth_error word_level_lyrics (Z.to_nat k) with
    | Some entry => (timestamp_of entry <=? current_time)%float
    | None => false
    end.

(** The words as they stand on the screen: a note before the first word
    of a line, a space before the others, a new line after a word flagged
    [is_line_end]. *)
Fixpoint render (line_start : bool) (words : list timed_word)
  : list Playback.printed :=
  match words with
  | [] => []
  | (_, word, is_line_end) :: rest =>
      (if line_start then Playback.Note else Playback.Space)
      :: Playback.Text word
      :: (if is_line_end then Playback.Newline :: render true rest
          else render false rest)
  end.

(** The next word starts a line: nothing is shown yet, or the last word
    shown is flagged [is_line_end]. *)
Definition at_line_start (shown : list timed_word) : bool :=
  match rev shown with
  | [] => true
  | entry :: _ => is_line_end_of entry
  end.

(** The state of the loop after the first [word_index] words have been
    shown. *)
Definition shown_state (lyrics : list timed_word) (st : Playback.word_state)
  : Prop :=
  0 <= Playback.word_index st <= len lyrics /\
  Playback.stdout st
  = render true (firstn (Z.to_nat (Playback.word_index st)) lyrics) /\
  is_nil (Playback.current_line_words st)
  = at_line_start (firstn (Z.to_nat (Playback.word_index st)) lyrics).

(** What [play_with_lrc_file] prints for a line. *)
Definition printed_line (line : timed_line) : list Playback.printed :=
  if negb (is_empty (strip (snd line)))
  then [Playback.Note; Playback.Text (snd line); Playback.Newline]
  else [].

(** The state of the loop of [play_with_lrc_file] after the first
    [lyric_index] lines. *)
Definition shown_lines (lyrics : list timed_line) (st : Playback.line_state)
  : Prop :=
  0 <= Playback.lyric_index st <= len lyrics /\
  Playback.line_stdout st
  = flat_map printed_line
      (firstn (Z.to_nat (Playback.lyric_index st)) lyrics).

(** ** The sections of the timestamp generator *)

(** The sections as they will be returned: the finished ones, then the one
    being filled if it holds a line. *)
Definition sections_so_far (st : Timer.state) : list (list string) :=
  Timer.sections st
  ++ (if is_nil (Timer.current_section st) then []
      else [Timer.current_section st]).

(** The characters the words before a word take in a line whose words are
    one space apart. *)
Fixpoint width (line_words : list string) : nat :=
  match line_words with
  | [] => O
  | word :: rest => (String.length word + 1 + width rest)%nat
  end.

(** The place [pl] recorded for the word of index [k] is right: its
    section and line exist, and the line, its words put one space apart,
    holds the word at the position and with the length recorded. *)
Definition placed (sections : list (list string)) (words : list string)
    (k : Z) (pl : Timer.place) : Prop :=
  let '(s, l, (position, length)) := pl in
  exists section line word,
    0 <= s /\ nth_error sections (Z.to_nat s) = Some section /\
    0 <= l /\ nth_error section (Z.to_nat l) = Some line /\
    0 <= k /\ nth_error words (Z.to_nat k) = Some word /\
    0 <= position /\ length = Z.of_nat (String.length word) /\
    substring (Z.to_nat position) (Z.to_nat length)
      (String.concat " " (split line)) = word.

(** What the loop of [read_lrc_file] keeps true. *)
Definition well_placed (st : Timer.state) : Prop :=
  Timer.words st = flat_map split (List.concat (sections_so_far st)) /\
  Forall (fun section : list string => section <> []) (Timer.sections st) /\
  map fst (Timer.word_to_section st) = range 0 (len (Timer.words st)) /\
  Forall (fun kp => placed (sections_so_far st) (Timer.words st)
                      (fst kp) (snd kp))
         (Timer.word_to_section st).

(** The text between the first brackets of a line, which [read_lrc_file]
    takes for the timestamp. *)
Definition timestamp_text (line : string) : string :=
  Timer.sliceZ (Timer.find "[" line + 1) (Timer.find "]" line) line.

(** The lines [read_lrc_file] reads a timestamp from: no metadata line,
    not blank, with an opening bracket. *)
Definition lyric_line (line : string) : bool :=
  negb (existsb (fun tag => startswith tag line) Timer.metadata_prefixes)
  && (negb (is_empty (strip line)) && mem_char "[" line).

(** The section of a place. *)
Definition section_of (pl : Timer.place) : Z := fst (fst pl).

(** The sections recorded for the words never go back, and none is beyond
    the section being filled. *)
Definition ascending (st : Timer.state) : Prop :=
  map fst (Timer.word_to_section st) = range 0 (len (Timer.words st)) /\
  StronglySorted Z.le
    (map (fun kp => section_of (snd kp)) (Timer.word_to_section st)) /\
  Forall (fun kp => section_of (snd kp) <= len (Timer.sections st))
    (Timer.word_to_section st).

(* ================================================================== *)
(** * Properties *)

(** ** Characters and strings *)

Example normalize_hello :
  normalize_text "  Hello,   World!! " = "hello world".
Proof. reflexivity. Qed.

Example split_ex : split "  a bc   d " = ["a"; "bc"; "d"].
Proof. reflexivity. Qed.

Example split_on_ex : split_on ":" "00:12.5:" = ["00"; "12.5"; ""].
Proof. reflexivity. Qed.

Example ratio_hello_hallo : Prim2SF (Difflib.ratio "hello" "hallo") = Prim2SF 0.8.
Proof. vm_compute. reflexivity. Qed.
Example ratio_abcd : Difflib.ratio "abcd" "bcde" = 0.75%float.
Proof. vm_compute. reflexivity. Qed.
Example ratio_tide : Difflib.ratio "tide" "diet" = 0.25%float.
Proof. vm_compute. reflexivity. Qed.
Example float_literal_03 : Literal.float_literal "0.3" = Ok 0.3%float.
Proof. vm_compute. reflexivity. Qed.
Example float_literal_1050 : Literal.float_literal "10.50" = Ok 10.5%float.
Proof. vm_compute. reflexivity. Qed.
Example float_literal_m0 : Literal.float_literal "-0" = Ok (-0)%float.
Proof. vm_compute. reflexivity. Qed.
Example float_literal_pi :
  Literal.float_literal "3.14159265358979323846264338327950288"
  = Ok 0x1.921fb54442d18p+1%float.
Proof. vm_compute. reflexivity. Qed.
Example float_literal_tiny :
  Literal.float_literal "0.1" = Ok 0x1.999999999999ap-4%float.
Proof. vm_compute. reflexivity. Qed.

(** The scenario of the specification: both words are matched. *)
Example scenario_hello_world :
  word_level_lyrics_of
    (Lines ["[00:10.00]hello world"])
    (Lines ["[00:10.50]hello"; "[00:11.00]world"])
  = Ok [(10.5%float, "hello", false); (11%float, "world", true)].
Proof. vm_compute. reflexivity. Qed.

(** The scenario of the specification: an empty timing transcript. *)
Example scenario_empty_timing :
  word_level_lyrics_of (Lines ["[00:10.00]hello world"]) (Lines []) = Ok [].
Proof. vm_compute. reflexivity. Qed.

(** The scenario of the specification: an unmatched later word falls back
    to the previous word's timestamp plus 0.3. *)
Example scenario_fallback :
  word_level_lyrics_of
    (Lines ["[00:10.00]hello zzz"]) (Lines ["[00:10.50]hello"])
  = Ok [(10.5%float, "hello", false); ((10.5 + 0.3)%float, "zzz", true)].
Proof. vm_compute. reflexivity. Qed.

Example ratio_diet : Difflib.ratio "diet" "tide" = 0.5%float.
Proof. vm_compute. reflexivity. Qed.

Ltac each_char c :=
  destruct c as [[] [] [] [] [] [] [] []]; vm_compute; try reflexivity;
  try discriminate.

Lemma lower_char_idem c : lower_char (lower_char c) = lower_char c.
Proof. each_char c. Qed.

Lemma isword_not_space c : isword c = true -> isspace c = false.
Proof. each_char c. Qed.

Lemma isspace_lower_char c : isspace (lower_char c) = isspace c.
Proof. each_char c. Qed.

Lemma isword_lower_char c : isword (lower_char c) = isword c.
Proof. each_char c. Qed.

Lemma sall_sfilter p q s :
  sall p s = true -> sall p (sfilter q s) = true.
Proof.
  induction s as [|c s IH]; simpl; auto.
  intros H. apply andb_true_iff in H as [Hc Hs].
  destruct (q c); simpl; auto. now rewrite Hc, IH.
Qed.

Lemma sall_sfilter_self p s : sall p (sfilter p s) = true.
Proof.
  induction s as [|c s IH]; simpl; auto.
  destruct (p c) eqn:E; simpl; auto. now rewrite E.
Qed.

Lemma sfilter_fixed p s : sall p s = true -> sfilter p s = s.
Proof.
  induction s as [|c s IH]; simpl; auto.
  intros H. apply andb_true_iff in H as [Hc Hs].
  now rewrite Hc, IH.
Qed.

Lemma smap_fixed f s :
  sall (fun c => Ascii.eqb (f c) c) s = true -> smap f s = s.
Proof.
  induction s as [|c s IH]; simpl; auto.
  intros H. apply andb_true_iff in H as [Hc Hs].
  apply Ascii.eqb_eq in Hc. now rewrite Hc, IH.
Qed.

Lemma sall_lower s :
  sall (fun c => Ascii.eqb (lower_char c) c) (lower s) = true.
Proof.
  induction s as [|c s IH]; simpl; auto.
  rewrite lower_char_idem, Ascii.eqb_refl. exact IH.
Qed.

Lemma sall_and p q s :
  sall (fun c => p c && q c) s = sall p s && sall q s.
Proof.
  induction s as [|c s IH]; simpl; auto.
  rewrite IH. destruct (p c), (q c), (sall p s), (sall q s); reflexivity.
Qed.

Lemma sall_collapse_from p b s :
  p " "%char = true -> sall p s = true ->
  sall p (collapse_from b s) = true.
Proof.
  intros Hsp. revert b.
  induction s as [|c s IH]; simpl; auto.
  intros b H. apply andb_true_iff in H as [Hc Hs].
  destruct (isspace c), b; simpl; rewrite ?Hsp, ?Hc; simpl; auto.
Qed.

Lemma sall_lstrip p s : sall p s = true -> sall p (lstrip s) = true.
Proof.
  induction s as [|c s IH]; simpl; auto.
  intros H. destruct (isspace c); simpl; auto.
  apply andb_true_iff in H as [_ Hs]. auto.
Qed.

Lemma sall_rstrip p s : sall p s = true -> sall p (rstrip s) = true.
Proof.
  induction s as [|c s IH]; simpl; auto.
  intros H. apply andb_true_iff in H as [Hc Hs].
  destruct (isspace c && is_empty (rstrip s)); simpl; auto.
  now rewrite Hc, IH.
Qed.

Lemma collapsed_collapse_from b s : collapsed b (collapse_from b s) = true.
Proof.
  revert b. induction s as [|c s IH]; simpl; auto.
  intros b. destruct (isspace c) eqn:E.
  - destruct b; simpl; auto.
  - simpl. rewrite E. auto.
Qed.

Lemma collapse_from_fixed b s :
  collapsed b s = true -> collapse_from b s = s.
Proof.
  revert b. induction s as [|c s IH]; simpl; auto.
  intros b H. destruct (isspace c).
  - apply andb_true_iff in H as [H Hs].
    apply andb_true_iff in H as [Hc Hb].
    apply Ascii.eqb_eq in Hc. destruct b; try discriminate.
    now rewrite IH, Hc.
  - now rewrite IH.
Qed.

Lemma collapsed_weaken b s : collapsed b s = true -> collapsed false s = true.
Proof.
  destruct s as [|c s]; simpl; auto.
  destruct (isspace c); auto.
  intros H. apply andb_true_iff in H as [H Hs].
  apply andb_true_iff in H as [Hc Hb]. now rewrite Hc, Hs.
Qed.

Lemma collapsed_lstrip s :
  collapsed false s = true -> collapsed false (lstrip s) = true.
Proof.
  induction s as [|c s IH]; simpl; auto.
  destruct (isspace c) eqn:E; simpl.
  - intros H. apply andb_true_iff in H as [_ Hs].
    apply IH. eapply collapsed_weaken; eauto.
  - now rewrite E.
Qed.

Lemma collapsed_rstrip b s :
  collapsed b s = true -> collapsed b (rstrip s) = true.
Proof.
  revert b. induction s as [|c s IH]; simpl; auto.
  intros b H.
  destruct (isspace c) eqn:E; simpl.
  - destruct (is_empty (rstrip s)); simpl; auto.
    rewrite E. apply andb_true_iff in H as [H Hs]. rewrite H. simpl. auto.
  - rewrite E. auto.
Qed.

Lemma lstrip_rstrip_lstrip s : lstrip (rstrip (lstrip s)) = rstrip (lstrip s).
Proof.
  induction s as [|c s IH]; simpl; auto.
  destruct (isspace c) eqn:E; auto.
  simpl. rewrite E. simpl. now rewrite E.
Qed.

Lemma rstrip_idem s : rstrip (rstrip s) = rstrip s.
Proof.
  induction s as [|c s IH]; simpl; auto.
  destruct (isspace c && is_empty (rstrip s)) eqn:E; simpl; auto.
  rewrite IH, E. reflexivity.
Qed.

Lemma strip_idem s : strip (strip s) = strip s.
Proof.
  unfold strip. now rewrite lstrip_rstrip_lstrip, rstrip_idem.
Qed.

Lemma normalize_text_chars text :
  sall normal_char (normalize_text text) = true.
Proof.
  unfold normalize_text, strip, collapse_whitespace, remove_punctuation.
  apply sall_rstrip, sall_lstrip, sall_collapse_from; [reflexivity|].
  unfold normal_char. rewrite sall_and. apply andb_true_iff. split.
  - apply sall_sfilter, sall_lower.
  - apply sall_sfilter_self.
Qed.

Lemma normalize_text_collapsed text :
  collapsed false (normalize_text text) = true.
Proof.
  unfold normalize_text, strip, collapse_whitespace.
  apply collapsed_rstrip, collapsed_lstrip, collapsed_collapse_from.
Qed.

(** [normalize_text] is idempotent. *)
Lemma normalize_text_idempotent text :
  normalize_text (normalize_text text) = normalize_text text.
Proof.
  pose proof (normalize_text_chars text) as Hc.
  pose proof (normalize_text_collapsed text) as Hw.
  unfold normal_char in Hc. rewrite sall_and in Hc.
  apply andb_true_iff in Hc as [Hl Hk].
  set (n := normalize_text text) in *.
  unfold normalize_text at 1, lower, remove_punctuation, collapse_whitespace.
  rewrite (smap_fixed _ _ Hl), (sfilter_fixed _ _ Hk).
  rewrite (collapse_from_fixed _ _ Hw).
  unfold n, normalize_text. apply strip_idem.
Qed.

(** ** The depth of [get_matching_blocks]

    A match lies inside [a], so both remainders are shorter than [a]: the
    depth [len(a) + 1] given to [matching_size] is never exhausted, and any
    larger depth gives the same total. *)

Section MatchingDepth.

Import Difflib.

Variable pop : ascii -> bool.

Lemma row_bound ai b : forall shifted m,
  Forall (fun k => (k <= m)%nat) shifted ->
  Forall (fun k => (k <= S m)%nat) (row pop ai b shifted).
Proof.
  induction b as [|bj b IH]; intros shifted m H; cbn [row]; constructor.
  - destruct (Ascii.eqb ai bj && negb (pop bj)); [|lia].
    destruct H; cbn [hd]; lia.
  - apply IH. destruct H; cbn [tl]; auto.
Qed.

Lemma scan_row_within i r : forall j best,
  Forall (fun k => (k <= S i)%nat) r ->
  block_within (S i) best -> block_within (S i) (scan_row i j r best).
Proof.
  induction r as [|k r IH]; intros j best Hr Hb; cbn [scan_row]; auto.
  inversion Hr as [|? ? Hk Hr']; subst.
  destruct best as [[bi bj] bk].
  apply IH; auto.
  destruct (bk <? k)%nat; auto. unfold block_within. lia.
Qed.

Lemma block_within_le n m b :
  (n <= m)%nat -> block_within n b -> block_within m b.
Proof. destruct b as [[i j] k]. cbn. lia. Qed.

Lemma rows_within a b : forall i j2len best,
  Forall (fun k => (k <= i)%nat) j2len ->
  block_within i best ->
  block_within (i + List.length a) (rows pop a i b j2len best).
Proof.
  induction a as [|ai a IH]; intros i j2len best Hj Hb; cbn [rows].
  - cbn [List.length]. now rewrite Nat.add_0_r.
  - cbn [List.length]. rewrite Nat.add_succ_r, <- Nat.add_succ_l.
    assert (Hrow : Forall (fun k => (k <= S i)%nat) (row pop ai b (O :: j2len))).
    { apply row_bound. constructor; [lia|exact Hj]. }
    apply IH; auto.
    apply scan_row_within; auto.
    eapply block_within_le; [|exact Hb]. lia.
Qed.

Lemma extend_left_within a b n fuel : forall best,
  block_within n best -> block_within n (extend_left a b fuel best).
Proof.
  induction fuel as [|fuel IH]; intros [[i j] k] H; cbn [extend_left].
  - destruct i, j; exact H.
  - destruct i as [|i]; [exact H|]. destruct j as [|j]; [exact H|].
    destruct (same_at a b i j); [|exact H].
    apply IH. cbn in *. lia.
Qed.

Lemma same_at_length a b i j : same_at a b i j = true -> (i < List.length a)%nat.
Proof.
  unfold same_at. destruct (nth_error a i) eqn:E; [|discriminate].
  intros _. apply nth_error_Some. congruence.
Qed.

Lemma extend_right_within a b fuel : forall best,
  block_within (List.length a) best ->
  block_within (List.length a) (extend_right a b fuel best).
Proof.
  induction fuel as [|fuel IH]; intros [[i j] k] H; cbn [extend_right]; auto.
  destruct (same_at a b (i + k) (j + k)) eqn:E; [|exact H].
  apply IH. apply same_at_length in E. cbn. lia.
Qed.

Lemma find_longest_match_within a b :
  block_within (List.length a) (find_longest_match pop a b).
Proof.
  unfold find_longest_match.
  apply extend_right_within, extend_left_within.
  apply (rows_within a b O [] (O, O, O)); [constructor|cbn; lia].
Qed.

Lemma matching_size_any_depth n : forall a b d1 d2,
  (List.length a <= n)%nat -> (n < d1)%nat -> (n < d2)%nat ->
  matching_size pop d1 a b = matching_size pop d2 a b.
Proof.
  induction n as [|n IH]; intros a b d1 d2 Ha H1 H2;
    (destruct d1 as [|d1]; [lia|]); (destruct d2 as [|d2]; [lia|]);
    cbn [matching_size];
    pose proof (find_longest_match_within a b) as Hw;
    destruct (find_longest_match pop a b) as [[i j] k];
    cbn in Hw;
    destruct (Nat.eqb_spec k 0) as [|Hk]; auto.
  - lia.
  - f_equal; [f_equal|]; apply IH; try lia.
    + rewrite length_firstn. lia.
    + rewrite length_skipn. lia.
Qed.

(** The depth bound of [ratio] is enough. *)
Lemma matching_size_depth a b d :
  (List.length a < d)%nat ->
  matching_size pop d a b = matching_size pop (S (List.length a)) a b.
Proof.
  intros H. apply (matching_size_any_depth (List.length a)); lia.
Qed.

End MatchingDepth.

(** ** The order of binary64 numbers *)

Ltac cmp_cases :=
  change PosDef.Pos.compare_cont with Pos.compare_cont in *;
  repeat match goal with
  | H : context [Pos.compare_cont Eq ?a ?b] |- _ =>
      change (Pos.compare_cont Eq a b) with (Pos.compare a b) in *
  | |- context [Pos.compare_cont Eq ?a ?b] =>
      change (Pos.compare_cont Eq a b) with (Pos.compare a b) in *
  end;
  repeat match goal with
  | H : context [Z.compare ?a ?b] |- _ => destruct (Z.compare_spec a b)
  | |- context [Z.compare ?a ?b] => destruct (Z.compare_spec a b)
  | H : context [Pos.compare ?a ?b] |- _ => destruct (Pos.compare_spec a b)
  | |- context [Pos.compare ?a ?b] => destruct (Pos.compare_spec a b)
  end.

Ltac sf_cases x :=
  destruct x as [[]|[]| |[] ? ?]; simpl in *; try congruence.

Ltac sf_order :=
  cmp_cases; simpl in *; subst; try congruence; try lia;
  repeat match goal with
  | H : Some _ = Some _ |- _ => injection H as H
  end; subst; simpl in *; try congruence; try lia.

Lemma SFcompare_trans x y z c :
  SFcompare x y = Some c -> SFcompare y z = Some c -> SFcompare x z = Some c.
Proof.
  unfold SFcompare.
  sf_cases x; sf_cases y; sf_cases z; intros H1 H2; sf_order.
Qed.

Lemma SFcompare_Eq_l x y z c :
  SFcompare x y = Some Eq -> SFcompare y z = Some c -> SFcompare x z = Some c.
Proof.
  unfold SFcompare.
  sf_cases x; sf_cases y; sf_cases z; intros H1 H2; sf_order.
Qed.

Lemma SFcompare_Eq_r x y z c :
  SFcompare x y = Some c -> SFcompare y z = Some Eq -> SFcompare x z = Some c.
Proof.
  unfold SFcompare.
  sf_cases x; sf_cases y; sf_cases z; intros H1 H2; sf_order.
Qed.

Lemma SFcompare_opp x y c :
  SFcompare x y = Some c -> SFcompare y x = Some (CompOpp c).
Proof.
  unfold SFcompare.
  sf_cases x; sf_cases y; intros H1; sf_order.
Qed.

Lemma SFcompare_total x y :
  SFcompare x x <> None -> SFcompare y y <> None -> SFcompare x y <> None.
Proof.
  unfold SFcompare.
  sf_cases x; sf_cases y.
Qed.

Lemma ltb_fcompare x y : (x <? y)%float = true <-> fcompare x y = Some Lt.
Proof.
  rewrite ltb_spec. unfold SFltb, fcompare.
  destruct (SFcompare _ _) as [[]|]; split; congruence.
Qed.

Lemma leb_fcompare x y :
  (x <=? y)%float = true <-> fcompare x y = Some Lt \/ fcompare x y = Some Eq.
Proof.
  rewrite leb_spec. unfold SFleb, fcompare.
  destruct (SFcompare _ _) as [[]|]; split; intros; intuition congruence.
Qed.

Lemma eqb_fcompare x y : (x =? y)%float = true <-> fcompare x y = Some Eq.
Proof.
  rewrite eqb_spec. unfold SFeqb, fcompare.
  destruct (SFcompare _ _) as [[]|]; split; congruence.
Qed.

Lemma is_nan_fcompare x : is_nan x = false <-> fcompare x x <> None.
Proof.
  unfold is_nan. rewrite negb_false_iff, eqb_fcompare. unfold fcompare.
  split; [congruence|].
  intros H. destruct (SFcompare _ _) as [c|] eqn:E; [|congruence].
  pose proof (SFcompare_opp _ _ _ E) as E'. rewrite E in E'.
  destruct c; simpl in E'; congruence.
Qed.

Lemma ltb_leb x y : (x <? y)%float = true -> (x <=? y)%float = true.
Proof. rewrite ltb_fcompare, leb_fcompare. auto. Qed.

Lemma not_ltb_leb x y :
  is_nan x = false -> is_nan y = false ->
  (x <? y)%float = false -> (y <=? x)%float = true.
Proof.
  rewrite !is_nan_fcompare. intros Hx Hy Hlt.
  apply leb_fcompare.
  destruct (fcompare x y) as [c|] eqn:E.
  - apply SFcompare_opp in E. unfold fcompare. rewrite E.
    destruct c; simpl; auto.
    exfalso. apply not_true_iff_false in Hlt. apply Hlt.
    apply ltb_fcompare. apply SFcompare_opp in E. exact E.
  - exfalso. revert E. apply SFcompare_total; assumption.
Qed.

Lemma leb_trans x y z :
  (x <=? y)%float = true -> (y <=? z)%float = true -> (x <=? z)%float = true.
Proof.
  rewrite !leb_fcompare. unfold fcompare.
  intros [H1|H1] [H2|H2].
  - left. eapply SFcompare_trans; eauto.
  - left. eapply SFcompare_Eq_r; eauto.
  - left. eapply SFcompare_Eq_l; eauto.
  - right. eapply SFcompare_trans; eauto.
Qed.

Lemma ltb_leb_trans x y z :
  (x <? y)%float = true -> (y <=? z)%float = true -> (x <? z)%float = true.
Proof.
  rewrite !ltb_fcompare, leb_fcompare. unfold fcompare.
  intros H1 [H2|H2].
  - eapply SFcompare_trans; eauto.
  - eapply SFcompare_Eq_r; eauto.
Qed.

Lemma ltb_eqb_apart x z t :
  (x <? z)%float = true -> (x =? t)%float = true -> (z =? t)%float = false.
Proof.
  rewrite ltb_fcompare, eqb_fcompare. intros Hlt Hx.
  apply not_true_iff_false. rewrite eqb_fcompare. intros Hz.
  unfold fcompare in *.
  apply SFcompare_opp in Hz. simpl in Hz.
  pose proof (SFcompare_Eq_l _ _ _ _ Hx Hz) as H.
  congruence.
Qed.

(** ** Sorting by a float key *)

Section Sorting.

Context {A : Type} (key : A -> float).

Lemma insert_by_perm x l : Permutation (insert_by key x l) (l ++ [x]).
Proof.
  induction l as [|y l IH]; simpl; auto.
  destruct (key x <? key y)%float.
  - change (x :: y :: l) with ([x] ++ (y :: l)).
    change (y :: l ++ [x]) with ((y :: l) ++ [x]).
    apply Permutation_app_comm.
  - now constructor.
Qed.

Lemma insertion_sort_snoc l x :
  insertion_sort key (l ++ [x]) = insert_by key x (insertion_sort key l).
Proof. unfold insertion_sort. now rewrite fold_left_app. Qed.

Lemma insertion_sort_perm l : Permutation (insertion_sort key l) l.
Proof.
  induction l as [|x l IH] using rev_ind; [constructor|].
  rewrite insertion_sort_snoc. etransitivity; [apply insert_by_perm|].
  now apply Permutation_app_tail.
Qed.

Lemma insert_by_Forall (P : A -> Prop) x l :
  P x -> Forall P l -> Forall P (insert_by key x l).
Proof.
  intros Hx Hl. eapply Permutation_Forall.
  - symmetry. apply insert_by_perm.
  - apply Forall_app. auto.
Qed.

Lemma insert_by_sorted x l :
  key_number key x -> Forall (key_number key) l ->
  StronglySorted (key_le key) l ->
  StronglySorted (key_le key) (insert_by key x l).
Proof.
  intros Hx Hn Hs. induction Hs as [|y l Hs IH Hy]; simpl.
  - repeat constructor.
  - inversion Hn as [|? ? Hny Hnl]; subst.
    destruct (key x <? key y)%float eqn:E.
    + constructor; [now constructor|].
      constructor; [now apply ltb_leb|].
      eapply Forall_impl; [|exact Hy].
      intros z Hz. unfold key_le in *.
      eapply leb_trans; [apply ltb_leb; exact E|exact Hz].
    + constructor; auto.
      apply insert_by_Forall; auto.
      unfold key_le. now apply not_ltb_leb.
Qed.

Lemma insertion_sort_sorted l :
  Forall (key_number key) l -> StronglySorted (key_le key) (insertion_sort key l).
Proof.
  induction l as [|x l IH] using rev_ind; intros Hn.
  - constructor.
  - apply Forall_app in Hn as [Hl Hx]. inversion Hx; subst.
    rewrite insertion_sort_snoc. apply insert_by_sorted; auto.
    eapply Permutation_Forall; [symmetry; apply insertion_sort_perm|exact Hl].
Qed.

Lemma with_key_above t x l :
  (key x =? t)%float = true ->
  Forall (fun z => (key x <? key z)%float = true) l ->
  with_key key t l = [].
Proof.
  intros Hx Hl. induction Hl as [|z l Hz Hl IH]; simpl; auto.
  rewrite (ltb_eqb_apart _ _ _ Hz Hx). exact IH.
Qed.

Lemma insert_by_stable t x l :
  StronglySorted (key_le key) l ->
  with_key key t (insert_by key x l) = with_key key t (l ++ [x]).
Proof.
  intros Hs. induction Hs as [|y l Hs IH Hy]; auto.
  cbn [insert_by]. destruct (key x <? key y)%float eqn:E.
  - assert (Hab : (key x =? t)%float = true -> with_key key t (y :: l) = []).
    { intros Ex. apply (with_key_above t x); auto.
      constructor; auto.
      eapply Forall_impl; [|exact Hy].
      intros z Hz. eapply ltb_leb_trans; eauto. }
    unfold with_key in *. rewrite filter_app.
    cbn [filter] in *. destruct (key x =? t)%float.
    + rewrite Hab by reflexivity. reflexivity.
    + now rewrite app_nil_r.
  - unfold with_key in *. cbn [filter app].
    destruct (key y =? t)%float; now rewrite IH.
Qed.

Lemma insertion_sort_stable t l :
  Forall (key_number key) l ->
  with_key key t (insertion_sort key l) = with_key key t l.
Proof.
  induction l as [|x l IH] using rev_ind; intros Hn; auto.
  apply Forall_app in Hn as [Hl Hx].
  rewrite insertion_sort_snoc, insert_by_stable by now apply insertion_sort_sorted.
  unfold with_key. rewrite !filter_app. f_equal. now apply IH.
Qed.

Lemma leb_not_ltb x y :
  (x <=? y)%float = true -> (y <? x)%float = false.
Proof.
  rewrite leb_fcompare. intros H.
  apply not_true_iff_false. rewrite ltb_fcompare. unfold fcompare in *.
  intros Hlt. apply SFcompare_opp in Hlt. cbn in Hlt.
  destruct H; congruence.
Qed.

Lemma one_run_sorted l :
  Forall (key_number key) l -> one_run key l = true ->
  StronglySorted (key_le key) l.
Proof.
  induction l as [|x [|y l] IH]; intros Hn Hr.
  - constructor.
  - repeat constructor.
  - cbn [one_run] in Hr. apply andb_true_iff in Hr as [Hxy Hr].
    apply negb_true_iff in Hxy.
    inversion Hn as [|? ? Hx Hn']; subst.
    pose proof (IH Hn' Hr) as Hs.
    constructor; [exact Hs|].
    assert (Hle : key_le key x y).
    { inversion Hn'; subst. unfold key_le. now apply not_ltb_leb. }
    constructor; [exact Hle|].
    inversion Hs as [|? ? _ Hy]; subst.
    eapply Forall_impl; [|exact Hy].
    intros z Hz. unfold key_le in *. eapply leb_trans; eauto.
Qed.

Lemma insert_by_last x l :
  Forall (fun y => key_le key y x) l -> insert_by key x l = l ++ [x].
Proof.
  induction 1 as [|y l Hy _ IH]; cbn [insert_by app]; [reflexivity|].
  rewrite (leb_not_ltb _ _ Hy). now rewrite IH.
Qed.

Lemma StronglySorted_snoc_inv (R : A -> A -> Prop) l x :
  StronglySorted R (l ++ [x]) ->
  StronglySorted R l /\ Forall (fun y => R y x) l.
Proof.
  induction l as [|y l IH]; cbn [app]; intros H.
  - split; constructor.
  - inversion H as [|? ? Hs Hy]; subst.
    destruct (IH Hs) as (Hl & Hx).
    apply Forall_app in Hy as [Hyl Hyx]. inversion Hyx; subst.
    split; constructor; auto.
Qed.

Lemma insertion_sort_fixed l :
  StronglySorted (key_le key) l -> insertion_sort key l = l.
Proof.
  induction l as [|x l IH] using rev_ind; intros Hs; [reflexivity|].
  apply StronglySorted_snoc_inv in Hs as [Hl Hx].
  rewrite insertion_sort_snoc, IH by assumption.
  now apply insert_by_last.
Qed.

(** Without a NaN, [sorted] is the insertion sort. *)
Lemma sorted_insertion_sort l :
  Forall (key_number key) l -> sorted key l = insertion_sort key l.
Proof.
  intros Hn. unfold sorted. destruct (one_run key l) eqn:E; [|reflexivity].
  symmetry. apply insertion_sort_fixed. now apply one_run_sorted.
Qed.

Lemma sorted_perm l : Permutation (sorted key l) l.
Proof.
  unfold sorted. destruct (one_run key l); [reflexivity|].
  apply insertion_sort_perm.
Qed.

Lemma sorted_sorted l :
  Forall (key_number key) l -> StronglySorted (key_le key) (sorted key l).
Proof.
  intros Hn. rewrite sorted_insertion_sort by assumption.
  now apply insertion_sort_sorted.
Qed.

Lemma sorted_stable t l :
  Forall (key_number key) l ->
  with_key key t (sorted key l) = with_key key t l.
Proof.
  intros Hn. rewrite sorted_insertion_sort by assumption.
  now apply insertion_sort_stable.
Qed.

(** A list that is one run is returned as it stands. *)
Lemma sorted_one_run l : one_run key l = true -> sorted key l = l.
Proof. intros H. unfold sorted. now rewrite H. Qed.

(** Any two entries of a list in order compare one way or the other. *)
Lemma StronglySorted_comparable (R : A -> A -> Prop) l a b :
  StronglySorted R l -> In a l -> In b l -> a <> b -> R a b \/ R b a.
Proof.
  induction 1 as [|y l Hs IH Hy]; intros Ha Hb Hab; [destruct Ha|].
  rewrite Forall_forall in Hy.
  destruct Ha as [->|Ha], Hb as [->|Hb]; auto; congruence.
Qed.

End Sorting.

(** ** Loops and ranges *)

Lemma foldM_app {S A} (body : S -> A -> result S) l1 l2 s :
  foldM body (l1 ++ l2) s = (s' <- foldM body l1 s ;; foldM body l2 s').
Proof.
  revert s. induction l1 as [|a l1 IH]; intros s; simpl; auto.
  destruct (body s a); simpl; auto.
Qed.

Lemma foldM_map {S A B} (body : S -> B -> result S) (f : A -> B) l s :
  foldM body (map f l) s = foldM (fun s a => body s (f a)) l s.
Proof.
  revert s. induction l as [|a l IH]; intros s; simpl; auto.
  destruct (body s (f a)); simpl; auto.
Qed.

Lemma foldM_flat_map {S A B} (body : S -> B -> result S) (f : A -> list B) l s :
  foldM body (flat_map f l) s = foldM (fun s a => foldM body (f a) s) l s.
Proof.
  revert s. induction l as [|a l IH]; intros s; simpl; auto.
  rewrite foldM_app. destruct (foldM body (f a) s); simpl; auto.
Qed.

Lemma foldM_ext {S A} (f g : S -> A -> result S) l s :
  (forall s a, f s a = g s a) -> foldM f l s = foldM g l s.
Proof.
  intros H. revert s. induction l as [|a l IH]; intros s; simpl; auto.
  rewrite H. destruct (g s a); simpl; auto.
Qed.

(** A property of the state that every iteration keeps holds at the end,
    when every iteration returns. *)
Lemma foldM_invariant {S A} (body : S -> A -> result S) (P : S -> Prop) l s :
  (forall s a, In a l -> P s -> exists s', body s a = Ok s' /\ P s') ->
  P s -> exists s', foldM body l s = Ok s' /\ P s'.
Proof.
  revert s. induction l as [|a l IH]; intros s Hb Hs; simpl.
  - eauto.
  - destruct (Hb s a (or_introl eq_refl) Hs) as (s' & E & Hs').
    rewrite E. simpl. apply IH; auto.
    intros s0 a0 Hin. apply Hb. now right.
Qed.

Lemma range_nil lo hi : hi <= lo -> range lo hi = [].
Proof.
  intros H. unfold range.
  replace (Z.to_nat (hi - lo)) with O by lia. reflexivity.
Qed.

Lemma range_cons lo hi : lo < hi -> range lo hi = lo :: range (lo + 1) hi.
Proof.
  intros H. unfold range.
  replace (Z.to_nat (hi - lo)) with (S (Z.to_nat (hi - (lo + 1)))) by lia.
  cbn [seq map]. f_equal; [lia|].
  rewrite <- seq_shift, map_map. apply map_ext. intros k. lia.
Qed.

Lemma range_length lo hi : List.length (range lo hi) = Z.to_nat (hi - lo).
Proof. unfold range. now rewrite length_map, length_seq. Qed.

Lemma range_snoc lo hi : lo <= hi -> range lo (hi + 1) = range lo hi ++ [hi].
Proof.
  intros H. unfold range.
  replace (Z.to_nat (hi + 1 - lo)) with (Z.to_nat (hi - lo) + 1)%nat by lia.
  rewrite seq_app, map_app. cbn [seq map]. do 2 f_equal. lia.
Qed.

(** ** The search loop *)

Lemma getitemZ_candidate ts i :
  0 <= i < len ts ->
  exists e, getitemZ ts i = Ok e /\ candidate ts i = Some e.
Proof.
  intros H. unfold getitemZ, candidate, getitem.
  destruct (i <? 0) eqn:E; [lia|]. rewrite E.
  destruct (nth_error ts (Z.to_nat i)) as [e|] eqn:N; eauto.
  apply nth_error_None in N. unfold len in H. lia.
Qed.

Lemma similar_at_outside ts nw i : len ts <= i -> similar_at ts nw i = false.
Proof.
  intros H. unfold similar_at, candidate.
  destruct (i <? 0); auto.
  destruct (nth_error ts (Z.to_nat i)) eqn:N; auto.
  assert (Z.to_nat i < List.length ts)%nat
    by (apply nth_error_Some; congruence).
  unfold len in H. lia.
Qed.

Lemma search_range ts nw n : forall lo hi,
  0 <= lo -> Z.to_nat (hi - lo) = n ->
  (exists t nrm orig i,
      search ts nw (range lo hi) = Ok (Some (t, i)) /\
      first_similar ts nw lo hi i /\ candidate ts i = Some (t, nrm, orig))
  \/ (search ts nw (range lo hi) = Ok None /\ none_similar ts nw lo hi).
Proof.
  induction n as [|n IH]; intros lo hi Hlo Hn.
  - right. rewrite range_nil by lia. split; [reflexivity|].
    intros j Hj. lia.
  - rewrite range_cons by lia. cbn [search].
    destruct (lo <? len ts) eqn:E.
    + destruct (getitemZ_candidate ts lo) as (e & G & C); [lia|].
      rewrite G. cbn [bind]. destruct e as [[t nrm] orig].
      destruct (similar nw nrm) eqn:Sim.
      * left. exists t, nrm, orig, lo. split; [reflexivity|]. split; auto.
        split; [lia|]. split; [|intros j Hj; lia].
        unfold similar_at. now rewrite C.
      * assert (Hlo' : similar_at ts nw lo = false)
          by (unfold similar_at; now rewrite C).
        destruct (IH (lo + 1) hi) as [(t' & n' & o' & i & Hs & Hf & Hc)|[Hs Hnone]];
          try lia.
        -- left. exists t', n', o', i. split; auto. split; auto.
           destruct Hf as (Hr & Hi & Hbefore). split; [lia|]. split; auto.
           intros j Hj. destruct (Z.eq_dec j lo); [subst; auto|].
           apply Hbefore. lia.
        -- right. split; auto. intros j Hj.
           destruct (Z.eq_dec j lo); [subst; auto|]. apply Hnone. lia.
    + assert (Hlo' : similar_at ts nw lo = false)
        by (apply similar_at_outside; lia).
      destruct (IH (lo + 1) hi) as [(t' & n' & o' & i & Hs & Hf & Hc)|[Hs Hnone]];
        try lia.
      * left. exists t', n', o', i. split; auto. split; auto.
        destruct Hf as (Hr & Hi & Hbefore). split; [lia|]. split; auto.
        intros j Hj. destruct (Z.eq_dec j lo); [subst; auto|].
        apply Hbefore. lia.
      * right. split; auto. intros j Hj.
        destruct (Z.eq_dec j lo); [subst; auto|]. apply Hnone. lia.
Qed.

Lemma first_similar_unique ts nw lo hi i j :
  first_similar ts nw lo hi i -> first_similar ts nw lo hi j -> i = j.
Proof.
  intros (Hi & Si & Bi) (Hj & Sj & Bj).
  destruct (Z.lt_trichotomy i j) as [H|[H|H]]; auto.
  - rewrite Bj in Si by lia. discriminate.
  - rewrite Bi in Sj by lia. discriminate.
Qed.

Lemma first_similar_none ts nw lo hi i :
  first_similar ts nw lo hi i -> none_similar ts nw lo hi -> False.
Proof.
  intros (Hi & Si & _) Hn. rewrite Hn in Si by lia. discriminate.
Qed.

Lemma search_start_nonneg c : 0 <= search_start c.
Proof. unfold search_start. lia. Qed.

(** The search over the window of the cursor [c]. *)
Lemma search_window ts nw c :
  (exists t nrm orig i,
      search ts nw (range (search_start c) (search_end ts c)) = Ok (Some (t, i)) /\
      first_similar ts nw (search_start c) (search_end ts c) i /\
      candidate ts i = Some (t, nrm, orig))
  \/ (search ts nw (range (search_start c) (search_end ts c)) = Ok None /\
      none_similar ts nw (search_start c) (search_end ts c)).
Proof.
  eapply search_range; [apply search_start_nonneg|reflexivity].
Qed.

(** ** One word *)

Lemma getitemZ_last {A} (l : list A) (x : A) : getitemZ (l ++ [x]) (-1) = Ok x.
Proof.
  unfold getitemZ, getitem, len. rewrite length_app. cbn [List.length].
  replace (-1 <? 0) with true by reflexivity.
  destruct (Z.ltb_spec (-1 + Z.of_nat (List.length l + 1)) 0); [lia|].
  replace (Z.to_nat (-1 + Z.of_nat (List.length l + 1))) with (List.length l)
    by lia.
  now rewrite nth_error_app2, Nat.sub_diag by lia.
Qed.

Lemma fallback_timing_first line_timestamp wl :
  fallback_timing line_timestamp 0 wl = Ok line_timestamp.
Proof. reflexivity. Qed.

Lemma fallback_timing_later line_timestamp word_index wl prev :
  word_index <> 0 ->
  fallback_timing line_timestamp word_index (wl ++ [prev])
  = Ok (timestamp_of prev + 0.3)%float.
Proof.
  intros H. unfold fallback_timing.
  destruct (Z.eqb_spec word_index 0); [lia|].
  assert (N : is_nil (wl ++ [prev]) = false) by (now destruct wl).
  rewrite N, getitemZ_last. reflexivity.
Qed.

Lemma fallback_timing_total line_timestamp word_index wl :
  exists t, fallback_timing line_timestamp word_index wl = Ok t.
Proof.
  destruct (Z.eq_dec word_index 0) as [->|H]; [eauto using fallback_timing_first|].
  destruct wl as [|e wl] using rev_ind.
  - unfold fallback_timing. destruct (word_index =? 0); cbn; eauto.
  - rewrite fallback_timing_later by auto. eauto.
Qed.

(** What one iteration does, in both cases of the search. *)
Lemma align_word_cases ts lt lws st wi w :
  let c := timing_index st in
  let nw := normalize_text w in
  let flag := wi =? len lws - 1 in
  (exists t nrm orig i,
      first_similar ts nw (search_start c) (search_end ts c) i /\
      candidate ts i = Some (t, nrm, orig) /\
      align_word ts lt lws st (wi, w)
      = Ok (mkState (i + 1) (word_level_lyrics st ++ [(t, w, flag)])))
  \/
  (exists t,
      none_similar ts nw (search_start c) (search_end ts c) /\
      fallback_timing lt wi (word_level_lyrics st) = Ok t /\
      align_word ts lt lws st (wi, w)
      = Ok (mkState c (word_level_lyrics st ++ [(t, w, flag)]))).
Proof.
  intros c nw flag. unfold align_word. fold c nw flag.
  destruct (search_window ts nw c)
    as [(t & nrm & orig & i & Hs & Hf & Hc)|[Hs Hn]]; rewrite Hs; cbn [bind].
  - left. exists t, nrm, orig, i. auto.
  - right. destruct (fallback_timing_total lt wi (word_level_lyrics st)) as [t Ht].
    exists t. rewrite Ht. cbn [bind]. auto.
Qed.

Lemma align_word_total ts lt lws st iw :
  exists st', align_word ts lt lws st iw = Ok st'.
Proof.
  destruct iw as [wi w].
  destruct (align_word_cases ts lt lws st wi w)
    as [(t & nrm & orig & i & _ & _ & E)|(t & _ & _ & E)]; eauto.
Qed.

Lemma first_similar_bounds ts nw c i :
  first_similar ts nw (search_start c) (search_end ts c) i ->
  0 <= i /\ c - 2 <= i /\ i < len ts /\ i < c + 50.
Proof.
  unfold first_similar, search_start, search_end. lia.
Qed.

(** The effect of one iteration on the cursor and on the list. *)
Lemma align_word_effect ts lt lws st wi w st' :
  align_word ts lt lws st (wi, w) = Ok st' ->
  (timing_index st' = timing_index st \/
   (timing_index st - 1 <= timing_index st' /\
    0 < timing_index st' <= len ts)) /\
  exists t, word_level_lyrics st'
            = word_level_lyrics st ++ [(t, w, wi =? len lws - 1)].
Proof.
  intros E.
  destruct (align_word_cases ts lt lws st wi w)
    as [(t & nrm & orig & i & Hf & _ & E')|(t & _ & _ & E')];
    rewrite E' in E; injection E as <-; cbn [timing_index word_level_lyrics].
  - apply first_similar_bounds in Hf. split; [right; lia|eauto].
  - split; [now left|eauto].
Qed.

(** ** The run, word by word *)

Lemma step_total ts st j : exists st', step ts st j = Ok st'.
Proof. apply align_word_total. Qed.

Lemma align_line_jobs ts st line :
  align_line ts st line = foldM (step ts) (line_jobs line) st.
Proof.
  destruct line as [lt text]. unfold align_line, line_jobs.
  destruct (is_empty (strip text)); [reflexivity|].
  rewrite foldM_map. apply foldM_ext. reflexivity.
Qed.

(** The two nested loops are one loop over [jobs]. *)
Lemma align_lines_jobs ts lines st :
  foldM (align_line ts) lines st = foldM (step ts) (jobs lines) st.
Proof.
  unfold jobs. rewrite foldM_flat_map. apply foldM_ext.
  intros. apply align_line_jobs.
Qed.

Lemma foldM_step_total ts l st : exists st', foldM (step ts) l st = Ok st'.
Proof.
  destruct (foldM_invariant (step ts) (fun _ => True) l st) as (st' & E & _);
    eauto.
  intros s a _ _. destruct (step_total ts s a) as [s' E]. eauto.
Qed.

Lemma scanM_chain {St A} (body : St -> A -> result St)
    (P : St -> Prop) (R : St -> St -> Prop) l : forall s,
  (forall s a, P s -> exists s', body s a = Ok s' /\ P s' /\ R s s') ->
  P s ->
  exists states,
    scanM body l s = Ok states /\
    hd_error states = Some s /\
    Forall P states /\
    forall k x y,
      nth_error states k = Some x -> nth_error states (S k) = Some y -> R x y.
Proof.
  induction l as [|a l IH]; intros s Hb Hs; cbn [scanM].
  - exists [s]. repeat split; auto.
    intros k x y _ H. destruct k; discriminate.
  - destruct (Hb s a Hs) as (s' & E & Hs' & HR). rewrite E. cbn [bind].
    destruct (IH s' Hb Hs') as (states & Es & Hh & HP & Hn).
    rewrite Es. cbn [bind]. exists (s :: states). repeat split; auto.
    intros [|k] x y Hx Hy.
    + cbn in Hx, Hy. injection Hx as <-.
      destruct states as [|s0 states]; [discriminate|].
      cbn in Hh, Hy. injection Hh as ->. injection Hy as <-. exact HR.
    + cbn in Hx. eapply Hn; eauto.
Qed.

(** The last state of the loop is the one [foldM] returns. *)
Lemma scanM_last {St A} (body : St -> A -> result St) l : forall s states,
  scanM body l s = Ok states ->
  exists earlier final,
    states = earlier ++ [final] /\ foldM body l s = Ok final.
Proof.
  induction l as [|a l IH]; intros s states E; cbn [scanM foldM] in *.
  - injection E as <-. now exists [], s.
  - destruct (body s a) as [s'|]; [|discriminate]. cbn [bind] in *.
    destruct (scanM body l s') as [rest|] eqn:R; [|discriminate].
    cbn [bind] in E. injection E as <-.
    destruct (IH _ _ R) as (earlier & final & -> & F).
    now exists (s :: earlier), final.
Qed.

(** The states traced are those of the loops of
    [create_word_level_lyrics]: the last one is the state the loop over the
    structure lines ends in. *)
Lemma traced_states_of_the_loops ts lines :
  exists earlier final,
    scanM (step ts) (jobs lines) initial_state = Ok (earlier ++ [final]) /\
    foldM (align_line ts) lines initial_state = Ok final.
Proof.
  destruct (scanM_chain (step ts) (fun _ => True) (fun _ _ => True)
              (jobs lines) initial_state) as (states & E & _); auto.
  { intros s a _. destruct (step_total ts s a) as [s' H]. eauto. }
  destruct (scanM_last _ _ _ _ E) as (earlier & final & -> & F).
  exists earlier, final. split; auto. now rewrite align_lines_jobs.
Qed.

(** The cursor after one more word. *)
Lemma step_cursor ts st j :
  0 <= timing_index st <= len ts ->
  exists st', step ts st j = Ok st' /\
    0 <= timing_index st' <= len ts /\
    (timing_index st' = timing_index st \/
     (timing_index st - 1 <= timing_index st' /\ 0 < timing_index st')).
Proof.
  intros Hc. destruct (step_total ts st j) as [st' E]. exists st'.
  split; auto.
  destruct j as [[lt lws] [wi w]]. unfold step in E. cbn in E.
  apply align_word_effect in E as [[H|H] _]; lia.
Qed.

Lemma cursor_trace_chain ts lines :
  exists trace,
    cursor_trace ts lines = Ok trace /\
    hd_error trace = Some 0 /\
    Forall (fun c => 0 <= c <= len ts) trace /\
    forall c c', successive trace c c' -> c' = c \/ (c - 1 <= c' /\ 0 < c').
Proof.
  destruct (scanM_chain (step ts)
              (fun st => 0 <= timing_index st <= len ts)
              (fun st st' => timing_index st' = timing_index st \/
                 (timing_index st - 1 <= timing_index st' /\
                  0 < timing_index st'))
              (jobs lines) initial_state)
    as (states & E & Hh & HP & Hn).
  - intros s a Hs. destruct (step_cursor ts s a Hs) as (s' & ? & ? & ?). eauto.
  - cbn. unfold len. lia.
  - unfold cursor_trace. rewrite E. cbn [bind].
    exists (map timing_index states). repeat split.
    + destruct states; [discriminate|]. cbn in *. now injection Hh as ->.
    + apply Forall_map. exact HP.
    + intros c c' (k & Hk & Hk').
      rewrite nth_error_map in Hk, Hk'.
      destruct (nth_error states k) as [x|] eqn:Ex; [|discriminate].
      destruct (nth_error states (S k)) as [y|] eqn:Ey; [|discriminate].
      cbn in Hk, Hk'. injection Hk as <-. injection Hk' as <-.
      eapply Hn; eauto.
Qed.

(** ** Words of a line *)

Lemma rstrip_empty_sall s : is_empty (rstrip s) = true -> sall isspace s = true.
Proof.
  induction s as [|c s IH]; cbn [rstrip sall]; auto.
  destruct (isspace c) eqn:E; cbn [andb].
  - destruct (is_empty (rstrip s)) eqn:R; auto; discriminate.
  - discriminate.
Qed.

Lemma lstrip_sall s : sall isspace (lstrip s) = true -> sall isspace s = true.
Proof.
  induction s as [|c s IH]; cbn [lstrip sall]; auto.
  destruct (isspace c) eqn:E; cbn [andb sall]; auto.
  now rewrite E.
Qed.

Lemma split_sall s : sall isspace s = true -> split s = [].
Proof.
  induction s as [|c s IH]; cbn [split sall]; auto.
  destruct (isspace c); cbn [andb]; auto. discriminate.
Qed.

Lemma split_nil s : split s = [] -> sall isspace s = true.
Proof.
  induction s as [|c s IH]; cbn [split sall]; auto.
  destruct (isspace c); cbn [andb]; auto.
  destruct s as [|c' s']; [discriminate|].
  destruct (isspace c'); [discriminate|].
  destruct (split (String c' s')); discriminate.
Qed.

Lemma sall_isspace_lstrip s : sall isspace s = true -> lstrip s = EmptyString.
Proof.
  induction s as [|c s IH]; cbn [lstrip sall]; auto.
  destruct (isspace c); cbn [andb]; auto. discriminate.
Qed.

Lemma strip_empty_split s : is_empty (strip s) = true -> split s = [].
Proof.
  intros H. apply split_sall, lstrip_sall, rstrip_empty_sall. exact H.
Qed.

Lemma split_strip_nonempty s : is_empty (strip s) = false -> split s <> [].
Proof.
  intros H E. apply split_nil, sall_isspace_lstrip in E.
  unfold strip in H. rewrite E in H. discriminate.
Qed.

Lemma mark_last_words ws : map fst (mark_last ws) = ws.
Proof.
  induction ws as [|w ws IH]; auto.
  destruct ws as [|w' ws]; auto.
  change (mark_last (w :: w' :: ws)) with ((w, false) :: mark_last (w' :: ws)).
  cbn [map fst]. now rewrite IH.
Qed.

Lemma mark_last_flags ws :
  ws <> [] ->
  map snd (mark_last ws) = repeat false (List.length ws - 1) ++ [true].
Proof.
  induction ws as [|w ws IH]; [congruence|]. intros _.
  destruct ws as [|w' ws]; auto.
  change (mark_last (w :: w' :: ws)) with ((w, false) :: mark_last (w' :: ws)).
  cbn [map snd]. rewrite IH by discriminate.
  cbn [List.length]. rewrite !Nat.sub_succ, Nat.sub_0_r. reflexivity.
Qed.

Lemma mark_last_count ws :
  ws <> [] ->
  List.length (filter (fun wf => snd wf) (mark_last ws)) = 1%nat.
Proof.
  induction ws as [|w ws IH]; [congruence|]. intros _.
  destruct ws as [|w' ws]; auto.
  change (mark_last (w :: w' :: ws)) with ((w, false) :: mark_last (w' :: ws)).
  cbn [filter snd]. apply IH. discriminate.
Qed.

Lemma combine_range_index {A} (ws : list A) : forall base l1 x l2,
  combine (range base (base + len ws)) ws = l1 ++ x :: l2 ->
  fst x = base + len l1.
Proof.
  induction ws as [|w ws IH]; intros base l1 x l2 E.
  - destruct (range base (base + len [])); destruct l1; discriminate.
  - rewrite range_cons in E by (unfold len; cbn [List.length]; lia).
    cbn [combine] in E. destruct l1 as [|y l1].
    + cbn in E. injection E as <- _. cbn. unfold len. cbn. lia.
    + cbn [app] in E. injection E as _ E.
      replace (base + len (w :: ws)) with (base + 1 + len ws) in E
        by (unfold len; cbn [List.length]; lia).
      apply IH in E. rewrite E. unfold len. cbn [List.length]. lia.
Qed.

Lemma enumerate_index {A} (ws : list A) l1 x l2 :
  enumerate ws = l1 ++ x :: l2 -> fst x = len l1.
Proof.
  unfold enumerate. intros E.
  change (len ws) with (0 + len ws) in E.
  apply combine_range_index in E. lia.
Qed.

Lemma enumerate_mark_last ws :
  map (fun iw : Z * string => (snd iw, fst iw =? len ws - 1)) (enumerate ws)
  = mark_last ws.
Proof.
  unfold enumerate.
  assert (G : forall base n, n = base + len ws ->
            map (fun iw : Z * string => (snd iw, fst iw =? n - 1))
                (combine (range base n) ws) = mark_last ws).
  { induction ws as [|w ws IH]; intros base n Hn.
    - destruct (range base n); reflexivity.
    - rewrite range_cons by (unfold len in Hn; cbn [List.length] in Hn; lia).
      cbn [combine map fst snd].
      destruct ws as [|w' ws].
      + unfold len in Hn. cbn in Hn.
        replace (base =? n - 1) with true by (symmetry; apply Z.eqb_eq; lia).
        destruct (range (base + 1) n); reflexivity.
      + replace (base =? n - 1) with false
          by (symmetry; apply Z.eqb_neq; unfold len in Hn;
              cbn [List.length] in Hn; lia).
        change (mark_last (w :: w' :: ws))
          with ((w, false) :: mark_last (w' :: ws)).
        f_equal. apply IH. unfold len in *. cbn [List.length] in *. lia. }
  apply G. lia.
Qed.

Lemma line_jobs_marks line :
  map job_mark (line_jobs line) = mark_last (split (snd line)).
Proof.
  destruct line as [lt text]. unfold line_jobs. cbn [snd].
  destruct (is_empty (strip text)) eqn:E.
  - now rewrite strip_empty_split.
  - rewrite map_map. unfold job_mark. cbn. apply enumerate_mark_last.
Qed.

Lemma jobs_marks lines :
  map job_mark (jobs lines)
  = flat_map (fun line => mark_last (split (snd line))) lines.
Proof.
  unfold jobs. induction lines as [|line lines IH]; auto.
  cbn [flat_map]. now rewrite map_app, line_jobs_marks, IH.
Qed.

Lemma step_marks ts st j st' :
  step ts st j = Ok st' ->
  exists t, word_level_lyrics st'
            = word_level_lyrics st ++ [(t, job_word j, snd (job_mark j))].
Proof.
  destruct j as [[lt lws] [wi w]]. unfold step. cbn.
  intros E. apply align_word_effect in E as [_ H]. exact H.
Qed.

Lemma run_marks ts l : forall st st',
  foldM (step ts) l st = Ok st' ->
  map entry_mark (word_level_lyrics st')
  = map entry_mark (word_level_lyrics st) ++ map job_mark l.
Proof.
  induction l as [|j l IH]; intros st st' E; cbn [foldM] in E.
  - injection E as <-. now rewrite app_nil_r.
  - destruct (step ts st j) as [st1|] eqn:E1; [|discriminate].
    cbn [bind] in E. apply IH in E. rewrite E.
    apply step_marks in E1 as [t E1]. rewrite E1, map_app.
    cbn [map]. rewrite <- app_assoc. reflexivity.
Qed.

(** ** The parser *)

Section Parser.

Variable int_of_str : string -> result Z.
Variable float_of_str : string -> result float.

Lemma getitemZ_0 {A} (l : list A) x :
  getitemZ l 0 = Ok x -> exists l', l = x :: l'.
Proof.
  unfold getitemZ, getitem. cbn. destruct l; [discriminate|].
  intros E. injection E as ->. eauto.
Qed.

Lemma getitemZ_1 {A} (l : list A) x :
  getitemZ l 1 = Ok x -> exists y l', l = y :: x :: l'.
Proof.
  unfold getitemZ, getitem. cbn. destruct l as [|y [|z l]]; try discriminate.
  intros E. injection E as ->. eauto.
Qed.

Lemma parse_timestamp_inv line entry :
  parse_timestamp int_of_str float_of_str line = Ok (Some entry) ->
  exists i part0 part1 parts minutes seconds minutes60,
    index "]" line = Ok i /\
    split_on ":" (slice 1 i line) = part0 :: part1 :: parts /\
    int_of_str part0 = Ok minutes /\
    float_of_str part1 = Ok seconds /\
    float_of_int (minutes * 60) = Ok minutes60 /\
    fst entry = (minutes60 + seconds)%float /\
    snd entry = strip (slice_from (i + 1) line) /\
    is_empty (snd entry) = false.
Proof.
  unfold parse_timestamp.
  destruct (index "]" line) as [i|] eqn:Ei; [|discriminate]. cbn [bind].
  destruct (mem_char ":" (slice 1 i line)); [|discriminate].
  destruct (getitemZ _ 0) as [part0|] eqn:E0; [|discriminate]. cbn [bind].
  destruct (int_of_str part0) as [minutes|] eqn:Em; [|discriminate]. cbn [bind].
  destruct (getitemZ _ 1) as [part1|] eqn:E1; [|discriminate]. cbn [bind].
  destruct (float_of_str part1) as [seconds|] eqn:Es; [|discriminate]. cbn [bind].
  destruct (float_of_int (minutes * 60)) as [minutes60|] eqn:E60; [|discriminate].
  cbn [bind].
  destruct (is_empty (strip (slice_from (i + 1) line))) eqn:Et; [discriminate|].
  cbn [negb]. intros E. injection E as <-.
  apply getitemZ_1 in E1 as (y & parts & E1).
  rewrite E1 in E0. apply getitemZ_0 in E0 as (l' & E0). injection E0 as -> _.
  exists i, part0, part1, parts, minutes, seconds, minutes60.
  cbn [fst snd]. repeat split; auto.
Qed.

(** A line appends at most one entry, to whatever was read before. *)
Lemma parse_line_acc acc line :
  parse_line int_of_str float_of_str acc line
  = match parse_line int_of_str float_of_str [] line with
    | Ok entries => Ok (acc ++ entries)
    | Raise e => Raise e
    end.
Proof.
  unfold parse_line.
  destruct (is_empty (strip line)); [now rewrite app_nil_r|].
  destruct (_ && existsb _ _); [now rewrite app_nil_r|].
  destruct (_ && mem_char _ _); [|now rewrite app_nil_r].
  destruct (parse_timestamp int_of_str float_of_str (strip line))
    as [[entry|]|[]];
    cbn [app]; now rewrite ?app_nil_r.
Qed.

Lemma foldM_parse_line lines : forall acc raw,
  foldM (parse_line int_of_str float_of_str) lines acc = Ok raw ->
  raw = acc ++ flat_map (line_entries int_of_str float_of_str) lines.
Proof.
  induction lines as [|line lines IH]; intros acc raw E; cbn [foldM] in E.
  - injection E as <-. cbn. now rewrite app_nil_r.
  - rewrite parse_line_acc in E.
    change (flat_map (line_entries int_of_str float_of_str) (line :: lines))
      with (line_entries int_of_str float_of_str line
            ++ flat_map (line_entries int_of_str float_of_str) lines).
    unfold line_entries at 1.
    destruct (parse_line int_of_str float_of_str [] line) as [entries|];
      [|discriminate].
    cbn [bind] in E. apply IH in E. now rewrite E, app_assoc.
Qed.

Lemma line_entries_read line entry :
  In entry (line_entries int_of_str float_of_str line) ->
  read_from int_of_str float_of_str line entry.
Proof.
  unfold line_entries, parse_line.
  destruct (is_empty (strip line)); [contradiction|].
  destruct (_ && existsb _ _); [contradiction|].
  destruct (_ && mem_char _ _); [|contradiction].
  destruct (parse_timestamp int_of_str float_of_str (strip line))
    as [[e|]|[]] eqn:E;
    try contradiction.
  cbn [app]. intros [<-|[]].
  apply parse_timestamp_inv in E. exact E.
Qed.

Lemma unsorted_lyrics_in_order lrc_path :
  unsorted_lyrics_with_time int_of_str float_of_str lrc_path = []
  \/ unsorted_lyrics_with_time int_of_str float_of_str lrc_path
     = flat_map (line_entries int_of_str float_of_str) (lines_of lrc_path).
Proof.
  destruct lrc_path as [|lines]; [now left|]. cbn.
  destruct (foldM (parse_line int_of_str float_of_str) lines [])
    as [raw|] eqn:E; [|now left].
  right. now apply foldM_parse_line in E.
Qed.

Lemma unsorted_lyrics_read lrc_path entry :
  In entry (unsorted_lyrics_with_time int_of_str float_of_str lrc_path) ->
  exists line,
    In line (lines_of lrc_path) /\
    read_from int_of_str float_of_str line entry.
Proof.
  destruct (unsorted_lyrics_in_order lrc_path) as [E|E]; rewrite E.
  - contradiction.
  - intros H. apply in_flat_map in H as (line & Hl & He).
    exists line. split; auto. now apply line_entries_read.
Qed.

Lemma parse_lrc_file_sorted lrc_path :
  parse_lrc_file int_of_str float_of_str lrc_path
  = sorted fst (unsorted_lyrics_with_time int_of_str float_of_str lrc_path).
Proof.
  destruct lrc_path as [|lines]; [reflexivity|]. cbn.
  destruct (foldM (parse_line int_of_str float_of_str) lines []); reflexivity.
Qed.

Lemma parse_lrc_file_read lrc_path entry :
  In entry (parse_lrc_file int_of_str float_of_str lrc_path) ->
  exists line,
    In line (lines_of lrc_path) /\
    read_from int_of_str float_of_str line entry.
Proof.
  rewrite parse_lrc_file_sorted. intros H.
  apply unsorted_lyrics_read.
  eapply Permutation_in; [apply sorted_perm|exact H].
Qed.

Lemma read_from_nonblank line entry :
  read_from int_of_str float_of_str line entry -> is_empty (strip (snd entry)) = false.
Proof.
  intros (i & p0 & p1 & ps & m & sec & m60 & _ & _ & _ & _ & _ & _ & Ht & Hn).
  rewrite Ht in *. now rewrite strip_idem.
Qed.

End Parser.

(** ** The aligner *)

Section Aligner.

Variable int_of_str : string -> result Z.
Variable float_of_str : string -> result float.

Lemma create_word_level_lyrics_unsorted structure_lrc timing_lrc :
  create_word_level_lyrics int_of_str float_of_str structure_lrc timing_lrc
  = (raw <- unsorted_word_level_lyrics int_of_str float_of_str
              structure_lrc timing_lrc ;;
     Ok (sorted timestamp_of raw)).
Proof.
  unfold create_word_level_lyrics, unsorted_word_level_lyrics.
  destruct (is_nil _ || is_nil _); [reflexivity|].
  destruct (foldM _ _ _); reflexivity.
Qed.

(** The loops of [create_word_level_lyrics] as one loop over the words. *)
Lemma unsorted_word_level_lyrics_jobs structure_lrc timing_lrc :
  let structure_lines := parse_lrc_file int_of_str float_of_str structure_lrc in
  let timing_sequence :=
    create_word_timing_map int_of_str float_of_str timing_lrc in
  unsorted_word_level_lyrics int_of_str float_of_str structure_lrc timing_lrc
  = if is_nil structure_lines || is_nil timing_sequence then Ok []
    else st <- foldM (step timing_sequence) (jobs structure_lines)
                 initial_state ;;
         Ok (word_level_lyrics st).
Proof.
  cbv zeta. unfold unsorted_word_level_lyrics.
  now rewrite align_lines_jobs.
Qed.

Lemma unsorted_word_level_lyrics_total structure_lrc timing_lrc :
  exists raw,
    unsorted_word_level_lyrics int_of_str float_of_str structure_lrc timing_lrc
    = Ok raw.
Proof.
  rewrite unsorted_word_level_lyrics_jobs. cbv zeta.
  destruct (is_nil _ || is_nil _); [eauto|].
  match goal with
  | |- context [foldM (step ?ts) ?l ?s] =>
      destruct (foldM_step_total ts l s) as [st E]; rewrite E
  end.
  cbn [bind]. eauto.
Qed.

Lemma unsorted_word_level_lyrics_marks structure_lrc timing_lrc raw :
  unsorted_word_level_lyrics int_of_str float_of_str structure_lrc timing_lrc
  = Ok raw ->
  raw = [] \/
  map entry_mark raw
  = flat_map (fun line => mark_last (split (snd line)))
      (parse_lrc_file int_of_str float_of_str structure_lrc).
Proof.
  rewrite unsorted_word_level_lyrics_jobs. cbv zeta.
  destruct (is_nil _ || is_nil _).
  - intros E. injection E as <-. now left.
  - match goal with
    | |- context [foldM (step ?ts) ?l ?s] =>
        destruct (foldM (step ts) l s) as [st|] eqn:E; [|discriminate]
    end.
    cbn [bind]. intros R. injection R as <-. right.
    apply run_marks in E. rewrite E. cbn. apply jobs_marks.
Qed.

Lemma unsorted_word_level_lyrics_marks_timed structure_lrc timing_lrc raw :
  create_word_timing_map int_of_str float_of_str timing_lrc <> [] ->
  unsorted_word_level_lyrics int_of_str float_of_str structure_lrc timing_lrc
  = Ok raw ->
  map entry_mark raw
  = flat_map (fun line => mark_last (split (snd line)))
      (parse_lrc_file int_of_str float_of_str structure_lrc).
Proof.
  intros Hts E.
  destruct (unsorted_word_level_lyrics_marks _ _ _ E) as [->|H]; auto.
  rewrite unsorted_word_level_lyrics_jobs in E. cbv zeta in E.
  destruct (create_word_timing_map _ _ timing_lrc) as [|e ts]; [congruence|].
  destruct (parse_lrc_file _ _ structure_lrc) as [|line lines] eqn:L; auto.
  cbn [is_nil orb] in E.
  match type of E with
  | context [foldM (step ?ts) ?l ?s] =>
      destruct (foldM (step ts) l s) as [st|] eqn:R; [|discriminate]
  end.
  cbn [bind] in E. apply run_marks in R.
  cbn [initial_state word_level_lyrics map app] in R.
  rewrite jobs_marks in R. injection E as E. rewrite E in R. exact R.
Qed.

Lemma parsed_lines_have_words lrc_path :
  Forall (fun line : timed_line => split (snd line) <> [])
         (parse_lrc_file int_of_str float_of_str lrc_path).
Proof.
  apply Forall_forall. intros entry H.
  apply parse_lrc_file_read in H as (line & _ & H).
  apply split_strip_nonempty. eapply read_from_nonblank; eauto.
Qed.

End Aligner.

(** ** The word before a word *)

Lemma map_eq_split {A B} (f : A -> B) l pre y post :
  map f l = pre ++ y :: post ->
  exists l1 x l2,
    l = l1 ++ x :: l2 /\ pre = map f l1 /\ y = f x /\ post = map f l2.
Proof.
  intros E. apply map_eq_app in E as (l1 & l2' & -> & <- & E).
  apply map_eq_cons in E as (x & l2 & -> & <- & <-).
  exists l1, x, l2. auto.
Qed.

Lemma line_jobs_position line pre j post :
  line_jobs line = pre ++ j :: post ->
  job_word_index j = len pre /\
  forall pre' jp, pre = pre' ++ [jp] ->
    job_line_timestamp jp = job_line_timestamp j /\
    job_line_words jp = job_line_words j /\
    job_word_index jp = job_word_index j - 1.
Proof.
  destruct line as [lt text]. unfold line_jobs.
  destruct (is_empty (strip text)); [destruct pre; discriminate|].
  intros E. apply map_eq_split in E as (l1 & x & l2 & E & -> & -> & _).
  pose proof (enumerate_index _ _ _ _ E) as Hx.
  unfold job_word_index at 1. cbn [snd fst].
  split; [unfold len in *; now rewrite length_map|].
  intros pre' jp Hp.
  apply map_eq_app in Hp as (l1' & l1'' & -> & <- & Hp).
  destruct l1'' as [|x' [|? ?]]; try discriminate.
  cbn in Hp. injection Hp as <-.
  rewrite <- app_assoc in E. cbn [app] in E.
  apply enumerate_index in E.
  unfold job_line_timestamp, job_line_words, job_word_index. cbn [fst snd].
  repeat split. rewrite Hx, E. unfold len. rewrite length_app. cbn. lia.
Qed.

Lemma jobs_previous lines : forall pre j post,
  jobs lines = pre ++ j :: post ->
  job_word_index j <> 0 ->
  exists pre' jp,
    pre = pre' ++ [jp] /\
    job_line_timestamp jp = job_line_timestamp j /\
    job_line_words jp = job_line_words j /\
    job_word_index jp = job_word_index j - 1.
Proof.
  induction lines as [|line lines IH]; intros pre j post E Hj.
  - destruct pre; discriminate.
  - unfold jobs in E. cbn [flat_map] in E. fold (jobs lines) in E.
    apply app_eq_app in E as (l & [[E1 E2]|[E1 E2]]).
    + destruct l as [|j' l].
      * cbn in E2. rewrite app_nil_r in E1.
        destruct (IH [] j post (eq_sym E2) Hj) as (pre' & jp & Hp & _).
        destruct pre'; discriminate.
      * cbn in E2. injection E2 as <- E2.
        destruct (line_jobs_position _ _ _ _ E1) as [Hi Hprev].
        destruct (exists_last (l:=pre)) as (pre' & jp & ->).
        { intros ->. apply Hj. rewrite Hi. reflexivity. }
        exists pre', jp. split; auto. now apply (Hprev pre' jp).
    + destruct (IH l j post E2 Hj) as (pre' & jp & -> & H).
      exists (line_jobs line ++ pre'), jp. split; auto.
      now rewrite E1, app_assoc.
Qed.

Lemma run_last_entry ts pre' jp st :
  foldM (step ts) (pre' ++ [jp]) initial_state = Ok st ->
  exists out prev,
    word_level_lyrics st = out ++ [prev] /\ word_of prev = job_word jp.
Proof.
  intros E. apply run_marks in E. cbn [initial_state word_level_lyrics map app] in E.
  rewrite map_app in E. cbn [map] in E.
  destruct (word_level_lyrics st) as [|e l] using rev_ind.
  - destruct (map job_mark pre'); discriminate.
  - clear IHl. rewrite map_app in E. cbn [map] in E.
    apply app_inj_tail in E as [_ E].
    exists l, e. split; auto.
    unfold entry_mark, job_mark in E. now injection E.
Qed.

(** ** Counting the line ends *)

Lemma Permutation_filter_length {A} (f : A -> bool) l l' :
  Permutation l l' ->
  List.length (filter f l) = List.length (filter f l').
Proof.
  intros H. induction H; cbn [filter]; auto.
  - destruct (f x); cbn; auto.
  - destruct (f x), (f y); cbn; auto.
  - congruence.
Qed.

Lemma filter_line_end_marks raw :
  List.length (filter is_line_end_of raw)
  = List.length (filter (fun wf : string * bool => snd wf) (map entry_mark raw)).
Proof.
  induction raw as [|e raw IH]; cbn [filter map]; auto.
  unfold entry_mark at 1. cbn [snd].
  destruct (is_line_end_of e); cbn [List.length]; auto.
Qed.

Lemma line_end_count (lines : list timed_line) :
  Forall (fun line : timed_line => split (snd line) <> []) lines ->
  List.length
    (filter (fun wf : string * bool => snd wf)
       (flat_map (fun line => mark_last (split (snd line))) lines))
  = List.length lines.
Proof.
  induction 1 as [|line lines Hl _ IH]; cbn [flat_map]; auto.
  rewrite filter_app, length_app, IH, mark_last_count by assumption.
  reflexivity.
Qed.

Lemma flat_map_mark_last_words (lines : list timed_line) :
  map fst (flat_map (fun line => mark_last (split (snd line))) lines)
  = flat_map (fun line => split (snd line)) lines.
Proof.
  induction lines as [|line lines IH]; cbn [flat_map]; auto.
  now rewrite map_app, mark_last_words, IH.
Qed.

(** ** Punctuation *)

Lemma sall_smap p f s : sall p (smap f s) = sall (fun c => p (f c)) s.
Proof.
  induction s as [|c s IH]; cbn [smap sall]; auto. now rewrite IH.
Qed.

Lemma sall_ext p q s : (forall c, p c = q c) -> sall p s = sall q s.
Proof.
  intros H. induction s as [|c s IH]; cbn [sall]; auto. now rewrite H, IH.
Qed.

Lemma sfilter_no_word s :
  sall (fun c => negb (isword c)) s = true ->
  sall isspace (sfilter (fun c => isword c || isspace c) s) = true.
Proof.
  induction s as [|c s IH]; cbn [sfilter sall]; auto.
  intros H. apply andb_true_iff in H as [Hc Hs].
  apply negb_true_iff in Hc. rewrite Hc. cbn [orb].
  destruct (isspace c) eqn:E; cbn [sall]; auto. rewrite E. auto.
Qed.

(** A string without word characters normalizes to the empty string. *)
Lemma normalize_text_no_word s :
  sall (fun c => negb (isword c)) s = true -> normalize_text s = EmptyString.
Proof.
  intros H. unfold normalize_text, strip, collapse_whitespace,
    remove_punctuation, lower.
  rewrite sall_isspace_lstrip; [reflexivity|].
  apply sall_collapse_from; [reflexivity|].
  apply sfilter_no_word. rewrite sall_smap.
  rewrite (sall_ext _ (fun c => negb (isword c))); auto.
  intros c. now rewrite isword_lower_char.
Qed.

(* ================================================================== *)
(** * The properties of the specification *)

(** C1.  For every word the loop processes, the search runs over the
    indices from [max(0, cursor - 2)] up to, and not including,
    [min(len(timing_sequence), cursor + 50)]; the first candidate of that
    range whose ratio with the normalized word exceeds 0.8 gives the word
    its timestamp and puts the cursor one past its index, whatever the
    candidates outside the range are; and when no candidate of the range
    clears the threshold the cursor stays and the timestamp is the
    estimate of lines 172-178. *)
Theorem search_takes_first_similar_in_window
    (timing_sequence : list timing_entry) (line_timestamp : float)
    (line_words : list string) (st : state) (word_index : Z) (word : string) :
  let cursor := timing_index st in
  let normalized_word := normalize_text word in
  let lo := Z.max 0 (cursor - 2) in
  let hi := Z.min (len timing_sequence) (cursor + 50) in
  let is_line_end := word_index =? len line_words - 1 in
  (forall i,
      first_similar timing_sequence normalized_word lo hi i ->
      exists timing_time timing_norm_word timing_orig_word,
        candidate timing_sequence i
        = Some (timing_time, timing_norm_word, timing_orig_word) /\
        align_word timing_sequence line_timestamp line_words st
          (word_index, word)
        = Ok (mkState (i + 1)
                (word_level_lyrics st ++ [(timing_time, word, is_line_end)])))
  /\
  (none_similar timing_sequence normalized_word lo hi ->
   exists estimate,
     fallback_timing line_timestamp word_index (word_level_lyrics st)
     = Ok estimate /\
     align_word timing_sequence line_timestamp line_words st
       (word_index, word)
     = Ok (mkState cursor
             (word_level_lyrics st ++ [(estimate, word, is_line_end)]))).
Proof.
  cbv zeta.
  change (Z.max 0 (timing_index st - 2))
    with (search_start (timing_index st)).
  change (Z.min (len timing_sequence) (timing_index st + 50))
    with (search_end timing_sequence (timing_index st)).
  destruct (align_word_cases timing_sequence line_timestamp line_words st
              word_index word)
    as [(t & nrm & orig & i & Hf & Hc & E)|(t & Hn & Ht & E)].
  - split.
    + intros i' Hi'.
      rewrite (first_similar_unique _ _ _ _ _ _ Hi' Hf). eauto.
    + intros Hn. exfalso. eapply first_similar_none; eauto.
  - split.
    + intros i Hi. exfalso. eapply first_similar_none; eauto.
    + intros _. eauto.
Qed.

(** The second word of the scenario: "world" is not similar to the
    candidate at index 0 and is matched at index 1. *)
Lemma search_takes_first_similar_in_window_witness :
  align_word
    [(10.5%float, "hello", "hello"); (11%float, "world", "world")]
    10%float ["hello"; "world"]
    (mkState 1 [(10.5%float, "hello", false)]) (1, "world")
  = Ok (mkState 2 [(10.5%float, "hello", false); (11%float, "world", true)]).
Proof.
  destruct (proj1 (search_takes_first_similar_in_window
                     [(10.5%float, "hello", "hello");
                      (11%float, "world", "world")]
                     10%float ["hello"; "world"]
                     (mkState 1 [(10.5%float, "hello", false)]) 1 "world") 1)
    as (t & nrm & orig & Hc & E).
  - split; [cbn; lia|]. split; [vm_compute; reflexivity|].
    intros j Hj. replace j with 0 by lia. vm_compute. reflexivity.
  - cbn in Hc. injection Hc as <- _ _. exact E.
Defined.

(** C2, as the code has it.  The cursor starts at 0 and is never reset;
    from one word to the next it stays, advances, or steps back by exactly
    one position (the search starts two positions behind it, and a match
    there leaves it one position back). *)
Theorem cursor_steps_back_at_most_one
    (timing_sequence : list timing_entry)
    (structure_lines : list timed_line) :
  exists trace,
    cursor_trace timing_sequence structure_lines = Ok trace /\
    hd_error trace = Some 0 /\
    forall c c', successive trace c c' -> c <= c' \/ c' = c - 1.
Proof.
  destruct (cursor_trace_chain timing_sequence structure_lines)
    as (trace & E & Hh & _ & Hs).
  exists trace. repeat split; auto.
  intros c c' H. apply Hs in H. lia.
Qed.

(** C2 fails as stated: after "one two three" the cursor is 3, and the
    second "two" is matched two positions behind it, which leaves it
    at 2. *)
Lemma cursor_decreases_on_repeated_word :
  ~ (forall trace c c',
        cursor_trace_of Literal.int_literal Literal.float_literal
          (Lines ["[00:01.00]one two three two"])
          (Lines ["[00:01.00]one"; "[00:02.00]two"; "[00:03.00]three"])
        = Ok trace ->
        successive trace c c' -> c <= c').
Proof.
  intros H.
  assert (E : cursor_trace_of Literal.int_literal Literal.float_literal
                (Lines ["[00:01.00]one two three two"])
                (Lines ["[00:01.00]one"; "[00:02.00]two"; "[00:03.00]three"])
              = Ok [0; 1; 2; 3; 2]) by (vm_compute; reflexivity).
  specialize (H _ 3 2 E).
  assert (3 <= 2); [|lia].
  apply H. exists 3%nat. split; reflexivity.
Qed.

(** C10.  The cursor stays within [0, len(timing_sequence)] throughout,
    and no word moves it back by more than one position. *)
Theorem cursor_within_bounds
    (timing_sequence : list timing_entry)
    (structure_lines : list timed_line) :
  exists trace,
    cursor_trace timing_sequence structure_lines = Ok trace /\
    Forall (fun c => 0 <= c <= len timing_sequence) trace /\
    forall c c', successive trace c c' -> c - 1 <= c'.
Proof.
  destruct (cursor_trace_chain timing_sequence structure_lines)
    as (trace & E & _ & Hb & Hs).
  exists trace. repeat split; auto.
  intros c c' H. apply Hs in H. lia.
Qed.

(** C9.  [create_word_level_lyrics] always returns, whatever the two files
    hold, and it returns the empty list when the structure file or the
    timing file yields no entry. *)
Theorem create_word_level_lyrics_never_raises
    (int_of_str : string -> result Z) (float_of_str : string -> result float)
    (structure_lrc timing_lrc : lrc_file) :
  (exists word_level_lyrics,
      create_word_level_lyrics int_of_str float_of_str
        structure_lrc timing_lrc = Ok word_level_lyrics)
  /\ (parse_lrc_file int_of_str float_of_str structure_lrc = [] ->
      create_word_level_lyrics int_of_str float_of_str
        structure_lrc timing_lrc = Ok [])
  /\ (parse_lrc_file int_of_str float_of_str timing_lrc = [] ->
      create_word_level_lyrics int_of_str float_of_str
        structure_lrc timing_lrc = Ok [])
  /\ (create_word_timing_map int_of_str float_of_str timing_lrc = [] ->
      create_word_level_lyrics int_of_str float_of_str
        structure_lrc timing_lrc = Ok []).
Proof.
  split; [|split; [|split]].
  - rewrite create_word_level_lyrics_unsorted.
    destruct (unsorted_word_level_lyrics_total int_of_str float_of_str
                structure_lrc timing_lrc) as [raw E].
    rewrite E. cbn [bind]. eauto.
  - intros E. unfold create_word_level_lyrics. now rewrite E.
  - intros E. unfold create_word_level_lyrics, create_word_timing_map.
    rewrite E. cbn [fold_left is_nil]. now rewrite orb_true_r.
  - intros E. unfold create_word_level_lyrics.
    rewrite E. cbn [is_nil]. now rewrite orb_true_r.
Qed.

(** C3.  When no candidate of the window clears the threshold, the word at
    index 0 of its line takes the line's timestamp, and a later word takes
    the timestamp given to the word before it, plus the constant 0.3
    (a float addition); so along a run of unmatched words of a line each
    timestamp is the previous one plus 0.3. *)
Theorem fallback_is_line_or_previous_plus_gap
    (timing_sequence : list timing_entry)
    (structure_lines : list timed_line)
    (before : list job) (j : job) (after : list job) (st : state) :
  jobs structure_lines = before ++ j :: after ->
  foldM (step timing_sequence) before initial_state = Ok st ->
  none_similar timing_sequence (normalize_text (job_word j))
    (search_start (timing_index st))
    (search_end timing_sequence (timing_index st)) ->
  exists found_timing,
    step timing_sequence st j
    = Ok (mkState (timing_index st)
            (word_level_lyrics st
             ++ [(found_timing, job_word j, snd (job_mark j))])) /\
    (job_word_index j = 0 -> found_timing = job_line_timestamp j) /\
    (job_word_index j <> 0 ->
     exists before' previous out prev,
       before = before' ++ [previous] /\
       job_line_words previous = job_line_words j /\
       job_word_index previous = job_word_index j - 1 /\
       word_level_lyrics st = out ++ [prev] /\
       word_of prev = job_word previous /\
       found_timing = (timestamp_of prev + 0.3)%float).
Proof.
  intros Hjobs Hrun Hnone.
  destruct j as [[lt lws] [wi w]].
  unfold step, job_line_timestamp, job_line_words, job_word_index, job_word,
    job_mark in *. cbn [fst snd] in *.
  destruct (align_word_cases timing_sequence lt lws st wi w)
    as [(t & nrm & orig & i & Hf & _ & _)|(t & _ & Ht & E)].
  { exfalso. eapply first_similar_none; eauto. }
  exists t. split; [exact E|]. split.
  - intros ->. rewrite fallback_timing_first in Ht. now injection Ht.
  - intros Hwi.
    destruct (jobs_previous _ _ _ _ Hjobs Hwi)
      as (before' & previous & -> & _ & Hw & Hi).
    destruct (run_last_entry _ _ _ _ Hrun) as (out & prev & Hout & Hprev).
    exists before', previous, out, prev. repeat split; auto.
    rewrite Hout, fallback_timing_later in Ht by exact Hwi.
    now injection Ht.
Qed.

(** An unmatched second word: "zzz" after "hello", at 10.5 + 0.3. *)
Lemma fallback_is_line_or_previous_plus_gap_witness :
  exists found_timing,
    step [(10.5%float, "hello", "hello")]
      (mkState 1 [(10.5%float, "hello", false)])
      (10%float, ["hello"; "zzz"; "qqq"], (1, "zzz"))
    = Ok (mkState 1 ([(10.5%float, "hello", false)]
                     ++ [(found_timing, "zzz", false)])) /\
    found_timing = (10.5 + 0.3)%float.
Proof.
  destruct (fallback_is_line_or_previous_plus_gap
              [(10.5%float, "hello", "hello")]
              [(10%float, "hello zzz qqq")]
              [(10%float, ["hello"; "zzz"; "qqq"], (0, "hello"))]
              (10%float, ["hello"; "zzz"; "qqq"], (1, "zzz"))
              [(10%float, ["hello"; "zzz"; "qqq"], (2, "qqq"))]
              (mkState 1 [(10.5%float, "hello", false)]))
    as (found_timing & E & _ & H).
  - reflexivity.
  - vm_compute. reflexivity.
  - intros k Hk. change (0 <= k < 1) in Hk.
    replace k with 0 by lia. vm_compute. reflexivity.
  - exists found_timing. split; [exact E|].
    destruct H as (b & p & out & prev & _ & _ & _ & Hout & _ & ->);
      [discriminate|].
    change (word_level_lyrics (mkState 1 [(10.5%float, "hello", false)]))
      with ([] ++ [(10.5%float, "hello", false)]) in Hout.
    apply app_inj_tail in Hout as [_ <-]. reflexivity.
Defined.




(** C5.  Each structure line yields its words in order, the last one
    flagged [is_line_end] and no other; so the returned list holds exactly
    one flagged entry per structure line. *)
Theorem one_line_end_per_line
    (int_of_str : string -> result Z) (float_of_str : string -> result float)
    (structure_lrc timing_lrc : lrc_file) :
  create_word_timing_map int_of_str float_of_str timing_lrc <> [] ->
  let structure_lines :=
    parse_lrc_file int_of_str float_of_str structure_lrc in
  exists raw out,
    unsorted_word_level_lyrics int_of_str float_of_str
      structure_lrc timing_lrc = Ok raw /\
    create_word_level_lyrics int_of_str float_of_str
      structure_lrc timing_lrc = Ok out /\
    Permutation out raw /\
    map entry_mark raw
    = flat_map (fun line => mark_last (split (snd line))) structure_lines /\
    Forall (fun line : timed_line =>
              let line_words := split (snd line) in
              line_words <> [] /\
              map fst (mark_last line_words) = line_words /\
              map snd (mark_last line_words)
              = repeat false (List.length line_words - 1) ++ [true])
           structure_lines /\
    List.length (filter is_line_end_of out) = List.length structure_lines.
Proof.
  intros Hts structure_lines.
  destruct (unsorted_word_level_lyrics_total int_of_str float_of_str
              structure_lrc timing_lrc) as [raw E].
  exists raw, (sorted timestamp_of raw).
  pose proof (unsorted_word_level_lyrics_marks_timed _ _ _ _ _ Hts E) as Hm.
  pose proof (parsed_lines_have_words int_of_str float_of_str structure_lrc)
    as Hw.
  fold structure_lines in Hm, Hw.
  split; [exact E|].
  split; [rewrite create_word_level_lyrics_unsorted, E; reflexivity|].
  split; [apply sorted_perm|]. split; [exact Hm|]. split.
  - eapply Forall_impl; [|exact Hw]. intros line Hl. cbv zeta.
    split; [exact Hl|]. split; [apply mark_last_words|].
    now apply mark_last_flags.
  - rewrite (Permutation_filter_length _ _ _ (sorted_perm timestamp_of raw)).
    rewrite filter_line_end_marks, Hm. now apply line_end_count.
Qed.

(** Two structure lines, two flagged entries. *)
Lemma one_line_end_per_line_witness :
  exists out,
    word_level_lyrics_of
      (Lines ["[00:10.00]hello world"; "[00:12.00]again"])
      (Lines ["[00:10.50]hello"; "[00:11.00]world"])
    = Ok out /\
    List.length (filter is_line_end_of out) = 2%nat.
Proof.
  destruct (one_line_end_per_line Literal.int_literal Literal.float_literal
              (Lines ["[00:10.00]hello world"; "[00:12.00]again"])
              (Lines ["[00:10.50]hello"; "[00:11.00]world"]))
    as (raw & out & _ & E & _ & _ & _ & H).
  - vm_compute. discriminate.
  - exists out. split; [exact E|exact H].
Defined.

(** C6.  The metadata test looks for a keyword and a colon anywhere in
    the line, so every line that starts with a bracket and contains one is
    dropped, whatever its bracket holds: the lyric line with "said:", which
    contains "id:", is dropped, and the same line without the colon is
    kept.  And a timestamp whose minutes are too large for a float abandons
    the whole parse instead of skipping the line. *)
Theorem lyric_line_with_tag_substring_is_dropped :
  (forall int_of_str float_of_str line,
      startswith "[" (strip line) = true ->
      existsb (fun tag => contains tag (lower (strip line))) metadata_tags
      = true ->
      line_entries int_of_str float_of_str line = [])
  /\ parse_lrc
       (Lines ["[00:10.00]first"; "[00:12.00]She said: hi"; "[00:14.00]last"])
     = [(10%float, "first"); (14%float, "last")]
  /\ parse_lrc
       (Lines ["[00:10.00]first"; "[00:12.00]She said hi"; "[00:14.00]last"])
     = [(10%float, "first"); (12%float, "She said hi"); (14%float, "last")]
  /\ parse_lrc (Lines ["[00:10.00]first"; overflowing_line]) = [].
Proof.
  split.
  - intros int_of_str float_of_str line Hb Ht.
    unfold line_entries, parse_line. rewrite Hb, Ht.
    now destruct (is_empty (strip line)).
  - vm_compute. repeat split; reflexivity.
Qed.

(** C7, as the code has it.  Every pair the parser returns is read from a
    line of the file: its timestamp is [minutes * 60 + seconds] for the
    first two parts of the bracket, whatever their sign, and its text is
    the stripped rest of the line, which is not empty.  The returned list
    is a rearrangement of the pairs in the order of their lines; when no
    timestamp is NaN it is their stable sort by timestamp. *)
Theorem parse_lrc_file_reads_and_sorts
    (int_of_str : string -> result Z) (float_of_str : string -> result float)
    (lrc_path : lrc_file) :
  let lyrics_with_time :=
    unsorted_lyrics_with_time int_of_str float_of_str lrc_path in
  let out := parse_lrc_file int_of_str float_of_str lrc_path in
  (forall entry, In entry out ->
     exists line,
       In line (lines_of lrc_path) /\
       read_from int_of_str float_of_str line entry) /\
  Permutation out lyrics_with_time /\
  (lyrics_with_time = [] \/
   lyrics_with_time
   = flat_map (line_entries int_of_str float_of_str) (lines_of lrc_path)) /\
  (Forall (key_number fst) lyrics_with_time ->
   StronglySorted (key_le fst) out /\
   forall t, with_key fst t out = with_key fst t lyrics_with_time).
Proof.
  cbv zeta. rewrite parse_lrc_file_sorted.
  split; [|split; [|split]].
  - intros entry H. rewrite <- parse_lrc_file_sorted in H.
    now apply parse_lrc_file_read.
  - apply sorted_perm.
  - apply unsorted_lyrics_in_order.
  - intros Hn. split.
    + now apply sorted_sorted.
    + intros t. now apply sorted_stable.
Qed.

(** Lines out of order, with a tie and a metadata tag. *)
Lemma parse_lrc_file_reads_and_sorts_witness :
  StronglySorted (key_le fst)
    (parse_lrc
       (Lines ["[ti:Song]"; "[00:02.00]b"; "[00:01.00]a"; "[00:02.00]c"]))
  /\ parse_lrc
       (Lines ["[ti:Song]"; "[00:02.00]b"; "[00:01.00]a"; "[00:02.00]c"])
     = [(1%float, "a"); (2%float, "b"); (2%float, "c")].
Proof.
  split; [|vm_compute; reflexivity].
  pose proof (parse_lrc_file_reads_and_sorts
                Literal.int_literal Literal.float_literal
                (Lines ["[ti:Song]"; "[00:02.00]b"; "[00:01.00]a";
                        "[00:02.00]c"])) as H.
  cbv zeta in H. destruct H as (_ & _ & _ & H).
  apply H. vm_compute. repeat constructor.
Defined.

(** C7 fails as stated, twice.  A minus sign in the bracket gives a
    negative timestamp.  And [float] reads the seconds of [00:nan] as a
    NaN, which is less than no key and has no key less than it: [sorted]
    finds the three lines in one run and returns 2.0 before 1.0.  No other
    order of the three would be ascending either. *)
Lemma negative_and_nan_timestamps_are_kept :
  ~ (forall timestamp text,
        In (timestamp, text) (parse_lrc (Lines ["[-1:30.00]la la"])) ->
        (0 <=? timestamp)%float = true)
  /\ parse_lrc (Lines ["[00:02.00]a"; "[00:nan]b"; "[00:01.00]c"])
     = [(2%float, "a"); (nan, "b"); (1%float, "c")]
  /\ ~ StronglySorted (key_le fst)
        [(2%float, "a"); (nan, "b"); (1%float, "c")]
  /\ forall out,
       Permutation out [(2%float, "a"); (nan, "b"); (1%float, "c")] ->
       ~ StronglySorted (key_le fst) out.
Proof.
  split.
  { intros H. specialize (H (-30)%float "la la").
    assert (E : parse_lrc (Lines ["[-1:30.00]la la"])
                = [((-30)%float, "la la")])
      by (vm_compute; reflexivity).
    rewrite E in H. specialize (H (or_introl eq_refl)).
    vm_compute in H. discriminate. }
  split; [vm_compute; reflexivity|].
  assert (H : forall out,
             Permutation out [(2%float, "a"); (nan, "b"); (1%float, "c")] ->
             ~ StronglySorted (key_le fst) out).
  { intros out Hp Hs.
    destruct (StronglySorted_comparable _ out
                (2%float, "a") (nan, "b") Hs) as [H|H].
    - apply (Permutation_in _ (Permutation_sym Hp)). now left.
    - apply (Permutation_in _ (Permutation_sym Hp)). right. now left.
    - discriminate.
    - vm_compute in H. discriminate.
    - vm_compute in H. discriminate. }
  split; [|exact H]. apply H. reflexivity.
Qed.

(** C8.  [normalize_text] is idempotent; but the underscore is a word
    character for [re], so it survives [normalize_text], alone or among
    other punctuation, while the punctuation around it is removed. *)
Theorem underscore_survives_normalize_text :
  (forall text, normalize_text (normalize_text text) = normalize_text text)
  /\ normalize_text "_" = "_"
  /\ normalize_text " -_- " = "_"
  /\ normalize_text "?! ... --" = EmptyString.
Proof.
  split; [apply normalize_text_idempotent|].
  vm_compute. repeat split; reflexivity.
Qed.

(* ================================================================== *)
(** * Further properties of the code *)

(** ** [normalize_text] *)

Lemma collapsed_spaces b s :
  collapsed b s = true ->
  sall (fun c => negb (isspace c) || Ascii.eqb c " ") s = true.
Proof.
  revert b. induction s as [|c s IH]; intros b; cbn [collapsed sall]; auto.
  destruct (isspace c) eqn:E; cbn [negb orb].
  - intros H. apply andb_true_iff in H as [H Hs].
    apply andb_true_iff in H as [Hc _]. rewrite Hc. cbn [andb]. eauto.
  - cbn [andb]. eauto.
Qed.

Lemma collapsed_no_double_space b s :
  collapsed b s = true -> contains "  " s = false.
Proof.
  revert b. induction s as [|c s IH]; intros b H; cbn [contains]; auto.
  apply orb_false_iff. split.
  - cbn [prefix]. destruct (ascii_dec " " c) as [<-|]; auto.
    destruct s as [|c' s]; auto.
    cbn [prefix]. destruct (ascii_dec " " c') as [<-|]; auto.
    cbn [collapsed] in H. change (isspace " "%char) with true in H.
    cbn iota in H. apply andb_true_iff in H as [_ H].
    apply andb_true_iff in H as [H _]. apply andb_true_iff in H as [_ H].
    discriminate.
  - cbn [collapsed] in H. destruct (isspace c); [|eauto].
    apply andb_true_iff in H as [_ Hs]. eauto.
Qed.

(** X5.  The result of [normalize_text] holds only lower-case word
    characters and single spaces, and neither starts nor ends with
    whitespace. *)
Theorem normalize_text_normal_form (text : string) :
  let normalized := normalize_text text in
  sall (fun c => Ascii.eqb c " "
                 || (isword c && Ascii.eqb (lower_char c) c)) normalized
  = true
  /\ contains "  " normalized = false
  /\ strip normalized = normalized.
Proof.
  cbv zeta. split; [|split].
  - pose proof (normalize_text_chars text) as Hc.
    pose proof (collapsed_spaces _ _ (normalize_text_collapsed text)) as Hs.
    induction (normalize_text text) as [|c s IH]; cbn [sall] in *; auto.
    apply andb_true_iff in Hc as [Hc Hc'].
    apply andb_true_iff in Hs as [Hs Hs'].
    rewrite IH by assumption. rewrite andb_true_r.
    unfold normal_char in Hc. apply andb_true_iff in Hc as [Hl Hk].
    rewrite Hl, andb_true_r.
    destruct (isword c); [apply orb_true_r|].
    cbn [orb] in Hk. rewrite Hk in Hs. cbn in Hs. now rewrite Hs.
  - eapply collapsed_no_double_space, normalize_text_collapsed.
  - unfold normalize_text. apply strip_idem.
Qed.

(** ** [create_word_timing_map] *)

Lemma timing_fold (lines : list timed_line) : forall acc,
  fold_left
    (fun timing_sequence '(timestamp, word) =>
       let normalized_word := normalize_text word in
       if negb (is_empty normalized_word)
       then timing_sequence ++ [(timestamp, normalized_word, word)]
       else timing_sequence)
    lines acc
  = acc ++ flat_map timing_entries lines.
Proof.
  induction lines as [|[t w] lines IH]; intros acc; cbn [fold_left flat_map].
  - now rewrite app_nil_r.
  - rewrite IH. unfold timing_entries at 2.
    destruct (negb (is_empty (normalize_text w))); cbn [app].
    + now rewrite <- app_assoc.
    + reflexivity.
Qed.

Lemma create_word_timing_map_entries int_of_str float_of_str timing_lrc :
  create_word_timing_map int_of_str float_of_str timing_lrc
  = flat_map timing_entries
      (parse_lrc_file int_of_str float_of_str timing_lrc).
Proof. unfold create_word_timing_map. now rewrite timing_fold. Qed.

Lemma timing_entries_times (lines : list timed_line) :
  map (fun e => (timing_time e, timing_orig_word e))
      (flat_map timing_entries lines)
  = filter (fun line => negb (is_empty (normalize_text (snd line)))) lines.
Proof.
  induction lines as [|[t w] lines IH]; cbn [flat_map filter snd]; auto.
  rewrite map_app, IH. unfold timing_entries.
  destruct (negb (is_empty (normalize_text w))); reflexivity.
Qed.

(** X1.  The timing sequence is the parsed timing file without the lines
    that have no word character, in the same order; each entry carries
    the line's timestamp, the line's text, and its normalized form, which
    is not empty. *)
Theorem timing_sequence_is_filtered_parse
    (int_of_str : string -> result Z) (float_of_str : string -> result float)
    (timing_lrc : lrc_file) :
  let timing_sequence :=
    create_word_timing_map int_of_str float_of_str timing_lrc in
  map (fun e => (timing_time e, timing_orig_word e)) timing_sequence
  = filter (fun line => negb (is_empty (normalize_text (snd line))))
      (parse_lrc_file int_of_str float_of_str timing_lrc)
  /\ Forall (fun e =>
               timing_norm_word e = normalize_text (timing_orig_word e) /\
               is_empty (timing_norm_word e) = false)
            timing_sequence.
Proof.
  cbv zeta. rewrite create_word_timing_map_entries. split.
  - apply timing_entries_times.
  - apply Forall_forall. intros e H.
    apply in_flat_map in H as ([t w] & _ & H). unfold timing_entries in H.
    destruct (is_empty (normalize_text w)) eqn:E; cbn in H; [contradiction|].
    destruct H as [<-|[]]. cbn. auto.
Qed.

Lemma timing_entries_map_filter (lines : list timed_line) :
  flat_map timing_entries lines
  = map (fun line => (fst line, normalize_text (snd line), snd line))
      (filter (fun line => negb (is_empty (normalize_text (snd line)))) lines).
Proof.
  induction lines as [|[t w] lines IH]; cbn [flat_map filter snd]; auto.
  rewrite IH. unfold timing_entries.
  destruct (negb (is_empty (normalize_text w))); reflexivity.
Qed.

Lemma StronglySorted_map_filter {A B} (R : A -> A -> Prop) (Q : B -> B -> Prop)
    (g : A -> B) (p : A -> bool) l :
  (forall a a', R a a' -> Q (g a) (g a')) ->
  StronglySorted R l -> StronglySorted Q (map g (filter p l)).
Proof.
  intros HR Hs. induction Hs as [|a l Hs IH Ha]; cbn [filter map].
  - constructor.
  - destruct (p a); auto. cbn [map]. constructor; auto.
    apply Forall_map. apply Forall_forall. intros a' H.
    apply filter_In in H as [H _]. rewrite Forall_forall in Ha. auto.
Qed.

(** X2.  The timing sequence is in non-decreasing order of timestamp
    (the timestamps being numbers). *)
Theorem timing_sequence_is_chronological
    (int_of_str : string -> result Z) (float_of_str : string -> result float)
    (timing_lrc : lrc_file) :
  Forall (key_number fst)
    (unsorted_lyrics_with_time int_of_str float_of_str timing_lrc) ->
  StronglySorted (key_le timing_time)
    (create_word_timing_map int_of_str float_of_str timing_lrc).
Proof.
  intros Hn. rewrite create_word_timing_map_entries, timing_entries_map_filter.
  apply (StronglySorted_map_filter (key_le fst)).
  - intros a a' H. exact H.
  - rewrite parse_lrc_file_sorted. now apply sorted_sorted.
Qed.

Lemma timing_sequence_is_chronological_witness :
  StronglySorted (key_le timing_time)
    (create_word_timing_map Literal.int_literal Literal.float_literal
       (Lines ["[00:02.00]two"; "[00:01.00]one"; "[00:01.50]..."])).
Proof.
  apply timing_sequence_is_chronological.
  vm_compute. repeat constructor.
Defined.

(** ** [parse_lrc_file]: skipped lines and abandoned parses *)

Section ParserMore.

Variable int_of_str : string -> result Z.
Variable float_of_str : string -> result float.

Lemma foldM_parse_line_app before after :
  foldM (parse_line int_of_str float_of_str) (before ++ after) []
  = (entries <- foldM (parse_line int_of_str float_of_str) before [] ;;
     foldM (parse_line int_of_str float_of_str) after entries).
Proof. apply foldM_app. Qed.

Lemma foldM_parse_line_skip before line after :
  parse_line int_of_str float_of_str [] line = Ok [] ->
  foldM (parse_line int_of_str float_of_str) (before ++ line :: after) []
  = foldM (parse_line int_of_str float_of_str) (before ++ after) [].
Proof.
  intros H. rewrite !foldM_app. 
  destruct (foldM _ before []) as [entries|]; cbn [bind foldM]; auto.
  rewrite parse_line_acc, H. cbn [bind]. now rewrite app_nil_r.
Qed.

Lemma foldM_parse_line_raises lines : forall line acc,
  In line lines ->
  line_aborts int_of_str float_of_str line ->
  exists e, foldM (parse_line int_of_str float_of_str) lines acc = Raise e.
Proof.
  induction lines as [|l lines IH]; intros line acc Hin Hab; [contradiction|].
  cbn [foldM]. rewrite parse_line_acc.
  destruct (parse_line int_of_str float_of_str [] l) as [entries|e] eqn:E.
  - cbn [bind]. destruct Hin as [->|Hin].
    + destruct Hab as [e He]. congruence.
    + eauto.
  - cbn [bind]. eauto.
Qed.

Lemma line_entries_bracketed line entry :
  In entry (line_entries int_of_str float_of_str line) ->
  startswith "[" (strip line) = true /\
  mem_char "]" (strip line) = true /\
  existsb (fun tag => contains tag (lower (strip line))) metadata_tags = false.
Proof.
  unfold line_entries, parse_line.
  destruct (is_empty (strip line)); [contradiction|].
  destruct (startswith "[" (strip line)); cbn [andb]; [|contradiction].
  destruct (existsb _ _); [contradiction|].
  destruct (mem_char "]" (strip line)); [|contradiction].
  auto.
Qed.

End ParserMore.

(** X6.  A line whose timestamp does not convert ([ValueError] from
    [int] or [float], or [IndexError]) is skipped: the file parses as if
    the line were not there. *)
Theorem malformed_timestamp_line_is_skipped
    (int_of_str : string -> result Z) (float_of_str : string -> result float)
    (before after : list string) (line : string) :
  parse_timestamp int_of_str float_of_str (strip line) = Raise ValueError
  \/ parse_timestamp int_of_str float_of_str (strip line) = Raise IndexError ->
  parse_lrc_file int_of_str float_of_str (Lines (before ++ line :: after))
  = parse_lrc_file int_of_str float_of_str (Lines (before ++ after)).
Proof.
  intros H. unfold parse_lrc_file.
  rewrite foldM_parse_line_skip; [reflexivity|].
  unfold parse_line.
  destruct (is_empty (strip line)); auto.
  destruct (_ && existsb _ _); auto.
  destruct (_ && mem_char _ _); auto.
  destruct H as [-> | ->]; reflexivity.
Qed.

Lemma malformed_timestamp_line_is_skipped_witness :
  parse_lrc (Lines (["[00:01.00]one"] ++ "[xx:yy]lost" :: ["[00:02.00]two"]))
  = parse_lrc (Lines (["[00:01.00]one"] ++ ["[00:02.00]two"])).
Proof.
  apply (malformed_timestamp_line_is_skipped
           Literal.int_literal Literal.float_literal).
  left. vm_compute. reflexivity.
Defined.

(** X7.  One line that raises anything else (the conversion of
    [minutes * 60] to a float overflowing) abandons the parse: the result
    is empty, whatever the other lines hold. *)
Theorem uncaught_exception_empties_the_parse
    (int_of_str : string -> result Z) (float_of_str : string -> result float)
    (lines : list string) (line : string) :
  In line lines ->
  line_aborts int_of_str float_of_str line ->
  parse_lrc_file int_of_str float_of_str (Lines lines) = [].
Proof.
  intros Hin Hab. unfold parse_lrc_file.
  destruct (foldM_parse_line_raises int_of_str float_of_str lines line []
              Hin Hab) as [e ->].
  reflexivity.
Qed.

Lemma uncaught_exception_empties_the_parse_witness :
  parse_lrc (Lines ["[00:01.00]one"; overflowing_line; "[00:02.00]two"]) = [].
Proof.
  apply (uncaught_exception_empties_the_parse
           Literal.int_literal Literal.float_literal _ overflowing_line).
  - right. left. reflexivity.
  - exists OverflowError. vm_compute. reflexivity.
Defined.

(** X8.  Every pair the parser returns comes from a line that starts with
    a bracket, has a closing bracket, and contains none of the metadata
    keywords followed by a colon, in any case: no metadata line is ever
    returned. *)
Theorem parsed_lines_are_bracketed_and_tag_free
    (int_of_str : string -> result Z) (float_of_str : string -> result float)
    (lrc_path : lrc_file) (entry : timed_line) :
  In entry (parse_lrc_file int_of_str float_of_str lrc_path) ->
  exists line,
    In line (lines_of lrc_path) /\
    In entry (line_entries int_of_str float_of_str line) /\
    startswith "[" (strip line) = true /\
    mem_char "]" (strip line) = true /\
    Forall (fun tag => contains tag (lower (strip line)) = false)
           metadata_tags.
Proof.
  rewrite parse_lrc_file_sorted. intros H.
  apply (Permutation_in _ (sorted_perm fst _)) in H.
  destruct (unsorted_lyrics_in_order int_of_str float_of_str lrc_path)
    as [E|E]; rewrite E in H; [contradiction|].
  apply in_flat_map in H as (line & Hl & He).
  exists line. split; auto. split; auto.
  destruct (line_entries_bracketed _ _ _ _ He) as (Hb & Hc & Ht).
  repeat split; auto.
  apply Forall_forall. intros tag Htag.
  destruct (contains tag (lower (strip line))) eqn:C; auto.
  assert (existsb (fun tag => contains tag (lower (strip line)))
            metadata_tags = true)
    by (apply existsb_exists; eauto).
  congruence.
Qed.

Lemma parsed_lines_are_bracketed_and_tag_free_witness :
  exists line,
    In line ["[ar:Band]"; "  [00:01.00]one "] /\
    In (1%float, "one")
       (line_entries Literal.int_literal Literal.float_literal line) /\
    startswith "[" (strip line) = true /\
    mem_char "]" (strip line) = true /\
    Forall (fun tag => contains tag (lower (strip line)) = false)
           metadata_tags.
Proof.
  apply (parsed_lines_are_bracketed_and_tag_free
           Literal.int_literal Literal.float_literal
           (Lines ["[ar:Band]"; "  [00:01.00]one "])).
  vm_compute. left. reflexivity.
Defined.

(** ** The aligner: every word once, and words without word characters *)

(** X3.  When the timing file yields an entry, the result holds every
    word of the structure lines exactly once: its words are a permutation
    of the structure words, and its length is their number. *)
Theorem every_structure_word_is_returned_once
    (int_of_str : string -> result Z) (float_of_str : string -> result float)
    (structure_lrc timing_lrc : lrc_file) :
  create_word_timing_map int_of_str float_of_str timing_lrc <> [] ->
  let structure_words :=
    flat_map (fun line : timed_line => split (snd line))
      (parse_lrc_file int_of_str float_of_str structure_lrc) in
  exists out,
    create_word_level_lyrics int_of_str float_of_str structure_lrc timing_lrc
    = Ok out /\
    Permutation (map word_of out) structure_words /\
    List.length out = List.length structure_words.
Proof.
  intros Hts structure_words.
  destruct (unsorted_word_level_lyrics_total int_of_str float_of_str
              structure_lrc timing_lrc) as [raw E].
  pose proof (unsorted_word_level_lyrics_marks_timed _ _ _ _ _ Hts E) as Hm.
  assert (Hw : map word_of raw = structure_words).
  { unfold structure_words. rewrite <- flat_map_mark_last_words, <- Hm.
    rewrite map_map. reflexivity. }
  exists (sorted timestamp_of raw).
  split; [rewrite create_word_level_lyrics_unsorted, E; reflexivity|].
  split.
  - rewrite <- Hw. apply Permutation_map, sorted_perm.
  - rewrite <- Hw, length_map.
    apply Permutation_length, sorted_perm.
Qed.

Lemma every_structure_word_is_returned_once_witness :
  exists out,
    word_level_lyrics_of
      (Lines ["[00:10.00]hello world"; "[00:12.00]again"])
      (Lines ["[00:10.50]hello"; "[00:11.00]world"])
    = Ok out /\
    Permutation (map word_of out) ["hello"; "world"; "again"] /\
    List.length out = 3%nat.
Proof.
  apply (every_structure_word_is_returned_once
           Literal.int_literal Literal.float_literal
           (Lines ["[00:10.00]hello world"; "[00:12.00]again"])
           (Lines ["[00:10.50]hello"; "[00:11.00]world"])).
  vm_compute. discriminate.
Defined.

Lemma zero_over_anything_is_not_similar (y : float) :
  (0.8 <? 0 / y)%float = false.
Proof.
  rewrite ltb_spec, div_spec.
  change (Prim2SF 0) with (S754_zero false).
  destruct (Prim2SF y) as [[]|[]| |[] m e]; reflexivity.
Qed.

Lemma empty_word_is_not_similar (timing_norm_word : string) :
  is_empty timing_norm_word = false ->
  similar EmptyString timing_norm_word = false.
Proof.
  destruct timing_norm_word as [|c w]; [discriminate|]. intros _.
  unfold similar, Difflib.ratio.
  cbn [list_ascii_of_string List.length Difflib.matching_size].
  change (Difflib.find_longest_match _ [] _) with (O, O, O).
  cbn [Nat.eqb Nat.add].
  change (2 * float_of_nat 0)%float with 0%float.
  apply zero_over_anything_is_not_similar.
Qed.

(** X4.  A structure word without any word character, a dash or an
    ellipsis, normalizes to the empty string and is never matched against
    the timing sequence: it takes the estimate of lines 172-178 and leaves
    the cursor where it is. *)
Theorem word_without_word_characters_is_never_matched
    (int_of_str : string -> result Z) (float_of_str : string -> result float)
    (timing_lrc : lrc_file) (line_timestamp : float)
    (line_words : list string) (st : state) (word_index : Z) (word : string) :
  sall (fun c => negb (isword c)) word = true ->
  exists estimate,
    fallback_timing line_timestamp word_index (word_level_lyrics st)
    = Ok estimate /\
    align_word (create_word_timing_map int_of_str float_of_str timing_lrc)
      line_timestamp line_words st (word_index, word)
    = Ok (mkState (timing_index st)
            (word_level_lyrics st
             ++ [(estimate, word, word_index =? len line_words - 1)])).
Proof.
  intros Hw.
  set (ts := create_word_timing_map int_of_str float_of_str timing_lrc).
  destruct (align_word_cases ts line_timestamp line_words st word_index word)
    as [(t & nrm & orig & i & Hf & Hc & _)|(t & _ & Ht & E)]; [|eauto].
  exfalso. destruct Hf as (_ & Hs & _).
  unfold similar_at in Hs. rewrite Hc in Hs.
  rewrite (normalize_text_no_word _ Hw) in Hs.
  rewrite empty_word_is_not_similar in Hs; [discriminate|].
  assert (Hin : In (t, nrm, orig) ts).
  { unfold candidate in Hc. destruct (i <? 0); [discriminate|].
    eapply nth_error_In; eauto. }
  unfold ts in Hin. rewrite create_word_timing_map_entries in Hin.
  apply in_flat_map in Hin as ([t' w'] & _ & Hin).
  unfold timing_entries in Hin.
  destruct (is_empty (normalize_text w')) eqn:Ee; cbn in Hin; [contradiction|].
  destruct Hin as [Hin|[]]. injection Hin as _ <- _. exact Ee.
Qed.

Lemma word_without_word_characters_is_never_matched_witness :
  exists estimate,
    fallback_timing 10%float 1 [(10.5%float, "hello", false)] = Ok estimate /\
    align_word
      (create_word_timing_map Literal.int_literal Literal.float_literal
         (Lines ["[00:10.50]hello"; "[00:11.00]world"]))
      10%float ["hello"; "-"; "world"]
      (mkState 1 [(10.5%float, "hello", false)]) (1, "-")
    = Ok (mkState 1
            ([(10.5%float, "hello", false)]
             ++ [(estimate, "-", 1 =? len ["hello"; "-"; "world"] - 1)])).
Proof.
  apply (word_without_word_characters_is_never_matched
           Literal.int_literal Literal.float_literal
           (Lines ["[00:10.50]hello"; "[00:11.00]world"])
           10%float ["hello"; "-"; "world"]
           (mkState 1 [(10.5%float, "hello", false)]) 1 "-").
  reflexivity.
Defined.

(** ** Playback *)

Section PlaybackWords.

Import Playback.

Variable lyrics : list timed_word.

Lemma render_snoc b l e :
  render b (l ++ [e])
  = render b l
    ++ render (match rev l with [] => b | x :: _ => is_line_end_of x end) [e].
Proof.
  revert b. induction l as [|[[t w] le] l IH]; intros b; [reflexivity|].
  destruct le; cbn [app render rev]; rewrite IH;
    destruct (rev l); reflexivity.
Qed.

Lemma firstn_succ_nth {A} (l : list A) n x :
  nth_error l n = Some x -> firstn (S n) l = firstn n l ++ [x].
Proof.
  revert l. induction n as [|n IH]; intros [|y l] H; try discriminate.
  - cbn in H. injection H as ->. reflexivity.
  - cbn [firstn app]. f_equal. now apply IH.
Qed.

Lemma getitemZ_nth {A} (l : list A) i :
  0 <= i < len l ->
  exists x, getitemZ l i = Ok x /\ nth_error l (Z.to_nat i) = Some x.
Proof.
  intros H. unfold getitemZ, getitem.
  destruct (i <? 0) eqn:E; [lia|]. rewrite E.
  destruct (nth_error l (Z.to_nat i)) as [x|] eqn:N; [eauto|].
  apply nth_error_None in N. unfold len in H. lia.
Qed.

Lemma show_word_shown st entry :
  shown_state lyrics st ->
  nth_error lyrics (Z.to_nat (word_index st)) = Some entry ->
  shown_state lyrics (show_word st entry) /\
  word_index (show_word st entry) = word_index st + 1.
Proof.
  intros ((H0 & Hlen) & Hout & Hstart) Hnth.
  assert (Hlt : word_index st < len lyrics).
  { assert (Z.to_nat (word_index st) < List.length lyrics)%nat
      by (apply nth_error_Some; congruence).
    unfold len. lia. }
  assert (Hfirst : firstn (Z.to_nat (word_index st + 1)) lyrics
                   = firstn (Z.to_nat (word_index st)) lyrics ++ [entry]).
  { replace (Z.to_nat (word_index st + 1))
      with (S (Z.to_nat (word_index st))) by lia.
    now apply firstn_succ_nth. }
  assert (Hone : (len (current_line_words st ++ [snd (fst entry)]) =? 1)
                 = is_nil (current_line_words st)).
  { unfold len. rewrite length_app. cbn [List.length].
    destruct (current_line_words st); cbn [is_nil List.length].
    - reflexivity.
    - apply Z.eqb_neq. lia. }
  destruct entry as [[t w] le]. cbn [fst snd] in Hone.
  unfold show_word. rewrite Hone, Hstart.
  set (shown := firstn (Z.to_nat (word_index st)) lyrics) in *.
  assert (Hr : forall flag,
             render true (shown ++ [(t, w, flag)])
             = render true shown ++ render (at_line_start shown) [(t, w, flag)])
    by (intros flag; apply render_snoc).
  assert (Hs : forall flag,
             at_line_start (shown ++ [(t, w, flag)]) = flag)
    by (intros flag; unfold at_line_start; now rewrite rev_app_distr).
  unfold shown_state.
  destruct le; cbn [word_index current_line_words stdout is_nil];
    rewrite Hfirst, Hr, Hs, Hout; cbn [render];
    (split; [|reflexivity]); (split; [lia|]); split.
  - destruct (at_line_start shown); rewrite <- ?app_assoc; reflexivity.
  - reflexivity.
  - destruct (at_line_start shown); rewrite <- ?app_assoc; reflexivity.
  - now destruct (current_line_words st).
Qed.

(** One reading of the clock, from a state of the loop. *)
Lemma show_due_words_shown current_time turns : forall st,
  shown_state lyrics st ->
  len lyrics - word_index st <= Z.of_nat turns ->
  exists st',
    show_due_words turns lyrics current_time st = Ok st' /\
    shown_state lyrics st' /\
    word_index st <= word_index st' /\
    (forall k, word_index st <= k < word_index st' ->
               due lyrics current_time k = true) /\
    (word_index st' < len lyrics ->
     due lyrics current_time (word_index st') = false).
Proof.
  induction turns as [|turns IH]; intros st Hst Hturns; cbn [show_due_words].
  - exists st. pose proof Hst as ((H0 & Hlen) & _).
    split; [reflexivity|]. split; [exact Hst|]. split; [lia|].
    split; intros; lia.
  - pose proof Hst as ((H0 & Hlen) & _).
    destruct (Z.ltb_spec (word_index st) (len lyrics)) as [Hlt|Hge].
    + destruct (getitemZ_nth lyrics (word_index st)) as (entry & G & N);
        [lia|].
      rewrite G. cbn [bind].
      assert (Hdue : due lyrics current_time (word_index st)
                     = (timestamp_of entry <=? current_time)%float).
      { unfold due. destruct (Z.ltb_spec (word_index st) 0); [lia|].
        now rewrite N. }
      destruct (timestamp_of entry <=? current_time)%float eqn:D.
      * destruct (show_word_shown st entry Hst N) as (Hst1 & Hwi).
        destruct (IH (show_word st entry) Hst1) as (st' & E & Hst' & Hle & Hd & Hn);
          [lia|].
        exists st'. split; auto. split; auto. split; [lia|]. split; auto.
        intros k Hk. destruct (Z.eq_dec k (word_index st)) as [->|];
          [congruence|].
        apply Hd. lia.
      * exists st. split; [reflexivity|]. split; [exact Hst|].
        split; [lia|]. split; [intros; lia|]. intros _. congruence.
    + exists st. split; [reflexivity|]. split; [exact Hst|].
      split; [lia|]. split; intros; lia.
Qed.

Lemma initial_word_state_shown : shown_state lyrics initial_word_state.
Proof.
  unfold shown_state, initial_word_state.
  cbn [word_index stdout current_line_words]. unfold len.
  split; [lia|]. split; reflexivity.
Qed.

(** The outer loop: the state it ends in, and why each word was shown. *)
Lemma play_words_shown (clock : list float) :
  exists st,
    play_words lyrics clock = Ok st /\
    shown_state lyrics st /\
    forall k, 0 <= k < word_index st ->
              exists current_time,
                In current_time clock /\ due lyrics current_time k = true.
Proof.
  unfold play_words.
  induction clock as [|t clock IH] using rev_ind.
  - exists initial_word_state. split; [reflexivity|].
    split; [apply initial_word_state_shown|]. cbn. intros k Hk. lia.
  - destruct IH as (st & E & Hst & Hwhy).
    rewrite foldM_app, E. cbn [bind foldM].
    destruct (show_due_words_shown t (List.length lyrics) st Hst)
      as (st' & E' & Hst' & Hle & Hd & _).
    { destruct Hst as ((? & ?) & _). unfold len in *. lia. }
    rewrite E'. cbn [bind]. exists st'. split; auto. split; auto.
    intros k Hk. destruct (Z.lt_ge_cases k (word_index st)) as [Hlt|Hge].
    + destruct (Hwhy k) as (t' & Hin & Hdue); [lia|].
      exists t'. split; auto. apply in_or_app. now left.
    + exists t. split; [apply in_or_app; right; now left|].
      apply Hd. lia.
Qed.

(** More turns than words left change nothing. *)
Lemma show_due_words_turns current_time n : forall m st,
  shown_state lyrics st ->
  len lyrics - word_index st <= Z.of_nat n ->
  len lyrics - word_index st <= Z.of_nat m ->
  show_due_words n lyrics current_time st
  = show_due_words m lyrics current_time st.
Proof.
  induction n as [|n IH]; intros m st Hst Hn Hm.
  - destruct m as [|m]; [reflexivity|]. cbn [show_due_words].
    destruct (Z.ltb_spec (word_index st) (len lyrics)); [lia|reflexivity].
  - destruct m as [|m]; cbn [show_due_words].
    + destruct (Z.ltb_spec (word_index st) (len lyrics)); [lia|reflexivity].
    + destruct (Z.ltb_spec (word_index st) (len lyrics)) as [Hlt|]; auto.
      destruct Hst as ((H0 & Hlen) & Hrest) eqn:E. clear E.
      destruct (getitemZ_nth lyrics (word_index st)) as (entry & G & N);
        [lia|].
      rewrite G. cbn [bind].
      destruct (timestamp_of entry <=? current_time)%float; auto.
      destruct (show_word_shown st entry Hst N) as (Hst1 & Hwi).
      apply IH; auto; lia.
Qed.

(** A reading after an earlier one ends where it would have ended
    alone. *)
Lemma show_due_words_twice t1 t2 turns : forall st st1,
  (t1 <=? t2)%float = true ->
  shown_state lyrics st ->
  len lyrics - word_index st <= Z.of_nat turns ->
  show_due_words turns lyrics t1 st = Ok st1 ->
  show_due_words turns lyrics t2 st1 = show_due_words turns lyrics t2 st.
Proof.
  induction turns as [|turns IH]; intros st st1 Ht Hst Hturns E.
  - cbn in E. now injection E as <-.
  - cbn [show_due_words] in E.
    destruct (Z.ltb_spec (word_index st) (len lyrics)) as [Hlt|Hge];
      [|now injection E as <-].
    pose proof Hst as ((H0 & Hlen) & _).
    destruct (getitemZ_nth lyrics (word_index st)) as (entry & G & N); [lia|].
    rewrite G in E. cbn [bind] in E.
    destruct (timestamp_of entry <=? t1)%float eqn:D;
      [|now injection E as <-].
    destruct (show_word_shown st entry Hst N) as (Hst1 & Hwi).
    destruct (show_due_words_shown t1 turns (show_word st entry) Hst1)
      as (st1' & E1 & Hshown1 & Hle1 & _); [lia|].
    rewrite E1 in E. injection E as <-.
    transitivity (show_due_words turns lyrics t2 st1').
    { apply show_due_words_turns; auto.
      - lia.
      - lia. }
    rewrite (IH _ _ Ht Hst1 ltac:(lia) E1).
    cbn [show_due_words].
    destruct (Z.ltb_spec (word_index st) (len lyrics)); [|lia].
    rewrite G. cbn [bind].
    now rewrite (leb_trans _ _ _ D Ht).
Qed.

End PlaybackWords.

Lemma StronglySorted_nth {A} (R : A -> A -> Prop) l :
  StronglySorted R l ->
  forall i j a b,
    (i < j)%nat -> nth_error l i = Some a -> nth_error l j = Some b -> R a b.
Proof.
  induction 1 as [|x l Hs IH Hx]; intros i j a b Hij Ha Hb.
  - destruct i; discriminate.
  - destruct j as [|j]; [lia|]. cbn in Hb. destruct i as [|i].
    + cbn in Ha. injection Ha as <-.
      rewrite Forall_forall in Hx. apply Hx. eapply nth_error_In; eauto.
    + cbn in Ha. apply (IH i j a b); [lia|assumption|assumption].
Qed.

(** X9.  The loop of [play_with_word_timing] never fails on an index;
    whatever the clock does, what it has printed is the first
    [word_index] words of the list, laid out line by line (a note before
    the first word of a line, a space before the others, a new line after
    a word flagged [is_line_end]); and no word is shown before a reading
    of the clock has reached its timestamp. *)
Theorem playback_shows_a_prefix_line_by_line
    (word_level_lyrics : list timed_word) (clock : list float) :
  exists st,
    Playback.play_words word_level_lyrics clock = Ok st /\
    0 <= Playback.word_index st <= len word_level_lyrics /\
    Playback.stdout st
    = render true
        (firstn (Z.to_nat (Playback.word_index st)) word_level_lyrics) /\
    forall k, 0 <= k < Playback.word_index st ->
      exists current_time,
        In current_time clock /\ due word_level_lyrics current_time k = true.
Proof.
  destruct (play_words_shown word_level_lyrics clock)
    as (st & E & (Hb & Hout & _) & Hwhy).
  exists st. auto.
Qed.

(** X10.  The granularity of the clock does not matter: a reading
    followed by a later one leaves the loop in the state the later one
    alone leaves it in. *)
Theorem playback_ignores_an_earlier_reading
    (word_level_lyrics : list timed_word) (clock : list float)
    (t1 t2 : float) :
  (t1 <=? t2)%float = true ->
  Playback.play_words word_level_lyrics (clock ++ [t1; t2])
  = Playback.play_words word_level_lyrics (clock ++ [t2]).
Proof.
  intros Ht. unfold Playback.play_words. rewrite !foldM_app.
  destruct (play_words_shown word_level_lyrics clock) as (st & E & Hst & _).
  unfold Playback.play_words in E. rewrite E. cbn [bind foldM].
  assert (Hturns : len word_level_lyrics - Playback.word_index st
                   <= Z.of_nat (List.length word_level_lyrics))
    by (destruct Hst as ((? & ?) & _); unfold len in *; lia).
  destruct (show_due_words_shown word_level_lyrics t1
              (List.length word_level_lyrics) st Hst Hturns)
    as (st1 & E1 & _).
  rewrite E1. cbn [bind].
  rewrite (show_due_words_twice word_level_lyrics t1 t2 _ _ _ Ht Hst Hturns E1).
  destruct (Playback.show_due_words _ _ t2 st); reflexivity.
Qed.

Lemma playback_ignores_an_earlier_reading_witness :
  Playback.play_words
    [(10.5%float, "hello", false); (11%float, "world", true)]
    ([1%float] ++ [10.7%float; 12%float])
  = Playback.play_words
      [(10.5%float, "hello", false); (11%float, "world", true)]
      ([1%float] ++ [12%float]).
Proof.
  apply playback_ignores_an_earlier_reading. reflexivity.
Defined.

(** X11.  On a list in non-decreasing order of timestamp, as
    [create_word_level_lyrics] returns it, a reading of the clock leaves
    no due word behind: every word whose timestamp the clock has reached
    is shown. *)
Theorem playback_leaves_no_due_word_behind
    (word_level_lyrics : list timed_word) (clock : list float)
    (current_time : float) :
  StronglySorted (key_le timestamp_of) word_level_lyrics ->
  exists st,
    Playback.play_words word_level_lyrics (clock ++ [current_time]) = Ok st /\
    forall k, due word_level_lyrics current_time k = true ->
              k < Playback.word_index st.
Proof.
  intros Hs. unfold Playback.play_words. rewrite foldM_app.
  destruct (play_words_shown word_level_lyrics clock) as (st & E & Hst & _).
  unfold Playback.play_words in E. rewrite E. cbn [bind foldM].
  destruct (show_due_words_shown word_level_lyrics current_time
              (List.length word_level_lyrics) st Hst)
    as (st' & E' & Hst' & Hle & _ & Hnext).
  { destruct Hst as ((? & ?) & _). unfold len in *. lia. }
  rewrite E'. cbn [bind]. exists st'. split; [reflexivity|].
  intros k Hk.
  destruct (Z.lt_ge_cases k (Playback.word_index st')) as [|Hge]; auto.
  exfalso. destruct Hst' as ((H0 & Hlen) & _).
  unfold due in Hk. destruct (Z.ltb_spec k 0); [discriminate|].
  destruct (nth_error word_level_lyrics (Z.to_nat k)) as [ek|] eqn:Nk;
    [|discriminate].
  assert (Hk_len : k < len word_level_lyrics).
  { assert (Z.to_nat k < List.length word_level_lyrics)%nat
      by (apply nth_error_Some; congruence).
    unfold len. lia. }
  specialize (Hnext ltac:(lia)). unfold due in Hnext.
  destruct (Z.ltb_spec (Playback.word_index st') 0); [lia|].
  destruct (nth_error word_level_lyrics (Z.to_nat (Playback.word_index st')))
    as [en|] eqn:Nn.
  - destruct (Z.eq_dec k (Playback.word_index st')) as [->|Hne].
    + congruence.
    + assert (Hle' : key_le timestamp_of en ek).
      { eapply (StronglySorted_nth _ _ Hs); [|exact Nn|exact Nk]. lia. }
      unfold key_le in Hle'.
      rewrite (leb_trans _ _ _ Hle' Hk) in Hnext. discriminate.
  - apply nth_error_None in Nn. unfold len in *. lia.
Qed.

Lemma playback_leaves_no_due_word_behind_witness :
  exists st,
    Playback.play_words
      [(1%float, "b", false); (1%float, "c", true); (1.3%float, "a", true)]
      ([0.5%float] ++ [1.1%float])
    = Ok st /\
    forall k,
      due [(1%float, "b", false); (1%float, "c", true); (1.3%float, "a", true)]
        1.1%float k = true ->
      k < Playback.word_index st.
Proof.
  apply playback_leaves_no_due_word_behind.
  repeat constructor.
Defined.

Section PlaybackLines.

Import Playback.

Variable lyrics : list timed_line.

Lemma show_line_shown st entry :
  shown_lines lyrics st ->
  nth_error lyrics (Z.to_nat (lyric_index st)) = Some entry ->
  shown_lines lyrics (show_line st entry) /\
  lyric_index (show_line st entry) = lyric_index st + 1.
Proof.
  intros ((H0 & Hlen) & Hout) Hnth.
  assert (Hlt : lyric_index st < len lyrics).
  { assert (Z.to_nat (lyric_index st) < List.length lyrics)%nat
      by (apply nth_error_Some; congruence).
    unfold len. lia. }
  destruct entry as [t text]. unfold show_line, shown_lines.
  cbn [lyric_index line_stdout]. split; [|reflexivity]. split; [lia|].
  replace (Z.to_nat (lyric_index st + 1))
    with (S (Z.to_nat (lyric_index st))) by lia.
  rewrite (firstn_succ_nth _ _ _ Hnth), flat_map_app, <- Hout.
  cbn [flat_map]. unfold printed_line. cbn [snd].
  destruct (negb (is_empty (strip text))); now rewrite ?app_nil_r.
Qed.

Lemma show_due_lines_shown current_time turns : forall st,
  shown_lines lyrics st ->
  exists st',
    show_due_lines turns lyrics current_time st = Ok st' /\
    shown_lines lyrics st'.
Proof.
  induction turns as [|turns IH]; intros st Hst; cbn [show_due_lines];
    [eauto|].
  pose proof Hst as ((H0 & Hlen) & _).
  destruct (Z.ltb_spec (lyric_index st) (len lyrics)) as [Hlt|Hge]; [|eauto].
  destruct (getitemZ_nth lyrics (lyric_index st)) as (entry & G & N); [lia|].
  rewrite G. cbn [bind].
  destruct (fst entry <=? current_time)%float; [|eauto].
  apply IH. now apply show_line_shown.
Qed.

Lemma play_lines_shown (clock : list float) :
  exists st, play_lines lyrics clock = Ok st /\ shown_lines lyrics st.
Proof.
  unfold play_lines.
  induction clock as [|t clock IH] using rev_ind.
  - exists (mkLineState 0 []). split; [reflexivity|].
    unfold shown_lines. cbn [lyric_index line_stdout]. unfold len.
    split; [lia|reflexivity].
  - destruct IH as (st & E & Hst). rewrite foldM_app, E. cbn [bind foldM].
    destruct (show_due_lines_shown t (List.length lyrics) st Hst)
      as (st' & E' & Hst').
    rewrite E'. cbn [bind]. eauto.
Qed.

End PlaybackLines.

(** X12.  [play_with_lrc_file] on the lines [parse_lrc_file] returns never
    fails on an index, and prints every line it passes, a note, the text
    and a new line each, in the order of the list: no parsed line is left
    out as blank. *)
Theorem parsed_lines_are_all_printed
    (int_of_str : string -> result Z) (float_of_str : string -> result float)
    (lrc_path : lrc_file) (clock : list float) :
  let lyrics_with_timestamps :=
    parse_lrc_file int_of_str float_of_str lrc_path in
  exists st,
    Playback.play_lines lyrics_with_timestamps clock = Ok st /\
    0 <= Playback.lyric_index st <= len lyrics_with_timestamps /\
    Playback.line_stdout st
    = flat_map
        (fun line : timed_line =>
           [Playback.Note; Playback.Text (snd line); Playback.Newline])
        (firstn (Z.to_nat (Playback.lyric_index st)) lyrics_with_timestamps).
Proof.
  cbv zeta.
  destruct (play_lines_shown
              (parse_lrc_file int_of_str float_of_str lrc_path) clock)
    as (st & E & Hb & Hout).
  exists st. split; auto. split; auto. rewrite Hout. clear Hout.
  assert (Hall : Forall (fun line : timed_line =>
                           is_empty (strip (snd line)) = false)
                   (firstn (Z.to_nat (Playback.lyric_index st))
                      (parse_lrc_file int_of_str float_of_str lrc_path))).
  { apply Forall_forall. intros line H.
    assert (H' : In line (parse_lrc_file int_of_str float_of_str lrc_path)).
    { rewrite <- (firstn_skipn (Z.to_nat (Playback.lyric_index st))).
      apply in_or_app. now left. }
    apply parse_lrc_file_read in H' as (l & _ & H').
    eapply read_from_nonblank; eauto. }
  induction Hall as [|line rest Hl _ IH]; cbn [flat_map]; auto.
  rewrite IH. unfold printed_line. rewrite Hl. reflexivity.
Qed.

(** ** [get_song_bpm] *)

Lemma leb_ltb_trans x y z :
  (x <=? y)%float = true -> (y <? z)%float = true -> (x <? z)%float = true.
Proof.
  rewrite leb_fcompare, !ltb_fcompare. unfold fcompare.
  intros [H1|H1] H2.
  - eapply SFcompare_trans; eauto.
  - eapply SFcompare_Eq_l; eauto.
Qed.

(** X13.  [get_song_bpm] returns the default 0.03 when the analysis fails
    and when the tempo times 8 is zero (the division raises).  For every
    other tempo, a NaN included, it returns [clamped - 0.02], where
    [clamped] lies between 0.01 and 0.1 and is [60 / (tempo * 8)] itself
    when that lies strictly between the two bounds. *)
Theorem typing_speed_is_default_or_clamped_then_shifted :
  get_song_bpm None = 0.03%float /\
  (forall tempo,
     (tempo * 8 =? 0)%float = true ->
     get_song_bpm (Some tempo) = 0.03%float) /\
  (forall tempo,
     (tempo * 8 =? 0)%float = false ->
     exists clamped,
       (0.01 <=? clamped)%float = true /\
       (clamped <=? 0.1)%float = true /\
       get_song_bpm (Some tempo) = (clamped - 0.02)%float /\
       ((0.01 <? 60 / (tempo * 8))%float = true ->
        (60 / (tempo * 8) <? 0.1)%float = true ->
        clamped = (60 / (tempo * 8))%float)).
Proof.
  split; [reflexivity|]. split.
  - intros tempo Hz. unfold get_song_bpm, py_div. now rewrite Hz.
  - intros tempo Hz. unfold get_song_bpm, py_div. rewrite Hz.
    set (x := (60 / (tempo * 8))%float).
    exists (py_max 0.01 (py_min 0.1 x)).
    unfold py_max, py_min.
    destruct (x <? 0.1)%float eqn:Hx.
    + destruct (0.01 <? x)%float eqn:H1.
      * repeat split; auto using ltb_leb.
      * repeat split; auto. discriminate.
    + repeat split; auto. discriminate.
Qed.

(** X14.  A tempo so fast that [60 / (tempo * 8)] is at most 0.01, from
    750 beats per minute on, gives the typing speed [0.01 - 0.02], which
    is negative. *)
Theorem fast_tempo_gives_negative_typing_speed (tempo : float) :
  (tempo * 8 =? 0)%float = false ->
  (60 / (tempo * 8) <=? 0.01)%float = true ->
  get_song_bpm (Some tempo) = (0.01 - 0.02)%float /\
  (get_song_bpm (Some tempo) <? 0)%float = true.
Proof.
  intros Hz Hx. unfold get_song_bpm, py_div. rewrite Hz.
  unfold py_max, py_min.
  rewrite (leb_ltb_trans _ 0.01 0.1 Hx eq_refl).
  rewrite (leb_not_ltb _ _ Hx). split; reflexivity.
Qed.

Lemma fast_tempo_gives_negative_typing_speed_witness :
  get_song_bpm (Some 800%float) = (0.01 - 0.02)%float /\
  (get_song_bpm (Some 800%float) <? 0)%float = true.
Proof.
  apply fast_tempo_gives_negative_typing_speed; reflexivity.
Defined.

(** ** [read_lrc_file] of the timestamp generator *)

Lemma substring_prefix (w rest : string) :
  substring 0 (String.length w) (w ++ rest)%string = w.
Proof.
  induction w as [|c w IH]; cbn [String.length append substring].
  - destruct rest; reflexivity.
  - now rewrite IH.
Qed.

Lemma substring_skip (a b : string) k n :
  substring (String.length a + k) n (a ++ b)%string = substring k n b.
Proof. induction a as [|c a IH]; cbn; auto. Qed.

Lemma concat_cons sep (w : string) rest :
  rest <> [] ->
  String.concat sep (w :: rest) = (w ++ sep ++ String.concat sep rest)%string.
Proof. destruct rest; [congruence|reflexivity]. Qed.

Lemma substring_concat (done : list string) : forall w rest,
  substring (width done) (String.length w)
    (String.concat " " (done ++ w :: rest)) = w.
Proof.
  induction done as [|d done IH]; intros w rest.
  - cbn [width app]. destruct rest as [|r rest].
    + cbn [String.concat].
      induction w as [|c w IHw]; cbn [String.length substring];
        [reflexivity | now rewrite IHw].
    + rewrite concat_cons by discriminate. apply substring_prefix.
  - cbn [width app]. rewrite concat_cons by (destruct done; discriminate).
    rewrite <- Nat.add_assoc, substring_skip.
    change (" " ++ ?x)%string with (String " " x).
    cbn [Nat.add substring]. apply IH.
Qed.

Lemma nth_word_positions (done : list string) : forall c w rest,
  nth_error (Timer.word_positions c (done ++ w :: rest)) (List.length done)
  = Some (c + Z.of_nat (width done), Z.of_nat (String.length w)).
Proof.
  induction done as [|d done IH]; intros c w rest;
    cbn [app Timer.word_positions List.length nth_error width].
  - f_equal. f_equal. lia.
  - rewrite IH. f_equal. f_equal. lia.
Qed.

Lemma dict_set_fresh {V} (k : Z) (v : V) d :
  ~ In k (map fst d) -> Timer.dict_set k v d = d ++ [(k, v)].
Proof.
  induction d as [|[k' v'] d IH]; cbn [Timer.dict_set map fst In app]; auto.
  intros H. destruct (Z.eqb_spec k' k); [tauto|].
  rewrite IH; tauto.
Qed.

Lemma in_range i lo hi : In i (range lo hi) <-> lo <= i < hi.
Proof.
  unfold range. rewrite in_map_iff. split.
  - intros (k & <- & H). apply in_seq in H. lia.
  - intros H. exists (Z.to_nat (i - lo)). split; [lia|].
    apply in_seq. lia.
Qed.

Lemma concat_sections_so_far st :
  List.concat (sections_so_far st)
  = List.concat (Timer.sections st) ++ Timer.current_section st.
Proof.
  unfold sections_so_far. rewrite concat_app.
  destruct (Timer.current_section st); cbn [is_nil List.concat];
    now rewrite ?app_nil_r.
Qed.

Lemma placed_mono V V' (W W' : list string) k pl :
  (forall s section, nth_error V s = Some section ->
     exists section', nth_error V' s = Some section' /\
       forall l line, nth_error section l = Some line ->
                      nth_error section' l = Some line) ->
  (forall i w, nth_error W i = Some w -> nth_error W' i = Some w) ->
  placed V W k pl -> placed V' W' k pl.
Proof.
  intros HV HW. destruct pl as [[s l] [p n]]. cbn [placed].
  intros (section & line & word & Hs & Hsec & Hl & Hline & Hk & Hword & Hp).
  destruct (HV _ _ Hsec) as (section' & Hsec' & Hlines).
  exists section', line, word. repeat split; auto; tauto.
Qed.

Lemma well_placed_ext st st' :
  well_placed st ->
  Timer.words st' = Timer.words st ->
  sections_so_far st' = sections_so_far st ->
  Timer.word_to_section st' = Timer.word_to_section st ->
  Forall (fun section : list string => section <> []) (Timer.sections st') ->
  well_placed st'.
Proof.
  intros (H1 & H2 & H3 & H4) Ew Es Ed Hne. unfold well_placed.
  rewrite Ew, Es, Ed. auto.
Qed.

Lemma dict_set_next {V} n (v : V) d :
  map fst d = range 0 n -> Timer.dict_set n v d = d ++ [(n, v)].
Proof.
  intros H. apply dict_set_fresh. rewrite H, in_range. lia.
Qed.

Section TimerRead.

Variable float_of_str : string -> result float.

Lemma start_section_well_placed st line st' :
  well_placed st ->
  Timer.start_section float_of_str st line = Ok st' ->
  well_placed st'.
Proof.
  intros Hst. unfold Timer.start_section.
  destruct (mem_char ":" _); [|intros [= <-]; exact Hst].
  destruct (Timer.two_floats _ _) as [[mins secs]|e]; cbn [bind];
    [|discriminate].
  assert (Hne : Forall (fun section : list string => section <> [])
                  (Timer.sections st)) by apply Hst.
  destruct (Timer.current_section st) as [|l0 current] eqn:Ec;
    cbn [is_nil negb andb]; [|destruct (_ || _)%bool];
    intros [= <-]; apply (well_placed_ext st); cbn; auto;
    try (unfold sections_so_far; cbn; rewrite Ec; cbn;
         now rewrite ?app_nil_r).
  apply Forall_app. split; [exact Hne|].
  constructor; [discriminate|constructor].
Qed.

Lemma add_words ws (Q : Z * Timer.place -> Prop) st0 :
  (forall done w rest, ws = done ++ w :: rest ->
     Q (len (Timer.words st0) + len done,
        (len (Timer.sections st0), len (Timer.current_section st0),
         (Z.of_nat (width done), Z.of_nat (String.length w))))) ->
  forall rest done st,
  ws = done ++ rest ->
  Timer.words st = Timer.words st0 ++ done ->
  Timer.sections st = Timer.sections st0 ->
  Timer.current_section st = Timer.current_section st0 ->
  map fst (Timer.word_to_section st) = range 0 (len (Timer.words st)) ->
  Forall Q (Timer.word_to_section st) ->
  exists st',
    foldM (Timer.add_word (Timer.word_positions 0 ws))
      (combine (range (len done) (len ws)) rest) st = Ok st' /\
    Timer.words st' = Timer.words st0 ++ ws /\
    Timer.sections st' = Timer.sections st0 /\
    Timer.current_section st' = Timer.current_section st0 /\
    Timer.last_timestamp st' = Timer.last_timestamp st /\
    map fst (Timer.word_to_section st') = range 0 (len (Timer.words st')) /\
    Forall Q (Timer.word_to_section st').
Proof.
  intros HQ rest. induction rest as [|w rest IH]; intros done st E Hw Hs Hc Hk HD.
  - rewrite combine_nil. cbn [foldM]. exists st.
    rewrite app_nil_r in E. subst done. auto 10.
  - assert (Hlen : len ws = len done + 1 + len rest).
    { subst ws. unfold len. rewrite length_app. cbn [List.length]. lia. }
    assert (Hr : 0 <= len rest) by (unfold len; lia).
    rewrite range_cons by lia. cbn [combine foldM Timer.add_word].
    destruct (getitemZ_nth (Timer.word_positions 0 ws) (len done))
      as (pos & Hget & Hnth).
    { assert (List.length (Timer.word_positions 0 ws) = List.length ws).
      { generalize 0. generalize ws. clear.
        induction ws as [|x ws IH]; intros c; cbn; auto. }
      unfold len in *. lia. }
    rewrite Hget. cbn [bind].
    unfold len in Hnth at 1. rewrite Nat2Z.id in Hnth.
    rewrite E, nth_word_positions in Hnth. injection Hnth as <-.
    replace (len done + 1) with (len (done ++ [w]))
      by (unfold len; rewrite length_app; cbn [List.length]; lia).
    match goal with
    | |- exists st', foldM _ _ ?s = _ /\ _ => set (st1 := s)
    end.
    destruct (IH (done ++ [w]) st1)
      as (st' & Hf & H1 & H2 & H3 & H4 & H5 & H6);
      [..|exists st'; auto 10]; cbn.
    + now rewrite <- app_assoc.
    + now rewrite Hw, <- app_assoc.
    + exact Hs.
    + exact Hc.
    + rewrite (dict_set_next _ _ _ Hk), map_app.
      etransitivity; [apply f_equal2; [exact Hk|reflexivity]|].
      cbn [map fst].
      replace (len (Timer.words st ++ [w])) with (len (Timer.words st) + 1)
        by (unfold len; rewrite length_app; cbn [List.length]; lia).
      symmetry. apply range_snoc. unfold len. lia.
    + rewrite (dict_set_next _ _ _ Hk).
      apply Forall_app. split; [exact HD|].
      constructor; [|constructor].
      rewrite Hs, Hc, Hw.
      replace (len (Timer.words st0 ++ done))
        with (len (Timer.words st0) + len done)
        by (unfold len; rewrite length_app; lia).
      replace (0 + Z.of_nat (width done)) with (Z.of_nat (width done)) by lia.
      now apply (HQ done w rest).
Qed.

Lemma read_line_well_placed st line st' :
  well_placed st ->
  Timer.read_line float_of_str st line = Ok st' ->
  well_placed st'.
Proof.
  intros Hst. unfold Timer.read_line.
  destruct (existsb _ _); [intros [= <-]; exact Hst|].
  destruct (_ && _)%bool; [|intros [= <-]; exact Hst].
  destruct (Timer.start_section _ st line) as [st1|e] eqn:E1; cbn [bind];
    [|discriminate].
  pose proof (start_section_well_placed _ _ _ Hst E1) as H1.
  destruct (Timer.clean line) as [cl|e]; cbn [bind]; [|discriminate].
  destruct (is_empty cl) eqn:Ecl; cbn [negb]; [intros [= <-]; exact H1|].
  destruct H1 as (Hw & Hne & Hk & HD).
  set (V' := Timer.sections st1 ++ [Timer.current_section st1 ++ [cl]]).
  set (W' := Timer.words st1 ++ split cl).
  assert (HV : forall s section,
            nth_error (sections_so_far st1) s = Some section ->
            exists section', nth_error V' s = Some section' /\
              forall l line, nth_error section l = Some line ->
                             nth_error section' l = Some line).
  { intros s section. unfold sections_so_far, V'.
    destruct (Nat.ltb_spec s (List.length (Timer.sections st1))) as [Hlt|Hge].
    - rewrite !nth_error_app1 by assumption. eauto.
    - rewrite !nth_error_app2 by assumption.
      destruct (Timer.current_section st1) as [|l0 current];
        cbn [is_nil]; destruct (s - _)%nat as [|[|m]]; cbn; try discriminate.
      intros [= <-]. eexists. split; [reflexivity|].
      intros l line' Hl. change (l0 :: current ++ [cl])
        with ((l0 :: current) ++ [cl]).
      rewrite nth_error_app1; [assumption|].
      apply nth_error_Some. congruence. }
  assert (HW : forall i w, nth_error (Timer.words st1) i = Some w ->
                           nth_error W' i = Some w).
  { intros i w Hi. unfold W'. rewrite nth_error_app1; [assumption|].
    apply nth_error_Some. congruence. }
  destruct (add_words (split cl)
              (fun kp => placed V' W' (fst kp) (snd kp)) st1)
    with (rest := split cl) (done := @nil string) (st := st1)
    as (st2 & Hf & Hw2 & Hs2 & Hc2 & _ & Hk2 & HD2);
    auto using app_nil_r.
  { intros done w rest E. cbn [fst snd placed].
    exists (Timer.current_section st1 ++ [cl]), cl, w.
    unfold len. rewrite !Nat2Z.id. repeat split; try lia.
    - unfold V'. rewrite nth_error_app2, Nat.sub_diag by lia. reflexivity.
    - rewrite nth_error_app2, Nat.sub_diag by lia. reflexivity.
    - unfold W'. rewrite E.
      replace (Z.to_nat (Z.of_nat (List.length (Timer.words st1))
                         + Z.of_nat (List.length done)))
        with (List.length (Timer.words st1) + List.length done)%nat by lia.
      rewrite nth_error_app2 by lia.
      replace (_ + _ - _)%nat with (List.length done) by lia.
      rewrite nth_error_app2, Nat.sub_diag by lia. reflexivity.
    - rewrite E. apply substring_concat. }
  { eapply Forall_impl; [|exact HD].
    intros [k pl]. cbn [fst snd]. now apply placed_mono. }
  unfold enumerate. change (len (@nil string)) with 0 in Hf. rewrite Hf.
  cbn [bind]. intros [= <-]. unfold well_placed.
  assert (Es : sections_so_far
                 {| Timer.words := Timer.words st2;
                    Timer.sections := Timer.sections st2;
                    Timer.word_to_section := Timer.word_to_section st2;
                    Timer.current_section := Timer.current_section st2 ++ [cl];
                    Timer.last_timestamp := Timer.last_timestamp st2 |} = V').
  { unfold sections_so_far, V'. cbn. rewrite Hs2, Hc2.
    now destruct (Timer.current_section st1). }
  rewrite Es. cbn. repeat split.
  - rewrite Hw2, Hw. unfold V'.
    rewrite concat_sections_so_far, concat_app. cbn [List.concat].
    rewrite app_nil_r, !flat_map_app. cbn [flat_map].
    now rewrite app_nil_r, app_assoc.
  - now rewrite Hs2.
  - exact Hk2.
  - rewrite Hw2. exact HD2.
Qed.

End TimerRead.

Lemma foldM_preserves {St A} (body : St -> A -> result St) (P : St -> Prop) l :
  (forall s a s', P s -> body s a = Ok s' -> P s') ->
  forall s s', P s -> foldM body l s = Ok s' -> P s'.
Proof.
  intros Hb. induction l as [|a l IH]; intros s s' Hs; cbn [foldM].
  - now intros [= <-].
  - destruct (body s a) as [s1|e] eqn:E; cbn [bind]; [|discriminate].
    apply IH. eapply Hb; eauto.
Qed.

Lemma dict_get_In {V} k (d : list (Z * V)) v :
  Timer.dict_get k d = Some v -> In (k, v) d.
Proof.
  induction d as [|[k' v'] d IH]; cbn [Timer.dict_get In]; [discriminate|].
  destruct (Z.eqb_spec k' k) as [->|]; [intros [= ->]; now left|auto].
Qed.

Lemma In_dict_get {V} k (d : list (Z * V)) :
  In k (map fst d) -> exists v, Timer.dict_get k d = Some v.
Proof.
  induction d as [|[k' v'] d IH]; cbn [Timer.dict_get map fst In]; [tauto|].
  destruct (Z.eqb_spec k' k) as [->|]; [eauto|].
  intros [?|?]; [congruence|auto].
Qed.

Lemma initial_state_well_placed : well_placed Timer.initial_state.
Proof.
  unfold well_placed. cbn. repeat split; constructor.
Qed.

Lemma read_lrc_file_well_placed float_of_str lines words sections d :
  Timer.read_lrc_file float_of_str lines = Ok (words, sections, d) ->
  exists st, well_placed st /\ words = Timer.words st /\
             sections = sections_so_far st /\
             d = Timer.word_to_section st.
Proof.
  unfold Timer.read_lrc_file.
  destruct (foldM _ lines _) as [st|e] eqn:E; cbn [bind]; [|discriminate].
  intros [= <- <- <-]. exists st.
  split; [|split; [reflexivity|split; [|reflexivity]]].
  - eapply (foldM_preserves _ well_placed);
      [|apply initial_state_well_placed|exact E].
    intros s a s'. apply read_line_well_placed.
  - unfold sections_so_far. destruct (Timer.current_section st); cbn;
      now rewrite ?app_nil_r.
Qed.

(** X15.  The words [read_lrc_file] returns are the words of the lines of
    its sections, section after section and line after line, and none of
    its sections is empty. *)
Theorem words_are_the_words_of_the_sections
    (float_of_str : string -> result float) (lines : list string)
    words sections d :
  Timer.read_lrc_file float_of_str lines = Ok (words, sections, d) ->
  words = flat_map split (List.concat sections) /\
  Forall (fun section : list string => section <> []) sections.
Proof.
  intros H. apply read_lrc_file_well_placed in H.
  destruct H as (st & (Hw & Hne & _) & -> & -> & _). split; [exact Hw|].
  unfold sections_so_far. apply Forall_app. split; [exact Hne|].
  destruct (Timer.current_section st); cbn [is_nil]; constructor;
    [discriminate|constructor].
Qed.

Lemma words_are_the_words_of_the_sections_witness :
  ["hello"; "world"; "again"; "new"; "part"]
  = flat_map split (List.concat [["hello   world"; "again"]; ["new part"]]) /\
  Forall (fun section : list string => section <> [])
    [["hello   world"; "again"]; ["new part"]].
Proof.
  apply (words_are_the_words_of_the_sections Literal.float_literal
           ["[ti:x]"; "[00:01.00]hello   world"; "[00:02.00]again";
            "[00:09.00]new part"]
           _ _ [(0, (0, 0, (0, 5))); (1, (0, 0, (6, 5))); (2, (0, 1, (0, 5)));
                (3, (1, 0, (0, 3))); (4, (1, 0, (4, 4)))]).
  vm_compute. reflexivity.
Defined.

(** X16.  The dictionary [read_lrc_file] returns has an entry for the
    index of every word it returns and for nothing else, and every entry
    names a section and a line that exist and gives the length of the word
    and its position in the line once the words of the line are one space
    apart. *)
Theorem every_word_has_its_place
    (float_of_str : string -> result float) (lines : list string)
    words sections d :
  Timer.read_lrc_file float_of_str lines = Ok (words, sections, d) ->
  forall k,
    (0 <= k < len words -> exists pl, Timer.dict_get k d = Some pl) /\
    (forall pl, Timer.dict_get k d = Some pl ->
       0 <= k < len words /\ placed sections words k pl).
Proof.
  intros H k. apply read_lrc_file_well_placed in H.
  destruct H as (st & (_ & _ & Hk & HD) & -> & -> & ->). split.
  - intros Hr. apply In_dict_get. rewrite Hk. now apply in_range.
  - intros pl Hget. apply dict_get_In in Hget. split.
    + apply (in_range k 0). rewrite <- Hk.
      now apply (in_map fst) in Hget.
    + rewrite Forall_forall in HD. apply (HD _ Hget).
Qed.

Lemma every_word_has_its_place_witness :
  (0 <= 1 < len ["hello"; "world"; "again"] ->
   exists pl,
     Timer.dict_get 1 [(0, (0, 0, (0, 5))); (1, (0, 0, (6, 5)));
                       (2, (0, 1, (0, 5)))] = Some pl) /\
  (forall pl,
     Timer.dict_get 1 [(0, (0, 0, (0, 5))); (1, (0, 0, (6, 5)));
                       (2, (0, 1, (0, 5)))] = Some pl ->
     0 <= 1 < len ["hello"; "world"; "again"] /\
     placed [["hello   world"; "again"]] ["hello"; "world"; "again"] 1 pl).
Proof.
  apply (every_word_has_its_place Literal.float_literal
           ["[00:01.00]hello   world"; "[00:02.00]again"]).
  vm_compute. reflexivity.
Defined.

(** X17.  A line that is read for its timestamp and whose bracketed text
    holds a colon but does not split at the colons into exactly two parts
    (as the hours of [01:02:03] make it) ends [read_lrc_file] with an
    exception: nothing catches it. *)
Theorem timestamp_not_of_two_parts_raises
    (float_of_str : string -> result float)
    (before after : list string) (line : string) (st : Timer.state) :
  foldM (Timer.read_line float_of_str) before Timer.initial_state = Ok st ->
  lyric_line line = true ->
  mem_char ":" (timestamp_text line) = true ->
  List.length (split_on ":" (timestamp_text line)) <> 2%nat ->
  exists e,
    Timer.read_lrc_file float_of_str (before ++ line :: after) = Raise e.
Proof.
  intros Hb Hl Hc Hn. unfold Timer.read_lrc_file.
  rewrite foldM_app, Hb. cbn [bind foldM].
  assert (exists e, Timer.read_line float_of_str st line = Raise e)
    as [e ->]; [|now exists e].
  unfold lyric_line in Hl. apply andb_true_iff in Hl as [Hmeta Hlyr].
  apply negb_true_iff in Hmeta.
  unfold Timer.read_line. rewrite Hmeta, Hlyr.
  unfold Timer.start_section. fold (timestamp_text line). rewrite Hc.
  assert (exists e, Timer.two_floats float_of_str
                      (split_on ":" (timestamp_text line)) = Raise e)
    as [e ->]; [|now exists e].
  destruct (split_on ":" (timestamp_text line)) as [|p0 [|p1 [|p2 rest]]];
    cbn [Timer.two_floats List.length] in *; try congruence; eauto.
  - destruct (float_of_str p0); cbn [bind]; eauto.
  - destruct (float_of_str p0); cbn [bind]; eauto.
    destruct (float_of_str p1); cbn [bind]; eauto.
    destruct (float_of_str p2); cbn [bind]; eauto.
Qed.

Lemma timestamp_not_of_two_parts_raises_witness :
  exists e,
    Timer.read_lrc_file Literal.float_literal
      (["[00:01.00]one"] ++ "[00:01:02]two" :: ["[00:03.00]three"])
    = Raise e.
Proof.
  apply (timestamp_not_of_two_parts_raises Literal.float_literal
           ["[00:01.00]one"] ["[00:03.00]three"] "[00:01:02]two"
           (Timer.mkState ["one"] [] [(0, (0, 0, (0, 3)))] ["one"] 1)).
  - vm_compute. reflexivity.
  - vm_compute. reflexivity.
  - vm_compute. reflexivity.
  - vm_compute. discriminate.
Defined.

(** ** [display_lyrics] on what [read_lrc_file] returns *)

Lemma item_nth {A} (l : list A) i x :
  0 <= i -> nth_error l (Z.to_nat i) = Some x -> Timer.item l i = Some x.
Proof.
  intros Hi Hn. unfold Timer.item.
  destruct (getitemZ_nth l i) as (y & -> & Hy); [|congruence].
  split; [assumption|]. unfold len.
  assert (Z.to_nat i < List.length l)%nat; [|lia].
  apply nth_error_Some. congruence.
Qed.

Lemma setitem_length {A} (l : list A) i x :
  0 <= i < len l ->
  exists l', Timer.setitem l i x = Some l' /\ List.length l' = List.length l.
Proof.
  intros H. unfold Timer.setitem.
  destruct (i <? 0) eqn:E; [lia|]. rewrite E.
  destruct (len l <=? i) eqn:E'; [lia|]. cbn [orb].
  eexists. split; [reflexivity|].
  unfold len in H.
  rewrite length_app. cbn [List.length]. rewrite length_firstn, length_skipn.
  lia.
Qed.

Lemma dot_words_length (V : list (list string)) (W : list string)
    (d : list (Z * Timer.place)) s section :
  (forall k, 0 <= k < len W -> exists pl, Timer.dict_get k d = Some pl) ->
  (forall k pl, Timer.dict_get k d = Some pl -> placed V W k pl) ->
  nth_error V (Z.to_nat s) = Some section ->
  forall js current,
    Forall (fun j => 0 <= j < len W) js ->
    List.length current = List.length section ->
    exists current',
      Timer.ofold (Timer.dot_word d s) js current = Some current' /\
      List.length current' = List.length section.
Proof.
  intros Hkeys Hpl Hsec js.
  induction js as [|j js IH]; intros current Hjs Hlen; cbn [Timer.ofold].
  - eauto.
  - inversion Hjs as [|? ? Hj Hjs']; subst.
    destruct (Hkeys j Hj) as ([[s' l'] [p n]] & Hget).
    pose proof (Hpl _ _ Hget) as Hplaced. cbn [placed] in Hplaced.
    destruct Hplaced as (section' & line & word & Hs' & Hsec' & Hl' & Hline & _).
    unfold Timer.dot_word at 1, Timer.lookup. rewrite Hget.
    cbn [Timer.obind].
    destruct (Z.eqb_spec s' s) as [->|Hne]; [|now apply IH].
    assert (section' = section) as -> by congruence.
    assert (Hlt : 0 <= l' < len current).
    { split; [assumption|]. unfold len. rewrite Hlen.
      assert (Z.to_nat l' < List.length section)%nat; [|lia].
      apply nth_error_Some. congruence. }
    destruct (getitemZ_nth current l' Hlt) as (line' & Hitem & _).
    unfold Timer.item. rewrite Hitem. cbn [Timer.obind].
    destruct (setitem_length current l' (Timer.dotted line' p n) Hlt)
      as (current1 & -> & Hlen1).
    apply IH; [assumption|congruence].
Qed.

(** X18.  On the words, sections and dictionary [read_lrc_file] returns,
    with at least one word, [display_lyrics] raises neither [KeyError] nor
    [IndexError], at the start (index -1) and at the index of every
    word. *)
Theorem display_lyrics_never_raises
    (float_of_str : string -> result float) (lines : list string)
    words sections d (current_word_index : Z) :
  Timer.read_lrc_file float_of_str lines = Ok (words, sections, d) ->
  words <> [] ->
  -1 <= current_word_index < len words ->
  exists out,
    Timer.display_lyrics words sections d current_word_index = Some out.
Proof.
  intros H Hne Hi. apply read_lrc_file_well_placed in H.
  destruct H as (st & (Hw & _ & Hk & HD) & -> & -> & ->).
  set (W := Timer.words st) in *. set (V := sections_so_far st) in *.
  set (D := Timer.word_to_section st) in *.
  assert (Hkeys : forall k, 0 <= k < len W ->
                    exists pl, Timer.dict_get k D = Some pl).
  { intros k Hr. apply In_dict_get. rewrite Hk. now apply in_range. }
  assert (Hpl : forall k pl, Timer.dict_get k D = Some pl -> placed V W k pl).
  { intros k pl Hget. apply dict_get_In in Hget.
    rewrite Forall_forall in HD. apply (HD _ Hget). }
  assert (Hfoot : exists footer,
            (if (0 <=? current_word_index)
                && (current_word_index <? len W - 1)
             then Timer.obind (Timer.item W (current_word_index + 1))
                    (fun word => Some [Timer.Next_word word])
             else Some []) = Some footer).
  { destruct (_ && _)%bool eqn:E; [|eauto].
    apply andb_true_iff in E as [E1 E2].
    destruct (getitemZ_nth W (current_word_index + 1)) as (w & Hget & _);
      [lia|].
    unfold Timer.item. rewrite Hget. cbn. eauto. }
  destruct Hfoot as (footer & Hfoot).
  unfold Timer.display_lyrics. rewrite Hfoot.
  destruct (Z.eqb_spec current_word_index (-1)) as [->|Hstart].
  - destruct V as [|first V'] eqn:EV.
    + exfalso. apply Hne. rewrite Hw. reflexivity.
    + unfold Timer.item. cbn. eauto.
  - destruct (Hkeys current_word_index) as ([[s l] [p n]] & Hget); [lia|].
    pose proof (Hpl _ _ Hget) as Hplaced. cbn [placed] in Hplaced.
    destruct Hplaced as (section & line & word & Hs & Hsec & _).
    unfold Timer.lookup. rewrite Hget. cbn [Timer.obind fst].
    rewrite (item_nth V s section Hs Hsec). cbn [Timer.obind].
    destruct (dot_words_length V W D s section Hkeys Hpl Hsec
                (range 0 (current_word_index + 1)) section)
      as (current & -> & _); [|reflexivity|].
    { apply Forall_forall. intros j Hj. apply in_range in Hj. lia. }
    cbn [Timer.obind].
    assert (Hprev : exists preview,
              (if current_word_index + 1 <? len W
               then Timer.obind (Timer.dict_get (current_word_index + 1) D)
                      (fun next =>
                       if s <? fst (fst next)
                       then Timer.obind (Timer.item V (fst (fst next)))
                              (fun next_section =>
                               Some [Timer.Next_section; Timer.Rule;
                                     Timer.Section_lines next_section])
                       else Some [])
               else Some []) = Some preview).
    { destruct (Z.ltb_spec (current_word_index + 1) (len W)); [|eauto].
      destruct (Hkeys (current_word_index + 1)) as ([[s' l'] [p' n']] & Hget');
        [lia|].
      pose proof (Hpl _ _ Hget') as Hplaced. cbn [placed] in Hplaced.
      destruct Hplaced as (section' & line' & word' & Hs' & Hsec' & _).
      rewrite Hget'. cbn [Timer.obind fst].
      destruct (s <? s'); [|eauto].
      rewrite (item_nth V s' section' Hs' Hsec'). cbn. eauto. }
    destruct Hprev as (preview & ->). cbn. eauto.
Qed.

Lemma display_lyrics_never_raises_witness :
  exists out,
    Timer.display_lyrics ["hello"; "world"; "again"]
      [["hello   world"; "again"]]
      [(0, (0, 0, (0, 5))); (1, (0, 0, (6, 5))); (2, (0, 1, (0, 5)))] 1
    = Some out.
Proof.
  apply (display_lyrics_never_raises Literal.float_literal
           ["[00:01.00]hello   world"; "[00:02.00]again"]).
  - vm_compute. reflexivity.
  - discriminate.
  - unfold len. simpl. lia.
Defined.

(** ** The order of the sections in the dictionary *)

Lemma StronglySorted_snoc_le l x :
  StronglySorted Z.le l -> Forall (fun y => y <= x) l ->
  StronglySorted Z.le (l ++ [x]).
Proof.
  induction 1 as [|y l Hs IH Hy]; intros Hx; cbn [app].
  - repeat constructor.
  - inversion Hx; subst. constructor; [auto|].
    apply Forall_app. split; [assumption|]. now constructor.
Qed.

Lemma dict_get_nth {V} (d : list (Z * V)) : forall lo hi k v,
  map fst d = range lo hi ->
  Timer.dict_get k d = Some v ->
  lo <= k /\ nth_error d (Z.to_nat (k - lo)) = Some (k, v).
Proof.
  induction d as [|[k' v'] d IH]; intros lo hi k v Hk;
    cbn [Timer.dict_get]; [discriminate|].
  destruct (Z.le_gt_cases hi lo) as [Hle|Hlt].
  { rewrite range_nil in Hk by assumption. discriminate. }
  rewrite range_cons in Hk by lia. cbn [map fst] in Hk.
  injection Hk as -> Hk.
  destruct (Z.eqb_spec lo k) as [->|Hne].
  - intros [= ->]. rewrite Z.sub_diag. split; [lia|reflexivity].
  - intros Hget. destruct (IH _ _ _ _ Hk Hget) as (Hlo & Hn).
    split; [lia|].
    replace (Z.to_nat (k - lo)) with (S (Z.to_nat (k - (lo + 1)))) by lia.
    exact Hn.
Qed.

Section TimerOrder.

Variable float_of_str : string -> result float.

Lemma add_word_ascending positions st iw st' :
  ascending st ->
  Timer.add_word positions st iw = Ok st' ->
  ascending st' /\ Timer.sections st' = Timer.sections st.
Proof.
  intros (Hk & Hs & Hb). destruct iw as [i w]. cbn [Timer.add_word].
  destruct (getitemZ positions i) as [pos|e]; cbn [bind]; [|discriminate].
  intros [= <-]. split; [|reflexivity]. unfold ascending. cbn.
  rewrite (dict_set_next _ _ _ Hk), !map_app. cbn [map fst snd].
  split; [|split].
  - etransitivity; [apply f_equal2; [exact Hk|reflexivity]|].
    replace (len (Timer.words st ++ [w])) with (len (Timer.words st) + 1)
      by (unfold len; rewrite length_app; cbn [List.length]; lia).
    symmetry. apply range_snoc. unfold len. lia.
  - apply StronglySorted_snoc_le; [exact Hs|].
    apply Forall_map. exact Hb.
  - apply Forall_app. split; [exact Hb|].
    constructor; [|constructor]. cbn. lia.
Qed.

Lemma add_words_ascending positions l : forall st st',
  ascending st ->
  foldM (Timer.add_word positions) l st = Ok st' ->
  ascending st' /\ Timer.sections st' = Timer.sections st.
Proof.
  induction l as [|iw l IH]; intros st st' Hst; cbn [foldM].
  - intros [= <-]. auto.
  - destruct (Timer.add_word positions st iw) as [st1|e] eqn:E; cbn [bind];
      [|discriminate].
    destruct (add_word_ascending _ _ _ _ Hst E) as (H1 & E1).
    intros Hf. destruct (IH _ _ H1 Hf) as (H2 & E2).
    split; [assumption|congruence].
Qed.

Lemma start_section_ascending st line st' :
  ascending st ->
  Timer.start_section float_of_str st line = Ok st' ->
  ascending st'.
Proof.
  intros Hst. unfold Timer.start_section.
  destruct (mem_char ":" _); [|intros [= <-]; exact Hst].
  destruct (Timer.two_floats _ _) as [[mins secs]|e]; cbn [bind];
    [|discriminate].
  destruct Hst as (Hk & Hs & Hb).
  destruct (negb _ && _)%bool; [destruct (negb _)|];
    intros [= <-]; unfold ascending; cbn; repeat split; auto.
  eapply Forall_impl; [|exact Hb].
  intros kp H. unfold len in *. rewrite length_app. cbn [List.length]. lia.
Qed.

Lemma read_line_ascending st line st' :
  ascending st ->
  Timer.read_line float_of_str st line = Ok st' ->
  ascending st'.
Proof.
  intros Hst. unfold Timer.read_line.
  destruct (existsb _ _); [intros [= <-]; exact Hst|].
  destruct (_ && _)%bool; [|intros [= <-]; exact Hst].
  destruct (Timer.start_section _ st line) as [st1|e] eqn:E1; cbn [bind];
    [|discriminate].
  pose proof (start_section_ascending _ _ _ Hst E1) as H1.
  destruct (Timer.clean line) as [cl|e]; cbn [bind]; [|discriminate].
  destruct (negb _); [|intros [= <-]; exact H1].
  destruct (foldM _ _ st1) as [st2|e] eqn:E2; cbn [bind]; [|discriminate].
  destruct (add_words_ascending _ _ _ _ H1 E2) as (H2 & _).
  intros [= <-]. exact H2.
Qed.

End TimerOrder.

(** X19.  In the dictionary [read_lrc_file] returns, the section of a
    word is never before the section of an earlier word: the words of a
    section are consecutive. *)
Theorem sections_of_the_words_never_go_back
    (float_of_str : string -> result float) (lines : list string)
    words sections d (i j : Z) (pi pj : Timer.place) :
  Timer.read_lrc_file float_of_str lines = Ok (words, sections, d) ->
  i <= j ->
  Timer.dict_get i d = Some pi ->
  Timer.dict_get j d = Some pj ->
  section_of pi <= section_of pj.
Proof.
  unfold Timer.read_lrc_file.
  destruct (foldM _ lines _) as [st|e] eqn:E; cbn [bind]; [|discriminate].
  intros [= <- <- <-] Hij Hi Hj.
  assert (Hst : ascending st).
  { eapply (foldM_preserves _ ascending); [| |exact E].
    - intros s a s'. apply read_line_ascending.
    - unfold ascending. cbn. repeat constructor. }
  destruct Hst as (Hk & Hs & _).
  destruct (dict_get_nth _ _ _ _ _ Hk Hi) as (Hi0 & Hni).
  destruct (dict_get_nth _ _ _ _ _ Hk Hj) as (Hj0 & Hnj).
  rewrite Z.sub_0_r in Hni, Hnj.
  destruct (Z.eq_dec i j) as [->|Hne].
  - assert (pi = pj) as -> by congruence. lia.
  - apply (StronglySorted_nth Z.le _ Hs (Z.to_nat i) (Z.to_nat j)); [lia| |].
    + rewrite nth_error_map, Hni. reflexivity.
    + rewrite nth_error_map, Hnj. reflexivity.
Qed.

Lemma sections_of_the_words_never_go_back_witness :
  section_of (0, 0, (6, 5)) <= section_of (1, 0, (0, 3)).
Proof.
  apply (sections_of_the_words_never_go_back Literal.float_literal
           ["[00:01.00]hello   world"; "[00:09.00]new part"]
           ["hello"; "world"; "new"; "part"]
           [["hello   world"]; ["new part"]]
           [(0, (0, 0, (0, 5))); (1, (0, 0, (6, 5)));
            (2, (1, 0, (0, 3))); (3, (1, 0, (4, 4)))]
           1 2).
  - vm_compute. reflexivity.
  - lia.
  - reflexivity.
  - reflexivity.
Defined.
